(** * Neet: synchronous landscapes, attractors and basins

    A shallow embedding of [neet/synchronous.py]: the [Landscape] class
    (construction, the lazily computed attractor/basin decomposition
    [__expound], the [trajectory] method), the free generator functions
    [trajectory], [transitions] and [attractors] and the function
    [timeseries], and of the helper [_all_states_with_one_node_fixed] of
    [neet/boolean/randomnet.py], followed by the properties the
    natural-language specification states about them and by further
    properties of the code.

    Conventions of the embedding.
    - Python integers and [np.int] array cells are [Z].
    - A numpy array or Python list is a [list]; indexing follows Python:
      a negative index counts from the end, an index outside
      [-len, len) raises [IndexError].
    - A call either returns ([Ok]), raises ([Raise]) or, for the loops the
      model runs on fuel, exhausts its fuel ([OutOfFuel]); the theorems show
      that the fuel the model supplies is never exhausted.
    - A generator is modelled by what draining it gives: the items it
      yielded and the exception, if any, that ended it. *)

From Stdlib Require Import ZArith Lia String Ascii DecimalString DecimalZ.
From stdpp Require Import base numbers list.

Open Scope Z_scope.

(* ================================================================= *)
(** ** Outcomes of Python calls *)

Inductive exn : Type :=
| ValueError (msg : string)
| TypeError (msg : string)
| IndexError
| AttributeError.

Inductive result (A : Type) : Type :=
| Ok (a : A)
| Raise (e : exn)
| OutOfFuel.

Arguments Ok {A} a.
Arguments Raise {A} e.
Arguments OutOfFuel {A}.

Definition bind {A B : Type} (m : result A) (k : A → result B) : result B :=
  match m with
  | Ok a => k a
  | Raise e => Raise e
  | OutOfFuel => OutOfFuel
  end.

Notation "'let*' x ':=' m 'in' k" := (bind m (fun x => k))
  (at level 10, x pattern, m at level 100, k at level 200).

Definition is_ValueError {A : Type} (r : result A) : Prop :=
  ∃ msg, r = Raise (ValueError msg).

(* ================================================================= *)
(** ** Python indexing *)

(** The position a Python index denotes in a sequence of length [len]. *)
Definition norm_index (len : nat) (i : Z) : option nat :=
  if bool_decide (0 ≤ i < Z.of_nat len) then Some (Z.to_nat i)
  else if bool_decide (- Z.of_nat len ≤ i < 0) then Some (Z.to_nat (Z.of_nat len + i))
  else None.

(** [a[i]] *)
Definition getitem {A : Type} (a : list A) (i : Z) : result A :=
  match norm_index (length a) i with
  | Some k => match a !! k with Some x => Ok x | None => Raise IndexError end
  | None => Raise IndexError
  end.

(** [a[i] = x] *)
Definition setitem {A : Type} (a : list A) (i : Z) (x : A) : result (list A) :=
  match norm_index (length a) i with
  | Some k => Ok (<[k:=x]> a)
  | None => Raise IndexError
  end.

(* ================================================================= *)
(** ** [Landscape.__expound]: the attractor/basin decomposition *)

(** The variables of [__expound] that live across iterations of its outer
    loop. *)
Record expound_vars : Type := ExpoundVars {
  visited : list bool;
  basins : list Z;
  basin_number : Z;
  attractors : list (list Z);
  initial_state : Z
}.

(** Lines 525-533: follow successors until the next state is already
    visited. [terminus] and [next_state] are assigned together throughout,
    so one variable stands for both. The Python stack grows at the end of
    a list; here its top is the head. *)
Fixpoint walk (fuel : nat) (trans : list Z) (visited : list bool)
    (state next_state : Z) (state_stack : list Z)
    : result (list bool * Z * Z * list Z) :=
  match fuel with
  | O => OutOfFuel
  | S fuel =>
      let* seen := getitem visited next_state in
      if (seen : bool) then Ok (visited, state, next_state, state_stack)
      else
        let state_stack := state :: state_stack in
        let state := next_state in
        let* next_state := getitem trans state in
        let* visited := setitem visited state true in
        walk fuel trans visited state next_state state_stack
  end.

(** Lines 553-563: pop the stack, assigning the basin and, while still in
    the cycle, collecting the popped states. *)
Fixpoint unwind (state_stack : list Z) (basins : list Z) (basin terminus : Z)
    (in_cycle : bool) (cycle : list Z) : result (list Z * list Z) :=
  match state_stack with
  | [] => Ok (basins, cycle)
  | state :: state_stack =>
      let* basins := setitem basins state basin in
      if in_cycle
      then unwind state_stack basins basin terminus
             (negb (terminus =? state)) (cycle ++ [state])
      else unwind state_stack basins basin terminus in_cycle cycle
  end.

(** Lines 566-567: advance to the next unvisited state. *)
Fixpoint scan (fuel : nat) (visited : list bool) (initial_state : Z) : result Z :=
  match fuel with
  | O => OutOfFuel
  | S fuel =>
      if bool_decide (initial_state < Z.of_nat (length visited)) then
        let* seen := getitem visited initial_state in
        if (seen : bool) then scan fuel visited (initial_state + 1)
        else Ok initial_state
      else Ok initial_state
  end.

(** Lines 519-533: start a path at [initial_state] and walk it to its
    terminus. The result is [(visited, state, terminus, state_stack)]. *)
Definition expound_walk (trans : list Z) (s : expound_vars)
    : result (list bool * Z * Z * list Z) :=
  let state := initial_state s in
  let* next_state := getitem trans state in
  let* visited := setitem (visited s) state true in
  walk (length visited) trans visited state next_state [].

(** Lines 512-571: one iteration of the outer loop. *)
Definition expound_body (trans : list Z) (s : expound_vars) : result expound_vars :=
  let* (visited, state, next_state, state_stack) := expound_walk trans s in
  let terminus := next_state in
  let* b := getitem (basins s) next_state in
  let '(basin, basin_number, cycle, in_cycle) :=
    if b =? -1
    then (basin_number s, basin_number s + 1, [state], negb (terminus =? state))
    else (b, basin_number s, [], false) in
  let* basins := setitem (basins s) state basin in
  let* (basins, cycle) := unwind state_stack basins basin terminus in_cycle cycle in
  let* initial_state := scan (S (length visited)) visited (initial_state s) in
  let attractors :=
    if bool_decide (length cycle ≠ 0%nat) then attractors s ++ [cycle]
    else attractors s in
  Ok (ExpoundVars visited basins basin_number attractors initial_state).

(** Lines 511-571: the outer loop. *)
Fixpoint expound_loop (fuel : nat) (trans : list Z) (s : expound_vars)
    : result expound_vars :=
  match fuel with
  | O => OutOfFuel
  | S fuel =>
      if bool_decide (initial_state s < Z.of_nat (length trans)) then
        let* s := expound_body trans s in
        expound_loop fuel trans s
      else Ok s
  end.

(** Lines 498-509: the variables before the first iteration, for a
    volume that is not negative. (With a negative volume, which no state
    space has, [np.zeros] raises [ValueError] at line 500; the model does
    not cover that case, and every statement below is about a volume of
    at least 0.) *)
Definition expound_init (volume : Z) : expound_vars :=
  ExpoundVars (replicate (Z.to_nat volume) false)
              (replicate (Z.to_nat volume) (-1)) 0 [] 0.

(** Lines 496-575, up to the stores into [self]: the [basins] array and the
    list of attractor cycles. *)
Definition expound (volume : Z) (trans : list Z) : result (list Z * list (list Z)) :=
  let* s := expound_loop (S (Z.to_nat volume)) trans (expound_init volume) in
  Ok (basins s, attractors s).

Example expound_scenario1 :
  expound 4 [1; 3; 3; 3] = Ok ([0; 0; 0; 0], [[3]]).
Proof. vm_compute. reflexivity. Qed.

Example expound_eca30_3 :
  expound 8 [0; 7; 7; 1; 7; 4; 2; 0] = Ok ([0; 0; 0; 0; 0; 0; 0; 0], [[0]]).
Proof. vm_compute. reflexivity. Qed.

Example expound_rot3 :
  expound 3 [1; 2; 0] = Ok ([0; 0; 0], [[2; 1; 0]]).
Proof. vm_compute. reflexivity. Qed.

(* ================================================================= *)
(** ** The state space and the network adapter *)

(** Modelled from the spec: the [StateSpace] class, which
    [synchronous.py] imports from [neet/statespace.py]. A state space has
    one base per dimension; its volume is the product of the bases;
    [encode] and [decode] are the mixed-radix bijection between the state
    vectors (one coordinate per dimension, each within its base) and
    [0 .. volume-1], the first coordinate being the least significant
    digit (as in the examples of the docstrings of [synchronous.py]);
    both reject what lies outside their domain with a [ValueError]; the
    unchecked encoder skips the test. *)
Record StateSpace : Type := MkStateSpace { bases : list Z }.

Definition ndim (sp : StateSpace) : nat := length (bases sp).

Definition volume (sp : StateSpace) : Z := foldr Z.mul 1 (bases sp).

Fixpoint in_bases (bs : list Z) (v : list Z) : bool :=
  match bs, v with
  | [], [] => true
  | b :: bs, x :: v => (0 <=? x) && (x <? b) && in_bases bs v
  | _, _ => false
  end.

Fixpoint encode_digits (bs : list Z) (v : list Z) : Z :=
  match bs, v with
  | b :: bs, x :: v => x + b * encode_digits bs v
  | _, _ => 0
  end.

Fixpoint decode_digits (bs : list Z) (i : Z) : list Z :=
  match bs with
  | [] => []
  | b :: bs => i mod b :: decode_digits bs (i / b)
  end.

Definition StateSpace_unsafe_encode (sp : StateSpace) (v : list Z) : Z :=
  encode_digits (bases sp) v.

Definition StateSpace_encode (sp : StateSpace) (v : list Z) : result Z :=
  if in_bases (bases sp) v then Ok (StateSpace_unsafe_encode sp v)
  else Raise (ValueError "state is not in state space").

Definition StateSpace_decode (sp : StateSpace) (i : Z) : result (list Z) :=
  if (0 <=? i) && (i <? volume sp) then Ok (decode_digits (bases sp) i)
  else Raise (ValueError "index is not in state space").

(** Iterating over a state space: the states in the order of their
    indices. *)
Definition StateSpace_iter (sp : StateSpace) : list (list Z) :=
  (λ i : nat, decode_digits (bases sp) (Z.of_nat i)) <$> seq 0 (Z.to_nat (volume sp)).

(** Modelled from the spec: the network adapter, which [synchronous.py]
    reaches through [neet/interfaces.py]. A network declares whether it is
    fixed sized, gives its state space (for the size asked, when it is not
    fixed sized) and updates a state; [net.update] validates the state
    ([update_check] is the exception it raises, if any) and then does what
    [net._unsafe_update] does. *)
Record Network : Type := MkNetwork {
  is_fixed_sized : bool;
  state_space : option Z → StateSpace;
  _unsafe_update : list Z → list Z;
  update_check : list Z → option exn
}.

(** A Python value passed as [net]: a network ([is_network] holds) or
    anything else. *)
Inductive pyobj : Type :=
| PyNetwork (net : Network)
| PyOther.

(** What the code can be observed to do: it starts iterating over a
    state space, it asks the network for the successor of a state, and it
    runs the decomposition [__expound]. *)
Inductive event : Type :=
| Enumerate (sp : StateSpace)
| Update (state : list Z)
| Expound.

(** A state as the functions return it: an encoded index or a vector. *)
Inductive pystate : Type :=
| Encoded (i : Z)
| Decoded (v : list Z).

(* ================================================================= *)
(** ** The free generator functions [trajectory] and [transitions] *)

(** The states [step st], [step (step st)], ... ([k] of them). *)
Fixpoint iterates (k : nat) (step : list Z → list Z) (st : list Z) : list (list Z) :=
  match k with
  | O => []
  | S k => step st :: iterates k step (step st)
  end.

(** Lines 49-52: the state space the free function [trajectory] encodes
    with. *)
Definition trajectory_space (net : Network) (state : list Z) : StateSpace :=
  if is_fixed_sized net then state_space net None
  else state_space net (Some (Z.of_nat (length state))).

(** Lines 11-70, drained: the items yielded and the exception that ended
    the generator, if any. *)
Definition trajectory (net : pyobj) (state : list Z) (timesteps : Z)
    (encode : bool) : list pystate * option exn :=
  match net with
  | PyOther => ([], Some (TypeError "net is not a network"))
  | PyNetwork net =>
      if timesteps <? 1
      then ([], Some (ValueError "number of steps must be positive, non-zero"))
      else
        let state_space := trajectory_space net state in
        let item (st : list Z) :=
          if encode then Encoded (StateSpace_unsafe_encode state_space st)
          else Decoded st in
        match update_check net state with
        | Some e => ([item state], Some e)
        | None =>
            let state1 := _unsafe_update net state in
            (item state :: item state1
               :: (item <$> iterates (Z.to_nat (timesteps - 1))
                              (_unsafe_update net) state1),
             None)
        end
  end.

(** Lines 72-119, drained: the events, the items yielded and the
    exception that ended the generator, if any. *)
Definition transitions (net : pyobj) (size : option Z) (encode : bool)
    : list event * list pystate * option exn :=
  match net with
  | PyOther => ([], [], Some (TypeError "net is not a network"))
  | PyNetwork net =>
      let go (state_space : StateSpace) :=
        (Enumerate state_space :: (Update <$> StateSpace_iter state_space),
         (λ state,
            let state := _unsafe_update net state in
            if encode then Encoded (StateSpace_unsafe_encode state_space state)
            else Decoded state) <$> StateSpace_iter state_space,
         None) in
      if is_fixed_sized net then
        match size with
        | Some _ =>
            ([], [], Some (ValueError "size must be None for fixed sized networks"))
        | None => go (state_space net None)
        end
      else
        match size with
        | None =>
            ([], [],
             Some (ValueError "size must not be None for variable sized networks"))
        | Some size => go (state_space net (Some size))
        end
  end.

(* ================================================================= *)
(** ** The [Landscape] class *)

(** A [Landscape] object: the state space it is (its base class), and its
    private attributes; [__basins] and [__attractors] do not exist before
    [__expound] has run. *)
Record Landscape : Type := MkLandscape {
  space : StateSpace;
  __net : Network;
  __expounded : bool;
  __transitions : list Z;
  __basins : option (list Z);
  __attractors : option (list (list Z))
}.

(** Lines 482-494: [__setup]. The array of [volume] cells is filled in
    the order of the iteration over the state space, cell [i] with the
    encoded successor of the [i]-th state. *)
Definition Landscape_setup (net : Network) (sp : StateSpace)
    : list event * list Z :=
  (Enumerate sp :: (Update <$> StateSpace_iter sp),
   (λ state, StateSpace_unsafe_encode sp (_unsafe_update net state))
     <$> StateSpace_iter sp).

(** Lines 394-432: [__init__]. *)
Definition Landscape_init (net : pyobj) (size : option Z)
    : list event * result Landscape :=
  match net with
  | PyOther => ([], Raise (TypeError "net is not a network"))
  | PyNetwork net =>
      let construct (state_space : StateSpace) :=
        let '(events, transitions) := Landscape_setup net state_space in
        (events, Ok (MkLandscape state_space net false transitions None None)) in
      if is_fixed_sized net then
        match size with
        | Some _ =>
            ([], Raise (ValueError "size must be None for fixed sized networks"))
        | None => construct (state_space net None)
        end
      else
        match size with
        | None =>
            ([], Raise (ValueError "size must not be None for variable sized networks"))
        | Some size => construct (state_space net (Some size))
        end
  end.

(** Lines 496-575: [__expound], with the stores into [self]. *)
Definition Landscape_expound (self : Landscape) : list event * result Landscape :=
  ([Expound],
   let* (basins, attractors) := expound (volume (space self)) (__transitions self) in
   Ok (MkLandscape (space self) (__net self) true (__transitions self)
         (Some basins) (Some attractors))).

(** A value a property of a landscape returns. *)
Inductive pyvalue : Type :=
| Array (a : list Z)
| Cycles (c : list (list Z)).

(** Reading an attribute that may not exist yet. *)
Definition getattr {A : Type} (o : option A) : result A :=
  match o with Some a => Ok a | None => Raise AttributeError end.

(** Lines 452-461: the property [transitions]. *)
Definition Landscape_transitions (self : Landscape)
    : list event * result (pyvalue * Landscape) :=
  ([], Ok (Array (__transitions self), self)).

(** Lines 463-472: the property [attractors]. *)
Definition Landscape_attractors (self : Landscape)
    : list event * result (pyvalue * Landscape) :=
  let '(events, self) :=
    if negb (__expounded self) then Landscape_expound self
    else ([], Ok self) in
  (events,
   let* self := self in
   let* attractors := getattr (__attractors self) in
   Ok (Cycles attractors, self)).

(** Lines 474-480: the property [basins]. *)
Definition Landscape_basins (self : Landscape)
    : list event * result (pyvalue * Landscape) :=
  let '(events, self) :=
    if negb (__expounded self) then Landscape_expound self
    else ([], Ok self) in
  (events,
   let* self := self in
   let* basins := getattr (__basins self) in
   Ok (Array basins, self)).

(** The initial state passed to [Landscape.trajectory]: a list, a numpy
    array, or a pre-encoded integer. *)
Inductive pyinit : Type :=
| InitList (v : list Z)
| InitArray (v : list Z)
| InitInt (i : Z).

(** Line 581, [init == []]. For a list this is list equality. For a numpy
    array [==] compares elementwise and yields an array (empty when [init]
    is empty), whose truth value is false for the numpy versions that
    still have [np.int] and [np.bool], the only ones this module runs
    on. *)
Definition eq_empty_list (init : pyinit) : bool :=
  match init with
  | InitList [] => true
  | _ => false
  end.

(** Lines 594-596: [path] is [timesteps + 1] copies of [init]; cell [i] is
    then overwritten with the successor of cell [i-1], for [i] in
    [range(1, len(path))]. *)
Fixpoint fill_path (trans : list Z) (indices : list nat) (path : list Z)
    : result (list Z) :=
  match indices with
  | [] => Ok path
  | i :: indices =>
      let* prev := getitem path (Z.of_nat i - 1) in
      let* next := getitem trans prev in
      let* path := setitem path (Z.of_nat i) next in
      fill_path trans indices path
  end.

(** Lines 600-602: append states until the next one is already in the
    path. [trajectory_path] runs the loop with fuel for [len(trans) + 1]
    tests of its condition. *)
Fixpoint until_repeat (fuel : nat) (trans : list Z) (path : list Z) (state : Z)
    : result (list Z) :=
  match fuel with
  | O => OutOfFuel
  | S fuel =>
      if bool_decide (state ∈ path) then Ok path
      else
        let path := path ++ [state] in
        let* state := getitem trans state in
        until_repeat fuel trans path state
  end.

(** Line 606: [[decode(state) for state in path]]. *)
Fixpoint decode_all (sp : StateSpace) (path : list Z) : result (list pystate) :=
  match path with
  | [] => Ok []
  | state :: path =>
      let* v := StateSpace_decode sp state in
      let* rest := decode_all sp path in
      Ok (Decoded v :: rest)
  end.

(** Lines 589-602: the path of indices. *)
Definition trajectory_path (trans : list Z) (init : Z) (timesteps : option Z)
    : result (list Z) :=
  match timesteps with
  | Some timesteps =>
      if timesteps <? 1
      then Raise (ValueError "number of steps must be positive, non-zero")
      else
        let path := replicate (Z.to_nat (timesteps + 1)) init in
        fill_path trans (seq 1 (length path - 1)) path
  | None =>
      let path := [init] in
      let* state := getitem trans init in
      until_repeat (S (length trans)) trans path state
  end.

(** Lines 577-608: [Landscape.trajectory]. *)
Definition Landscape_trajectory (self : Landscape) (init : pyinit)
    (timesteps : option Z) (encode : option bool) : result (list pystate) :=
  let* (init, encode) :=
    match init with
    | InitList v | InitArray v =>
        if eq_empty_list init
        then Raise (ValueError "initial state cannot be empty")
        else
          let encode := match encode with None => false | Some e => e end in
          let* init := StateSpace_encode (space self) v in
          Ok (init, encode)
    | InitInt i =>
        Ok (i, match encode with None => true | Some e => e end)
    end in
  let* path := trajectory_path (__transitions self) init timesteps in
  if negb encode then decode_all (space self) path
  else Ok (Encoded <$> path).



Example trajectory_scenario3 :
  Landscape_trajectory
    (MkLandscape (MkStateSpace [2; 2])
       (MkNetwork true (λ _, MkStateSpace [2; 2]) (λ v, v) (λ _, None))
       false [1; 3; 3; 3] None None)
    (InitInt 0) None None
  = Ok [Encoded 0; Encoded 1; Encoded 3].
Proof. vm_compute. reflexivity. Qed.

(* ================================================================= *)
(** ** The free functions [attractors] and [timeseries] *)

(** The indices a generator run with [encode=True] has yielded. *)
Definition indices (items : list pystate) : list Z :=
  omap (λ item, match item with Encoded i => Some i | Decoded _ => None end)
       items.

(** The vectors a generator run with [encode=False] has yielded. *)
Definition vectors (items : list pystate) : list (list Z) :=
  omap (λ item, match item with Decoded v => Some v | Encoded _ => None end)
       items.

(** Lines 205-258 of the free function [attractors]: one iteration of its
    loop, which gives the variables afterwards and the cycle collected.
    The function keeps no list of attractors (field [attractors] is left
    alone), marks a state without basin by 0 and never changes
    [basin_number]. *)
Definition attractors_body (trans : list Z) (s : expound_vars)
    : result (expound_vars * list Z) :=
  let* (visited, state, next_state, state_stack) := expound_walk trans s in
  let terminus := next_state in
  let* b := getitem (basins s) next_state in
  let '(basin, cycle, in_cycle) :=
    if b =? 0
    then (basin_number s, [state], negb (terminus =? state))
    else (b, [], false) in
  let* basins := setitem (basins s) state basin in
  let* (basins, cycle) := unwind state_stack basins basin terminus in_cycle cycle in
  let* initial_state := scan (S (length visited)) visited (initial_state s) in
  Ok (ExpoundVars visited basins (basin_number s) (attractors s) initial_state,
      cycle).

(** Lines 204-262, drained: the cycles yielded and how the loop ended. *)
Fixpoint attractors_loop (fuel : nat) (trans : list Z) (s : expound_vars)
    : list (list Z) * result () :=
  match fuel with
  | O => ([], OutOfFuel)
  | S fuel =>
      if bool_decide (initial_state s < Z.of_nat (length trans)) then
        match attractors_body trans s with
        | Ok (s, cycle) =>
            let '(cycles, ending) := attractors_loop fuel trans s in
            ((if bool_decide (length cycle ≠ 0%nat) then [cycle] else [])
               ++ cycles,
             ending)
        | Raise e => ([], Raise e)
        | OutOfFuel => ([], OutOfFuel)
        end
      else ([], Ok ())
  end.

(** Lines 193-202: the variables before the first iteration. *)
Definition attractors_init (trans : list Z) : expound_vars :=
  ExpoundVars (replicate (length trans) false) (replicate (length trans) 0)
              1 [] 0.

(** Lines 156-262: the free function [attractors], drained, for an
    argument that is a network or an object that is neither a network
    nor a [networkx.DiGraph] (the branch of line 181, which hands a graph
    to [networkx], is not part of the model): the events, the cycles
    yielded and how the generator ended. *)
Definition synchronous_attractors (net : pyobj) (size : option Z)
    : list event * list (list Z) * result () :=
  match net with
  | PyOther =>
      ([], [], Raise (TypeError "net must be a network or a networkx DiGraph"))
  | PyNetwork n =>
      if is_fixed_sized n && bool_decide (size ≠ None)
      then ([], [], Raise (ValueError "fixed sized networks require size is None"))
      else if negb (is_fixed_sized n) && bool_decide (size = None)
      then ([], [], Raise (ValueError "variable sized networks require a size"))
      else
        let '(events, items, ending) := transitions net size true in
        match ending with
        | Some e => (events, [], Raise e)
        | None =>
            let trans := indices items in
            let '(cycles, ending) :=
              attractors_loop (S (length trans)) trans (attractors_init trans) in
            (events, cycles, ending)
        end
  end.

(** Lines 380 and 382, [series[:, index, time] = state[:]]: numpy stores a
    vector that has one entry per node, spreads a vector of one entry
    over all nodes, and refuses any other (the entries are taken to fit
    the integer type of the array). *)
Definition column (ndim : nat) (state : list Z) : result (list Z) :=
  if bool_decide (length state = ndim) then Ok state
  else
    match state with
    | [x] => Ok (replicate ndim x)
    | _ => Raise (ValueError "could not broadcast input array")
    end.

(** Lines 381-383: the columns of one initial state at the times
    [1 .. timesteps]. *)
Fixpoint timeseries_row (ndim : nat) (trans : list (list Z))
    (encoded_trans : list Z) (times : nat) (k : Z) : result (list (list Z)) :=
  match times with
  | O => Ok []
  | S times =>
      let* state := getitem trans k in
      let* col := column ndim state in
      let* k := getitem encoded_trans k in
      let* rest := timeseries_row ndim trans encoded_trans times k in
      Ok (col :: rest)
  end.

(** Lines 378-383: the loop over the enumerated states. *)
Fixpoint timeseries_rows (ndim : nat) (trans : list (list Z))
    (encoded_trans : list Z) (times : nat) (states : list (nat * list Z))
    : result (list (list (list Z))) :=
  match states with
  | [] => Ok []
  | (index, init) :: states =>
      let* col := column ndim init in
      let* row := timeseries_row ndim trans encoded_trans times (Z.of_nat index) in
      let* rest := timeseries_rows ndim trans encoded_trans times states in
      Ok ((col :: row) :: rest)
  end.

(** Lines 328-385: [timeseries]. The array of shape
    [(ndim, volume, timesteps + 1)] is given as the list, over the states
    in their order, of the list, over the times [0 .. timesteps], of the
    columns [series[:, index, time]]. *)
Definition timeseries (net : pyobj) (timesteps : Z) (size : option Z)
    : result (list (list (list Z))) :=
  match net with
  | PyOther => Raise (TypeError "net must be a NEET network")
  | PyNetwork n =>
      if negb (is_fixed_sized n) && bool_decide (size = None)
      then Raise (ValueError "network is not fixed sized; must provide a size")
      else if is_fixed_sized n && bool_decide (size ≠ None)
      then Raise (ValueError "cannot provide a size with a fixed sized network")
      else if timesteps <? 1
      then Raise (ValueError "time series must have at least one timestep")
      else
        let state_space := state_space n size in
        let '(_, items, ending) := transitions net size false in
        match ending with
        | Some e => Raise e
        | None =>
            let trans := vectors items in
            let encoded_trans := StateSpace_unsafe_encode state_space <$> trans in
            timeseries_rows (ndim state_space) trans encoded_trans
              (Z.to_nat timesteps)
              (imap (λ index init, (index, init)) (StateSpace_iter state_space))
        end
  end.

Example attractors_scenario1 :
  synchronous_attractors
    (PyNetwork
       (MkNetwork true (λ _, MkStateSpace [2; 2])
          (λ v, decode_digits [2; 2]
                  (default 0 ([1; 3; 3; 3] !! Z.to_nat (encode_digits [2; 2] v))))
          (λ _, None)))
    None
  = ([Enumerate (MkStateSpace [2; 2]);
      Update [0; 0]; Update [1; 0]; Update [0; 1]; Update [1; 1]],
     [[3]], Ok ()).
Proof. vm_compute. reflexivity. Qed.

Example timeseries_scenario1 :
  timeseries
    (PyNetwork
       (MkNetwork true (λ _, MkStateSpace [2; 2])
          (λ v, decode_digits [2; 2]
                  (default 0 ([1; 3; 3; 3] !! Z.to_nat (encode_digits [2; 2] v))))
          (λ _, None)))
    2 None
  = Ok [[[0; 0]; [1; 0]; [1; 1]]; [[1; 0]; [1; 1]; [1; 1]];
        [[0; 1]; [1; 1]; [1; 1]]; [[1; 1]; [1; 1]; [1; 1]]].
Proof. vm_compute. reflexivity. Qed.

(* ================================================================= *)
(** ** [randomnet.py]: the states with one node fixed *)

(** The outcome of a call that may raise a plain [Exception] before it
    does anything else. *)
Inductive outcome (A : Type) : Type :=
| Exception (msg : string)
| Proceeds (r : result A).

Arguments Exception {A} msg.
Arguments Proceeds {A} r.

(** The binary digits of a positive number, least significant first. *)
Fixpoint pos_bits (p : positive) : list bool :=
  match p with
  | xH => [true]
  | xO p => false :: pos_bits p
  | xI p => true :: pos_bits p
  end.

Definition digit (b : bool) : ascii := if b then "1"%char else "0"%char.

(** ['{0:0{1}b}'.format(idx, width)]: the binary digits of [idx], most
    significant first, after the sign if there is one, with zeros before
    the digits to fill [width] characters. *)
Definition format_binary (idx width : Z) : list ascii :=
  match idx with
  | Z0 => replicate (Z.to_nat width - 1) "0"%char ++ ["0"%char]
  | Zpos p =>
      let digits := digit <$> rev (pos_bits p) in
      replicate (Z.to_nat width - length digits) "0"%char ++ digits
  | Zneg p =>
      let digits := digit <$> rev (pos_bits p) in
      "-"%char :: replicate (Z.to_nat width - 1 - length digits) "0"%char
        ++ digits
  end.

(** [str(fixed_value)] for an integer: its decimal numeral. *)
Definition str (z : Z) : string := NilZero.string_of_int (Z.to_int z).

(** Lines 136-137: the list comprehension, over the indices of
    [range(2**k)]. *)
Fixpoint fixed_states (k fixed_index fixed_value : Z) (range : list Z)
    : result (list Z) :=
  match range with
  | [] => Ok []
  | idx :: range =>
      let* c := getitem (format_binary idx k) fixed_index in
      let keep := String.eqb (String c EmptyString) (str fixed_value) in
      let* rest := fixed_states k fixed_index fixed_value range in
      Ok (if keep then idx :: rest else rest)
  end.

(** Lines 129-137 of [randomnet.py]: [_all_states_with_one_node_fixed],
    for integer arguments. For a negative [k], [2**k] is a float, which
    [range] refuses. *)
Definition _all_states_with_one_node_fixed (k fixed_index fixed_value : Z)
    (max_k : Z) : outcome (list Z) :=
  if max_k <? k then Exception "k > max_k"
  else
    Proceeds
      (if k <? 0
       then Raise (TypeError "range() integer end argument expected, got float.")
       else fixed_states k fixed_index fixed_value
              (Z.of_nat <$> seq 0 (Z.to_nat (2 ^ k)))).

Example all_states_with_one_node_fixed_3 :
  _all_states_with_one_node_fixed 3 0 1 20 = Proceeds (Ok [4; 5; 6; 7])
  ∧ _all_states_with_one_node_fixed 3 (-1) 0 20 = Proceeds (Ok [0; 2; 4; 6])
  ∧ _all_states_with_one_node_fixed 3 3 0 20 = Proceeds (Raise IndexError)
  ∧ _all_states_with_one_node_fixed 21 0 1 20 = Exception "k > max_k".
Proof. vm_compute. done. Qed.

(* ################################################################# *)
(** * Verification *)

(* ================================================================= *)
(** ** Indexing inside the bounds *)

Definition in_range (n : nat) (i : Z) : Prop := 0 ≤ i < Z.of_nat n.

Lemma norm_index_in_range n i :
  in_range n i → norm_index n i = Some (Z.to_nat i).
Proof.
  intros Hi. unfold norm_index. rewrite bool_decide_eq_true_2; done.
Qed.

Lemma lookup_in_range {A : Type} (a : list A) i :
  in_range (length a) i → is_Some (a !! Z.to_nat i).
Proof. intros [??]. apply lookup_lt_is_Some. lia. Qed.

Lemma getitem_in_range {A : Type} (a : list A) i x :
  in_range (length a) i → a !! Z.to_nat i = Some x → getitem a i = Ok x.
Proof.
  intros Hi Hx. unfold getitem. rewrite norm_index_in_range by done.
  by rewrite Hx.
Qed.

Lemma setitem_in_range {A : Type} (a : list A) i x :
  in_range (length a) i → setitem a i x = Ok (<[Z.to_nat i:=x]> a).
Proof.
  intros Hi. unfold setitem. by rewrite norm_index_in_range.
Qed.

(** Storing the same value at each index of a list of indices. *)
Definition assign {A : Type} (xs : list Z) (b : A) (a : list A) : list A :=
  foldr (λ x a, <[Z.to_nat x:=b]> a) a xs.

Lemma length_assign {A : Type} xs (b : A) a : length (assign xs b a) = length a.
Proof. induction xs as [|x xs IH]; simpl; [done|]. by rewrite length_insert. Qed.

Lemma assign_app {A : Type} xs ys (b : A) a :
  assign (xs ++ ys) b a = assign xs b (assign ys b a).
Proof. unfold assign. by rewrite foldr_app. Qed.

Lemma lookup_assign_in {A : Type} xs (b : A) a x :
  x ∈ xs → in_range (length a) x → assign xs b a !! Z.to_nat x = Some b.
Proof.
  intros Hx [??]. induction xs as [|y xs IH]; [by apply elem_of_nil in Hx|].
  simpl. destruct (decide (Z.to_nat y = Z.to_nat x)) as [->|Hne].
  - apply list_lookup_insert_eq. rewrite length_assign. lia.
  - rewrite list_lookup_insert_ne by done. apply IH.
    apply elem_of_cons in Hx as [->|?]; done.
Qed.

Lemma lookup_assign_notin {A : Type} xs (b : A) a i :
  Forall (λ x, 0 ≤ x) xs → 0 ≤ i → i ∉ xs →
  assign xs b a !! Z.to_nat i = a !! Z.to_nat i.
Proof.
  intros Hxs Hi. induction Hxs as [|y xs Hy _ IH]; intros Hni; [done|].
  simpl. apply not_elem_of_cons in Hni as [??].
  rewrite list_lookup_insert_ne by lia. by apply IH.
Qed.

Lemma lookup_assign_true xs a j :
  a !! j = Some true → assign xs true a !! j = Some true.
Proof.
  intros Hj. induction xs as [|y xs IH]; simpl; [done|].
  destruct (decide (Z.to_nat y = j)) as [->|Hne].
  - apply list_lookup_insert_eq. apply lookup_lt_Some in IH. done.
  - by rewrite list_lookup_insert_ne.
Qed.

(** The number of marked cells of a [visited] array. *)
Fixpoint nvisited (v : list bool) : nat :=
  match v with
  | [] => 0
  | b :: v => (if b then 1 else 0) + nvisited v
  end%nat.

Lemma nvisited_le v : (nvisited v ≤ length v)%nat.
Proof. induction v as [|[] v IH]; simpl; lia. Qed.

Lemma nvisited_insert v k :
  v !! k = Some false → nvisited (<[k:=true]> v) = S (nvisited v).
Proof.
  revert k. induction v as [|b v IH]; intros [|k] Hk; simplify_eq/=; [done|].
  rewrite IH by done. lia.
Qed.

Lemma nvisited_assign xs v :
  NoDup xs → Forall (λ x, 0 ≤ x) xs →
  (∀ x, x ∈ xs → v !! Z.to_nat x = Some false) →
  nvisited (assign xs true v) = (nvisited v + length xs)%nat.
Proof.
  intros Hnd Hxs. induction Hnd as [|x xs Hx Hnd IH]; intros Hv; simpl; [lia|].
  inversion_clear Hxs as [|?? Hx0 Hxs'].
  rewrite nvisited_insert.
  - rewrite IH; [lia|done|]. intros y Hy. apply Hv. by right.
  - rewrite lookup_assign_notin by done. apply Hv. by left.
Qed.

Lemma assign_cons {A : Type} x xs (b : A) a :
  assign (x :: xs) b a = <[Z.to_nat x:=b]> (assign xs b a).
Proof. done. Qed.

Lemma assign_snoc {A : Type} x xs (b : A) a :
  assign (xs ++ [x]) b a = assign xs b (<[Z.to_nat x:=b]> a).
Proof. by rewrite assign_app. Qed.

Global Arguments assign : simpl never.

(* ================================================================= *)
(** ** The functional graph of a transitions array *)

(** Every entry of the array is an index of the array. *)
Definition wf_trans (trans : list Z) : Prop :=
  Forall (in_range (length trans)) trans.

(** The successor of state [i]: [trans[i]] for [i] inside the bounds. *)
Definition successor (trans : list Z) (i : Z) : Z :=
  default 0 (trans !! Z.to_nat i).

(** The states collected by popping a stack down to and including the
    first occurrence of [terminus]. *)
Fixpoint take_through (terminus : Z) (l : list Z) : list Z :=
  match l with
  | [] => []
  | x :: l => x :: (if terminus =? x then [] else take_through terminus l)
  end.

(** The walk the specification describes for a new cycle: forward from the
    terminus along the transitions, collecting states, until the walk
    returns to the terminus. *)
Fixpoint forward_walk (fuel : nat) (trans : list Z) (terminus x : Z) : list Z :=
  match fuel with
  | O => []
  | S fuel =>
      x :: (if successor trans x =? terminus then []
            else forward_walk fuel trans terminus (successor trans x))
  end.

Definition forward_cycle (trans : list Z) (terminus : Z) : list Z :=
  forward_walk (length trans) trans terminus terminus.

(** A list in which every element is the successor of the element after
    it: a path of the graph, latest state first. *)
Fixpoint rchain (trans : list Z) (l : list Z) : Prop :=
  match l with
  | [] => True
  | a :: r =>
      match r with [] => True | b :: _ => successor trans b = a end
      ∧ rchain trans r
  end.

Lemma unwind_spec stack bas basin t in_cycle cycle :
  Forall (in_range (length bas)) stack →
  unwind stack bas basin t in_cycle cycle
  = Ok (assign (rev stack) basin bas,
        cycle ++ (if in_cycle then take_through t stack else [])).
Proof.
  revert bas in_cycle cycle.
  induction stack as [|x stack IH]; intros bas in_cycle cycle Hst; simpl.
  { destruct in_cycle; by rewrite app_nil_r. }
  inversion_clear Hst as [|?? Hx Hst'].
  rewrite setitem_in_range by done. simpl.
  rewrite assign_snoc.
  destruct in_cycle.
  - rewrite IH by (by rewrite length_insert).
    rewrite <- app_assoc. simpl. by destruct (t =? x).
  - by rewrite IH by (by rewrite length_insert).
Qed.

Lemma scan_spec fuel vis i :
  0 ≤ i ≤ Z.of_nat (length vis) →
  (length vis < fuel + Z.to_nat i)%nat →
  ∃ i', scan fuel vis i = Ok i'
    ∧ i ≤ i' ≤ Z.of_nat (length vis)
    ∧ (∀ j, i ≤ j < i' → vis !! Z.to_nat j = Some true)
    ∧ (i' < Z.of_nat (length vis) → vis !! Z.to_nat i' = Some false).
Proof.
  revert i. induction fuel as [|fuel IH]; intros i Hi Hfuel; [lia|].
  simpl. case_bool_decide as Hlt.
  - assert (in_range (length vis) i) as Hr by (unfold in_range; lia).
    destruct (lookup_in_range vis i Hr) as [b Hb].
    rewrite (getitem_in_range _ _ b) by done. simpl.
    destruct b.
    + destruct (IH (i + 1)) as (i' & -> & ? & Hbelow & ?); [lia|lia|].
      exists i'. repeat split; [lia|lia| |done].
      intros j Hj. destruct (decide (j = i)) as [->|]; [done|].
      apply Hbelow. lia.
    + exists i. repeat split; [lia|lia| |done]. intros j ?. lia.
  - exists i. repeat split; [lia|lia| |lia]. intros j ?. lia.
Qed.

Lemma rchain_cons2 trans a b r :
  rchain trans (a :: b :: r) ↔ successor trans b = a ∧ rchain trans (b :: r).
Proof. done. Qed.

Lemma rchain_snoc trans l a b :
  rchain trans (l ++ [a]) → successor trans b = a → rchain trans (l ++ [a; b]).
Proof.
  intros Hl Hb. induction l as [|x l IH]; [by simpl|].
  destruct l as [|y l]; simpl in *; destruct Hl as [? Hl]; (split; [done|]);
    by apply IH.
Qed.

Lemma rchain_app_l trans l1 l2 : rchain trans (l1 ++ l2) → rchain trans l1.
Proof.
  induction l1 as [|x l1 IH]; [done|].
  destruct l1 as [|y l1]; simpl in *; intros [? Hch]; (split; [done|]);
    by apply IH.
Qed.

Lemma rchain_app_r trans l1 l2 : rchain trans (l1 ++ l2) → rchain trans l2.
Proof.
  induction l1 as [|x l1 IH]; simpl; [done|]. intros [_ Hch]. by apply IH.
Qed.

(** Along a path, every earlier entry (a later state) is reached from a
    later entry by iterating the successor. *)
Lemma rchain_reach trans l1 i l2 x :
  rchain trans (l1 ++ i :: l2) → x ∈ l1 ++ [i] →
  ∃ steps, (steps ≤ length l1)%nat ∧ Nat.iter steps (successor trans) i = x.
Proof.
  revert x. induction l1 as [|a l1 IH]; intros x Hch Hx.
  - apply list_elem_of_singleton in Hx as ->. by exists 0%nat.
  - simpl in Hx. apply elem_of_cons in Hx as [->|Hx].
    + destruct (IH (hd i (l1 ++ [i]))) as (steps & ? & Hsteps).
      { by destruct Hch. }
      { destruct l1; simpl; left. }
      exists (S steps). split; [simpl; lia|]. simpl. rewrite Hsteps.
      destruct l1; simpl in *; by destruct Hch.
    + destruct (IH x) as (steps & ? & ?); [by destruct Hch|done|].
      exists steps. split; [simpl; lia|done].
Qed.

Lemma take_through_elem t P :
  t ∈ P → ∃ l1 l2, P = l1 ++ t :: l2 ∧ (t ∉ l1) ∧ take_through t P = l1 ++ [t].
Proof.
  induction P as [|x P IH]; intros Ht; [by apply elem_of_nil in Ht|].
  simpl. destruct (Z.eqb_spec t x) as [->|Hne].
  - exists [], P. split_and!; [done| |done]. apply not_elem_of_nil.
  - apply elem_of_cons in Ht as [?|Ht]; [done|].
    destruct (IH Ht) as (l1 & l2 & -> & ? & ->).
    exists (x :: l1), l2. split_and!; [done| |done].
    apply not_elem_of_cons. done.
Qed.

(** Walking forward from the last state of a path that closes on itself
    retraces the path backwards. *)
Lemma forward_walk_rchain trans fuel t l x :
  rchain trans (l ++ [x]) → successor trans (hd x l) = t → t ∉ l →
  (length l < fuel)%nat →
  forward_walk fuel trans t x = x :: rev l.
Proof.
  revert fuel x. induction l as [|y l IH] using rev_ind; intros fuel x Hch Hhd Hni Hfuel.
  - destruct fuel; [simpl in Hfuel; lia|]. simpl in *.
    rewrite Hhd, Z.eqb_refl. done.
  - destruct fuel; [lia|]. rewrite length_app in Hfuel. simpl in *.
    assert (successor trans x = y) as Hxy.
    { rewrite <- app_assoc in Hch. apply rchain_app_r in Hch. by destruct Hch. }
    apply not_elem_of_app in Hni as [Hni Hty].
    apply not_elem_of_cons in Hty as [Hty _].
    rewrite Hxy. destruct (Z.eqb_spec y t) as [->|_]; [done|].
    rewrite rev_unit. f_equal. apply IH.
    + by apply rchain_app_l in Hch.
    + destruct l; done.
    + done.
    + lia.
Qed.

Lemma elem_of_rev {A : Type} (x : A) l : x ∈ rev l ↔ x ∈ l.
Proof. rewrite !list_elem_of_In. symmetry. apply in_rev. Qed.

(** The successor of a state on a path is the next state of the path or,
    for the head, the successor of the head. *)
Lemma rchain_successor trans state rest x :
  rchain trans (state :: rest) → x ∈ state :: rest →
  successor trans x = successor trans state ∨ successor trans x ∈ state :: rest.
Proof.
  revert state. induction rest as [|y rest IH]; intros state Hch Hx.
  - apply list_elem_of_singleton in Hx as ->. by left.
  - apply elem_of_cons in Hx as [->|Hx]; [by left|]. right.
    destruct Hch as [Hy Hch].
    destruct (IH y Hch Hx) as [->|?]; [rewrite Hy; left|by right].
Qed.

Ltac proj_vars :=
  cbn [visited basins basin_number attractors initial_state] in *.

Section decomposition.
Variable trans : list Z.
Hypothesis Hwf : wf_trans trans.

Lemma successor_lookup i :
  in_range (length trans) i → trans !! Z.to_nat i = Some (successor trans i).
Proof.
  intros Hi. destruct (lookup_in_range trans i Hi) as [x Hx].
  unfold successor. by rewrite Hx.
Qed.

Lemma successor_in_range i :
  in_range (length trans) i → in_range (length trans) (successor trans i).
Proof.
  intros Hi. pose proof (successor_lookup i Hi) as Hx.
  unfold wf_trans in Hwf. rewrite Forall_lookup in Hwf. by eapply Hwf.
Qed.

Lemma getitem_trans i :
  in_range (length trans) i → getitem trans i = Ok (successor trans i).
Proof. intros Hi. apply getitem_in_range, successor_lookup; done. Qed.

Lemma iter_in_range steps i :
  in_range (length trans) i →
  in_range (length trans) (Nat.iter steps (successor trans) i).
Proof.
  intros Hi. induction steps as [|steps IH]; [done|].
  simpl. by apply successor_in_range.
Qed.

(** The inner loop: from a path whose head is [state], the walk extends
    the path by fresh, pairwise distinct states [ext], marks them, and
    stops in front of a marked state. *)
Lemma walk_spec fuel vis state stack :
  length vis = length trans → in_range (length trans) state →
  (length trans < fuel + nvisited vis)%nat →
  ∃ ext state' rest,
    walk fuel trans vis state (successor trans state) stack
      = Ok (assign ext true vis, state', successor trans state', rest ++ stack)
    ∧ state' :: rest = ext ++ [state]
    ∧ rchain trans (ext ++ [state])
    ∧ Forall (in_range (length trans)) ext
    ∧ NoDup ext
    ∧ (∀ x, x ∈ ext → vis !! Z.to_nat x = Some false)
    ∧ assign ext true vis !! Z.to_nat (successor trans state') = Some true.
Proof.
  revert vis state stack.
  induction fuel as [|fuel IH]; intros vis state stack Hlen Hst Hfuel.
  { pose proof (nvisited_le vis). lia. }
  pose proof (successor_in_range _ Hst) as Hnx.
  assert (in_range (length vis) (successor trans state)) as Hnx' by by rewrite Hlen.
  destruct (lookup_in_range vis (successor trans state) Hnx') as [b Hb].
  simpl. rewrite (getitem_in_range _ _ b) by done. simpl.
  destruct b.
  { exists [], state, []. simpl.
    do 3 (split; [done|]). do 2 (split; [constructor|]). split; [|done].
    intros x Hx. by apply elem_of_nil in Hx. }
  rewrite getitem_trans by done. simpl.
  rewrite setitem_in_range by done. simpl.
  destruct (IH (<[Z.to_nat (successor trans state):=true]> vis)
              (successor trans state) (state :: stack))
    as (ext & state' & rest & -> & Hpath & Hch & Hr & Hnd & Hfresh & Hterm).
  { by rewrite length_insert. }
  { done. }
  { rewrite nvisited_insert by done. lia. }
  assert (∀ x, x ∈ ext → x ≠ successor trans state ∧ vis !! Z.to_nat x = Some false) as Hold.
  { intros x Hx. specialize (Hfresh x Hx).
    rewrite Forall_forall in Hr. specialize (Hr x Hx).
    destruct (decide (x = successor trans state)) as [->|Hne].
    - rewrite list_lookup_insert_eq in Hfresh; [done|].
      destruct Hnx'. lia.
    - split; [done|]. rewrite list_lookup_insert_ne in Hfresh; [done|].
      destruct Hr, Hnx. lia. }
  exists (ext ++ [successor trans state]), state', (rest ++ [state]).
  repeat apply conj.
  - rewrite assign_snoc. by rewrite <- app_assoc.
  - rewrite app_comm_cons, Hpath. done.
  - rewrite <- app_assoc. simpl. by apply rchain_snoc.
  - apply Forall_app. split; [done|]. by apply Forall_singleton.
  - apply NoDup_app. repeat apply conj; [done| |apply NoDup_singleton].
    intros x Hx Hx'. apply list_elem_of_singleton in Hx'.
    by destruct (Hold x Hx).
  - intros x Hx. apply elem_of_app in Hx as [Hx|Hx].
    + by destruct (Hold x Hx).
    + by apply list_elem_of_singleton in Hx as ->.
  - by rewrite assign_snoc.
Qed.
(** A state that has a basin: its basin is the position of a recorded
    cycle which the state reaches, and its successor has the same basin. *)
Definition settled (s : expound_vars) (i : Z) : Prop :=
  ∃ (b : nat) (c : list Z) (steps : nat),
    basins s !! Z.to_nat i = Some (Z.of_nat b)
    ∧ attractors s !! b = Some c
    ∧ (steps ≤ nvisited (visited s))%nat
    ∧ Nat.iter steps (successor trans) i ∈ c
    ∧ visited s !! Z.to_nat (successor trans i) = Some true
    ∧ basins s !! Z.to_nat (successor trans i) = Some (Z.of_nat b).

(** A recorded cycle at position [k]: a path, latest state first, that
    ends in a state [t] which is the successor of its first state; all
    its states have basin [k]. *)
Definition recorded (s : expound_vars) (k : nat) (c : list Z) : Prop :=
  (∃ l t, c = l ++ [t] ∧ (t ∉ l) ∧ successor trans (hd t c) = t)
  ∧ rchain trans c
  ∧ (length c ≤ nvisited (visited s))%nat
  ∧ (∀ x, x ∈ c →
      in_range (length trans) x
      ∧ visited s !! Z.to_nat x = Some true
      ∧ basins s !! Z.to_nat x = Some (Z.of_nat k)).

(** The invariant of the outer loop. *)
Record inv (s : expound_vars) : Prop := Inv {
  inv_len_v : length (visited s) = length trans;
  inv_len_b : length (basins s) = length trans;
  inv_i0 : 0 ≤ initial_state s ≤ Z.of_nat (length trans);
  inv_below : ∀ i, 0 ≤ i < initial_state s →
    visited s !! Z.to_nat i = Some true;
  inv_fresh : initial_state s < Z.of_nat (length trans) →
    visited s !! Z.to_nat (initial_state s) = Some false;
  inv_k : basin_number s = Z.of_nat (length (attractors s));
  inv_unvis : ∀ i, in_range (length trans) i →
    visited s !! Z.to_nat i = Some false → basins s !! Z.to_nat i = Some (-1);
  inv_vis : ∀ i, in_range (length trans) i →
    visited s !! Z.to_nat i = Some true → settled s i;
  inv_attr : ∀ k c, attractors s !! k = Some c → recorded s k c
}.

(** A path of so far unvisited states that starts at [initial_state]. *)
Definition fresh_path (s : expound_vars) (P : list Z) : Prop :=
  (∃ ext, P = ext ++ [initial_state s])
  ∧ rchain trans P
  ∧ Forall (in_range (length trans)) P
  ∧ NoDup P
  ∧ (∀ x, x ∈ P → visited s !! Z.to_nat x = Some false).

Lemma expound_walk_spec s :
  inv s → initial_state s < Z.of_nat (length trans) →
  ∃ state rest,
    expound_walk trans s
      = Ok (assign (state :: rest) true (visited s),
            state, successor trans state, rest)
    ∧ fresh_path s (state :: rest)
    ∧ assign (state :: rest) true (visited s)
        !! Z.to_nat (successor trans state) = Some true.
Proof.
  intros Hinv Hlt.
  assert (in_range (length trans) (initial_state s)) as Hi0.
  { destruct (inv_i0 s Hinv). split; lia. }
  pose proof (inv_fresh s Hinv Hlt) as Hfr.
  unfold expound_walk. rewrite getitem_trans by done. simpl.
  rewrite setitem_in_range by (by rewrite (inv_len_v s Hinv)). simpl.
  destruct (walk_spec (length (<[Z.to_nat (initial_state s):=true]> (visited s)))
              (<[Z.to_nat (initial_state s):=true]> (visited s))
              (initial_state s) [])
    as (ext & state & rest & Hw & Hpath & Hch & Hr & Hnd & Hfresh & Hterm).
  { rewrite length_insert. apply (inv_len_v s Hinv). }
  { done. }
  { rewrite nvisited_insert by done. rewrite length_insert, (inv_len_v s Hinv). lia. }
  assert (∀ x, x ∈ ext →
    x ≠ initial_state s ∧ visited s !! Z.to_nat x = Some false) as Hold.
  { intros x Hx. specialize (Hfresh x Hx).
    rewrite Forall_forall in Hr. specialize (Hr x Hx).
    destruct (decide (x = initial_state s)) as [->|Hne].
    - rewrite list_lookup_insert_eq in Hfresh; [done|].
      rewrite (inv_len_v s Hinv). destruct Hi0. lia.
    - split; [done|]. rewrite list_lookup_insert_ne in Hfresh; [done|].
      destruct Hr, Hi0. lia. }
  assert (assign ext true (<[Z.to_nat (initial_state s):=true]> (visited s))
          = assign (state :: rest) true (visited s)) as Hmark.
  { by rewrite Hpath, assign_snoc. }
  exists state, rest. rewrite Hw, app_nil_r, <- Hmark, Hpath.
  split; [done|]. split; [|done].
  repeat apply conj.
  - by exists ext.
  - done.
  - apply Forall_app. split; [done|]. by apply Forall_singleton.
  - apply NoDup_app. repeat apply conj; [done| |apply NoDup_singleton].
    intros x Hx Hx'. apply list_elem_of_singleton in Hx'.
    by destruct (Hold x Hx).
  - intros x Hx. apply elem_of_app in Hx as [Hx|Hx].
    + by destruct (Hold x Hx).
    + by apply list_elem_of_singleton in Hx as ->.
Qed.
(** The variables after an iteration whose path is [P] (latest state
    first), whose terminus is [t] and whose terminus had basin [b]. *)
Definition close_path (s : expound_vars) (P : list Z) (t b i0' : Z) : expound_vars :=
  if b =? -1
  then ExpoundVars (assign P true (visited s))
         (assign (rev P) (basin_number s) (basins s))
         (basin_number s + 1) (attractors s ++ [take_through t P]) i0'
  else ExpoundVars (assign P true (visited s))
         (assign (rev P) b (basins s))
         (basin_number s) (attractors s) i0'.

(** What the scan establishes about the next initial state. *)
Definition scanned (s : expound_vars) (vis : list bool) (i0' : Z) : Prop :=
  initial_state s ≤ i0' ≤ Z.of_nat (length trans)
  ∧ (∀ j, initial_state s ≤ j < i0' → vis !! Z.to_nat j = Some true)
  ∧ (i0' < Z.of_nat (length trans) → vis !! Z.to_nat i0' = Some false).

Lemma expound_body_eq s :
  inv s → initial_state s < Z.of_nat (length trans) →
  ∃ state rest b i0',
    expound_walk trans s
      = Ok (assign (state :: rest) true (visited s),
            state, successor trans state, rest)
    ∧ fresh_path s (state :: rest)
    ∧ assign (state :: rest) true (visited s)
        !! Z.to_nat (successor trans state) = Some true
    ∧ basins s !! Z.to_nat (successor trans state) = Some b
    ∧ scanned s (assign (state :: rest) true (visited s)) i0'
    ∧ expound_body trans s
      = Ok (close_path s (state :: rest) (successor trans state) b i0').
Proof.
  intros Hinv Hlt.
  destruct (expound_walk_spec s Hinv Hlt) as (state & rest & Hw & Hfp & Hterm).
  destruct Hfp as (Hext & Hch & Hr & Hnd & Hfresh).
  pose proof Hr as Hr'. rewrite Forall_cons in Hr'. destruct Hr' as [Hst Hrest].
  pose proof (successor_in_range _ Hst) as Ht.
  assert (in_range (length (basins s)) (successor trans state)) as Ht'
    by by rewrite (inv_len_b s Hinv).
  destruct (lookup_in_range _ _ Ht') as [b Hb].
  destruct (scan_spec (S (length (assign (state :: rest) true (visited s))))
              (assign (state :: rest) true (visited s)) (initial_state s))
    as (i0' & Hscan & Hsc).
  { rewrite length_assign, (inv_len_v s Hinv). pose proof (inv_i0 s Hinv). lia. }
  { lia. }
  rewrite length_assign, (inv_len_v s Hinv) in Hsc.
  exists state, rest, b, i0'.
  do 5 (split; [done|]).
  unfold expound_body. rewrite Hw. cbn [bind].
  rewrite (getitem_in_range _ _ b) by done. cbn [bind].
  unfold close_path. destruct (b =? -1).
  - rewrite setitem_in_range by (by rewrite (inv_len_b s Hinv)). cbn [bind].
    rewrite unwind_spec.
    2:{ rewrite length_insert, (inv_len_b s Hinv). done. }
    cbn [bind]. rewrite Hscan. cbn [bind]. rewrite <- assign_snoc.
    simpl. destruct (successor trans state =? state); done.
  - rewrite setitem_in_range by (by rewrite (inv_len_b s Hinv)). cbn [bind].
    rewrite unwind_spec.
    2:{ rewrite length_insert, (inv_len_b s Hinv). done. }
    cbn [bind]. rewrite Hscan. cbn [bind]. rewrite <- assign_snoc. done.
Qed.
Lemma fresh_path_nonneg s P : fresh_path s P → Forall (λ x, 0 ≤ x) P.
Proof.
  intros (_ & _ & Hr & _). eapply Forall_impl; [exact Hr|].
  intros x [??]. done.
Qed.

Lemma fresh_path_marked s P x :
  inv s → fresh_path s P → x ∈ P →
  assign P true (visited s) !! Z.to_nat x = Some true.
Proof.
  intros Hinv (_ & _ & Hr & _) Hx. apply lookup_assign_in; [done|].
  rewrite (inv_len_v s Hinv). rewrite Forall_forall in Hr. by apply Hr.
Qed.

Lemma fresh_path_unmarked s P i :
  fresh_path s P → 0 ≤ i → i ∉ P →
  assign P true (visited s) !! Z.to_nat i = visited s !! Z.to_nat i.
Proof.
  intros Hfp ??. apply lookup_assign_notin; [|done|done].
  by eapply fresh_path_nonneg.
Qed.

Lemma fresh_path_basin s P b x :
  inv s → fresh_path s P → x ∈ P →
  assign (rev P) b (basins s) !! Z.to_nat x = Some b.
Proof.
  intros Hinv (_ & _ & Hr & _) Hx. apply lookup_assign_in.
  - by apply elem_of_rev.
  - rewrite (inv_len_b s Hinv). rewrite Forall_forall in Hr. by apply Hr.
Qed.

Lemma fresh_path_basin_other s P b i :
  fresh_path s P → 0 ≤ i → i ∉ P →
  assign (rev P) b (basins s) !! Z.to_nat i = basins s !! Z.to_nat i.
Proof.
  intros Hfp ? Hi. apply lookup_assign_notin; [|done|].
  - apply Forall_forall. intros x Hx. rewrite elem_of_rev in Hx.
    pose proof (fresh_path_nonneg s P Hfp) as Hnn.
    rewrite Forall_forall in Hnn. by apply Hnn.
  - by rewrite elem_of_rev.
Qed.

Lemma fresh_path_nvisited s P :
  fresh_path s P →
  nvisited (assign P true (visited s)) = (nvisited (visited s) + length P)%nat.
Proof.
  intros Hfp. pose proof (fresh_path_nonneg s P Hfp).
  destruct Hfp as (_ & _ & _ & Hnd & Hfresh).
  by apply nvisited_assign.
Qed.

Lemma fresh_path_old s P i :
  fresh_path s P → visited s !! Z.to_nat i = Some true → i ∉ P.
Proof.
  intros (_ & _ & _ & _ & Hfresh) Hi Hin.
  specialize (Hfresh i Hin). congruence.
Qed.

(** One iteration keeps the invariant, whatever basin the path receives,
    as long as that basin is the position of a cycle every state of the
    path reaches. *)
Lemma inv_step s state rest basin k' attrs' i0' :
  inv s → fresh_path s (state :: rest) →
  assign (state :: rest) true (visited s)
    !! Z.to_nat (successor trans state) = Some true →
  scanned s (assign (state :: rest) true (visited s)) i0' →
  k' = Z.of_nat (length attrs') →
  (∀ k c, attractors s !! k = Some c → attrs' !! k = Some c) →
  (∃ (bn : nat) c, basin = Z.of_nat bn ∧ attrs' !! bn = Some c
    ∧ ∀ x, x ∈ state :: rest →
        ∃ steps, (steps ≤ nvisited (visited s) + length (state :: rest))%nat
                 ∧ Nat.iter steps (successor trans) x ∈ c) →
  assign (rev (state :: rest)) basin (basins s)
    !! Z.to_nat (successor trans state) = Some basin →
  (∀ k c, attrs' !! k = Some c → attractors s !! k = None →
     recorded (ExpoundVars (assign (state :: rest) true (visited s))
                 (assign (rev (state :: rest)) basin (basins s))
                 k' attrs' i0') k c) →
  inv (ExpoundVars (assign (state :: rest) true (visited s))
         (assign (rev (state :: rest)) basin (basins s)) k' attrs' i0').
Proof.
  intros Hinv Hfp Hterm (Hi0' & Hsc_below & Hsc_fresh) Hk' Hpre
    (bn & cyc & Hbn & Hcyc & Hreach) Hbt Hnew.
  pose proof (fresh_path_nvisited s _ Hfp) as Hnv.
  pose proof (inv_i0 s Hinv) as Hi0.
  assert (∀ x, x ∈ state :: rest → in_range (length trans) x) as HP.
  { destruct Hfp as (_ & _ & Hr & _). by rewrite Forall_forall in Hr. }
  constructor; proj_vars.
  - by rewrite length_assign, (inv_len_v s Hinv).
  - by rewrite length_assign, (inv_len_b s Hinv).
  - lia.
  - intros i Hi. destruct (decide (i < initial_state s)).
    + apply lookup_assign_true. apply (inv_below s Hinv). lia.
    + apply Hsc_below. lia.
  - done.
  - done.
  - intros i Hi Hifalse.
    assert (i ∉ state :: rest) as Hni.
    { intros Hin. rewrite (fresh_path_marked s _ i) in Hifalse; done. }
    destruct Hi as [Hi1 Hi2].
    rewrite fresh_path_unmarked in Hifalse by done.
    rewrite fresh_path_basin_other by done.
    apply (inv_unvis s Hinv); done.
  - intros i Hi Hitrue. unfold settled; proj_vars.
    destruct (decide (i ∈ state :: rest)) as [Hin|Hni].
    + destruct (Hreach i Hin) as (steps & Hsteps & Hit).
      exists bn, cyc, steps. rewrite <- Hbn.
      split_and!; [by apply fresh_path_basin|done|lia|done| |].
      * destruct (rchain_successor trans state rest i) as [->|Hs]; [apply Hfp|done|done|].
        by apply fresh_path_marked.
      * destruct (rchain_successor trans state rest i) as [->|Hs]; [apply Hfp|done|done|].
        by apply fresh_path_basin.
    + destruct Hi as [Hi1 Hi2].
      rewrite fresh_path_unmarked in Hitrue by done.
      destruct (inv_vis s Hinv i) as (b & c & steps & Hb & Hc & Hsteps & Hit & Hsv & Hsb);
        [done|done|].
      exists b, c, steps.
      pose proof (successor_in_range i (conj Hi1 Hi2)) as [??].
      split_and!.
      * by rewrite fresh_path_basin_other.
      * by apply Hpre.
      * lia.
      * done.
      * by apply lookup_assign_true.
      * rewrite fresh_path_basin_other; [done|done|done|].
        by eapply fresh_path_old.
  - intros k c Hc. destruct (attractors s !! k) as [c0|] eqn:Hc0; [|by apply Hnew].
    pose proof (Hpre k c0 Hc0) as Hc'. rewrite Hc in Hc'. injection Hc' as <-.
    destruct (inv_attr s Hinv k c Hc0) as (Hstruct & Hch & Hlen & Hmem).
    split_and!; [done|done|proj_vars; lia|].
    intros x Hx. destruct (Hmem x Hx) as (Hxr & Hxv & Hxb). proj_vars.
    split_and!; [done|by apply lookup_assign_true|].
    rewrite fresh_path_basin_other; [done|done|by destruct Hxr|].
    by eapply fresh_path_old.
Qed.
(** The terminus of a path is on the path exactly when it has no basin
    yet. *)
Lemma terminus_on_path s state rest :
  inv s → fresh_path s (state :: rest) →
  assign (state :: rest) true (visited s)
    !! Z.to_nat (successor trans state) = Some true →
  basins s !! Z.to_nat (successor trans state) = Some (-1) →
  successor trans state ∈ state :: rest.
Proof.
  intros Hinv Hfp Hterm Hb.
  destruct (decide (successor trans state ∈ state :: rest)) as [|Hni]; [done|].
  assert (in_range (length trans) state) as Hst.
  { destruct Hfp as (_ & _ & Hr & _). rewrite Forall_forall in Hr.
    apply Hr. left. }
  pose proof (successor_in_range _ Hst) as Ht.
  rewrite fresh_path_unmarked in Hterm; [|done|by destruct Ht|done].
  destruct (inv_vis s Hinv _ Ht Hterm) as (bn & ? & ? & Hbn & _).
  rewrite Hb in Hbn. injection Hbn as Hbn. lia.
Qed.

Lemma terminus_off_path s state rest b :
  inv s → fresh_path s (state :: rest) →
  basins s !! Z.to_nat (successor trans state) = Some b → b ≠ -1 →
  visited s !! Z.to_nat (successor trans state) = Some true.
Proof.
  intros Hinv Hfp Hb Hne.
  assert (in_range (length trans) state) as Hst.
  { destruct Hfp as (_ & _ & Hr & _). rewrite Forall_forall in Hr.
    apply Hr. left. }
  pose proof (successor_in_range _ Hst) as Ht.
  assert (in_range (length (visited s)) (successor trans state)) as Ht'
    by by rewrite (inv_len_v s Hinv).
  destruct (lookup_in_range _ _ Ht') as [[] Hv]; [done|].
  pose proof (inv_unvis s Hinv _ Ht Hv). congruence.
Qed.

Lemma inv_close s state rest b i0' :
  inv s → fresh_path s (state :: rest) →
  assign (state :: rest) true (visited s)
    !! Z.to_nat (successor trans state) = Some true →
  basins s !! Z.to_nat (successor trans state) = Some b →
  scanned s (assign (state :: rest) true (visited s)) i0' →
  inv (close_path s (state :: rest) (successor trans state) b i0').
Proof.
  intros Hinv Hfp Hterm Hb Hsc. unfold close_path.
  pose proof Hfp as (_ & Hch & Hr & Hnd & Hfresh).
  rewrite Forall_forall in Hr.
  pose proof (fresh_path_nvisited s _ Hfp) as Hnv.
  destruct (Z.eqb_spec b (-1)) as [->|Hne].
  - (* the path closes a new cycle *)
    pose proof (terminus_on_path s state rest Hinv Hfp Hterm Hb) as Hin.
    destruct (take_through_elem _ _ Hin) as (l1 & l2 & HP & Hni & Htt).
    apply inv_step; try done.
    + rewrite length_app, (inv_k s Hinv). simpl. lia.
    + intros k c Hc. by apply lookup_app_l_Some.
    + exists (length (attractors s)), (take_through (successor trans state) (state :: rest)).
      split_and!; [apply (inv_k s Hinv)|apply list_lookup_middle; done|].
      intros x Hx. rewrite Htt. rewrite HP in Hx.
      rewrite (assoc_L (++) l1 [_] l2 : l1 ++ _ :: l2 = (l1 ++ [_]) ++ l2) in Hx.
      apply elem_of_app in Hx as [Hx|Hx].
      { exists 0%nat. split; [lia|done]. }
      apply list_elem_of_split in Hx as (l2a & l2b & ->).
      destruct (rchain_reach trans (l1 ++ successor trans state :: l2a) x l2b
                  (successor trans state)) as (steps & Hsteps & Hit).
      { rewrite <- app_assoc. simpl. by rewrite <- HP. }
      { rewrite <- app_assoc. simpl. apply elem_of_app. right. left. }
      exists steps. rewrite Hit. split.
      * rewrite HP. rewrite !length_app in *. simpl in *. rewrite length_app. simpl. lia.
      * apply elem_of_app. right. left.
    + by apply fresh_path_basin.
    + intros k c Hc Hnone.
      apply lookup_app_Some in Hc as [Hc|[Hge Hc]]; [congruence|].
      apply list_lookup_singleton_Some in Hc as [Hk <-].
      assert (k = length (attractors s)) as -> by lia.
      rewrite Htt. split_and!.
      * exists l1, (successor trans state). split_and!; [done|done|].
        assert (hd (successor trans state) (l1 ++ [successor trans state]) = state)
          as ->; [|done].
        clear -HP. destruct l1; simpl in HP |- *; by injection HP.
      * rewrite HP in Hch.
        rewrite (assoc_L (++) l1 [_] l2 : l1 ++ _ :: l2 = (l1 ++ [_]) ++ l2) in Hch.
        by apply rchain_app_l in Hch.
      * proj_vars. rewrite Hnv, HP, !length_app. simpl. lia.
      * intros x Hx. proj_vars.
        assert (x ∈ state :: rest) as Hx'.
        { rewrite HP. apply elem_of_app in Hx as [?|Hx]; apply elem_of_app; [by left|].
          right. apply list_elem_of_singleton in Hx as ->. left. }
        split_and!; [by apply Hr|by apply fresh_path_marked|].
        rewrite <- (inv_k s Hinv). by apply fresh_path_basin.
  - (* the path runs into an earlier basin *)
    pose proof (terminus_off_path s state rest b Hinv Hfp Hb Hne) as Hold.
    assert (in_range (length trans) (successor trans state)) as Ht.
    { apply successor_in_range, Hr. left. }
    destruct (inv_vis s Hinv _ Ht Hold) as (bn & c & steps & Hbn & Hc & Hsteps & Hit & _).
    assert (b = Z.of_nat bn) as -> by congruence.
    apply inv_step; try done.
    + apply (inv_k s Hinv).
    + exists bn, c. split_and!; [done|done|].
      intros x Hx. apply list_elem_of_split in Hx as (l1 & l2 & HP).
      destruct (rchain_reach trans l1 x l2 state) as (steps1 & Hsteps1 & Hit1).
      { by rewrite <- HP. }
      { destruct l1; simpl in HP; injection HP as -> _; [left|left]. }
      exists (steps + S steps1)%nat. split.
      * rewrite HP, length_app. simpl. lia.
      * rewrite Nat.iter_add. simpl. by rewrite Hit1.
    + rewrite fresh_path_basin_other; [done|done|by destruct Ht|].
      by eapply fresh_path_old.
    + intros k c' Hc' Hnone. congruence.
Qed.

Lemma expound_body_spec s :
  inv s → initial_state s < Z.of_nat (length trans) →
  ∃ s', expound_body trans s = Ok s' ∧ inv s'
    ∧ (nvisited (visited s) < nvisited (visited s'))%nat.
Proof.
  intros Hinv Hlt.
  destruct (expound_body_eq s Hinv Hlt)
    as (state & rest & b & i0' & _ & Hfp & Hterm & Hb & Hsc & ->).
  eexists. split; [done|]. split; [by apply inv_close|].
  pose proof (fresh_path_nvisited s _ Hfp) as Hnv.
  unfold close_path. destruct (b =? -1); proj_vars; rewrite Hnv; simpl; lia.
Qed.
Lemma inv_init : inv (expound_init (Z.of_nat (length trans))).
Proof.
  unfold expound_init. rewrite Nat2Z.id.
  constructor; proj_vars.
  - apply length_replicate.
  - apply length_replicate.
  - lia.
  - intros i ?. lia.
  - intros ?. apply lookup_replicate_2. lia.
  - done.
  - intros i [??] _. apply lookup_replicate_2. lia.
  - intros i _ Hi. apply lookup_replicate in Hi as [? _]. done.
  - intros k c Hc. by rewrite lookup_nil in Hc.
Qed.

(** The outer loop terminates within its fuel, with the invariant and
    every state visited. *)
Lemma expound_loop_spec fuel s :
  inv s → (length trans < fuel + nvisited (visited s))%nat →
  ∃ s', expound_loop fuel trans s = Ok s' ∧ inv s'
    ∧ initial_state s' = Z.of_nat (length trans).
Proof.
  revert s. induction fuel as [|fuel IH]; intros s Hinv Hfuel.
  { pose proof (nvisited_le (visited s)). rewrite (inv_len_v s Hinv) in *. lia. }
  simpl. case_bool_decide as Hlt.
  - destruct (expound_body_spec s Hinv Hlt) as (s1 & -> & Hinv1 & Hnv).
    cbn [bind]. apply IH; [done|lia].
  - exists s. split; [done|]. split; [done|].
    pose proof (inv_i0 s Hinv). lia.
Qed.

(** The variables at the head of the outer loop, at any point of the
    decomposition. *)
Inductive reachable : expound_vars → Prop :=
| reachable_init : reachable (expound_init (Z.of_nat (length trans)))
| reachable_step s s' :
    reachable s → initial_state s < Z.of_nat (length trans) →
    expound_body trans s = Ok s' → reachable s'.

Lemma reachable_inv s : reachable s → inv s.
Proof.
  induction 1 as [|s s' _ IH Hlt Hbody]; [apply inv_init|].
  destruct (expound_body_spec s IH Hlt) as (s1 & Hs1 & Hinv1 & _).
  congruence.
Qed.

(** The cycle an iteration records is the forward walk from the terminus,
    reversed. *)
Lemma new_cycle_forward s state rest :
  inv s → fresh_path s (state :: rest) →
  successor trans state ∈ state :: rest →
  take_through (successor trans state) (state :: rest)
  = rev (forward_cycle trans (successor trans state)).
Proof.
  intros Hinv Hfp Hin.
  pose proof (fresh_path_nvisited s _ Hfp) as Hnv.
  pose proof (nvisited_le (assign (state :: rest) true (visited s))) as Hle.
  rewrite length_assign, (inv_len_v s Hinv) in Hle.
  destruct Hfp as (_ & Hch & _).
  destruct (take_through_elem _ _ Hin) as (l1 & l2 & HP & Hni & ->).
  unfold forward_cycle.
  rewrite (forward_walk_rchain trans _ _ l1).
  - simpl. by rewrite rev_involutive.
  - rewrite HP in Hch.
    rewrite (assoc_L (++) l1 [_] l2 : l1 ++ _ :: l2 = (l1 ++ [_]) ++ l2) in Hch.
    by apply rchain_app_l in Hch.
  - assert (hd (successor trans state) l1 = state) as ->; [|done].
    clear -HP. destruct l1; simpl in HP |- *; by injection HP.
  - done.
  - rewrite Hnv in Hle. rewrite HP, length_app in Hle. simpl in Hle. lia.
Qed.
End decomposition.

(** The decomposition of a well-formed transitions array returns, and its
    final variables satisfy the invariant with every state visited. *)
Lemma expound_final trans :
  wf_trans trans →
  ∃ s, expound (Z.of_nat (length trans)) trans = Ok (basins s, attractors s)
    ∧ inv trans s
    ∧ ∀ i, in_range (length trans) i → settled trans s i.
Proof.
  intros Hwf. unfold expound.
  destruct (expound_loop_spec trans Hwf (S (Z.to_nat (Z.of_nat (length trans))))
              (expound_init (Z.of_nat (length trans))))
    as (s & -> & Hinv & Hi0).
  { by apply inv_init. }
  { rewrite Nat2Z.id. lia. }
  exists s. split; [done|]. split; [done|].
  intros i Hi. apply (inv_vis trans s Hinv i Hi).
  apply (inv_below trans s Hinv). destruct Hi. lia.
Qed.

(** The basin id is constant along the orbit of a state. *)
Lemma settled_iter trans s i steps :
  wf_trans trans →
  (∀ i, in_range (length trans) i → settled trans s i) →
  in_range (length trans) i →
  basins s !! Z.to_nat (Nat.iter steps (successor trans) i)
  = basins s !! Z.to_nat i.
Proof.
  intros Hwf Hall Hi. induction steps as [|steps IH]; [done|].
  simpl. rewrite <- IH.
  destruct (Hall (Nat.iter steps (successor trans) i))
    as (b & c & st & Hb & _ & _ & _ & _ & Hsb).
  { by apply iter_in_range. }
  by rewrite Hb, Hsb.
Qed.

(** The sizes of the basins [0 .. k-1] of a [basins] array. *)
Definition basin_size (basins : list Z) (b : Z) : nat :=
  count_occ Z.eq_dec basins b.

Definition basin_sizes (basins : list Z) (k : nat) : list nat :=
  (λ b, basin_size basins (Z.of_nat b)) <$> seq 0 k.

Lemma sum_indicator (x : Z) (k : nat) :
  sum_list ((λ b : nat, if Z.eq_dec x (Z.of_nat b) then 1 else 0)%nat <$> seq 0 k)
  = if bool_decide (0 ≤ x < Z.of_nat k) then 1%nat else 0%nat.
Proof.
  induction k as [|k IH].
  { simpl. rewrite bool_decide_eq_false_2; [done|lia]. }
  rewrite seq_S, fmap_app, sum_list_with_app, IH. simpl.
  destruct (Z.eq_dec x (Z.of_nat k)) as [->|Hne].
  - rewrite bool_decide_eq_false_2 by lia.
    rewrite bool_decide_eq_true_2 by lia. done.
  - case_bool_decide; case_bool_decide; lia.
Qed.

Lemma sum_count_nil (bs : list nat) :
  sum_list ((λ b, count_occ Z.eq_dec [] (Z.of_nat b)) <$> bs) = 0%nat.
Proof. induction bs as [|b bs IH]; simpl; [done|]. exact IH. Qed.

Lemma sum_count_cons x l (bs : list nat) :
  sum_list ((λ b, count_occ Z.eq_dec (x :: l) (Z.of_nat b)) <$> bs)
  = (sum_list ((λ b : nat, if Z.eq_dec x (Z.of_nat b) then 1 else 0)%nat <$> bs)
     + sum_list ((λ b, count_occ Z.eq_dec l (Z.of_nat b)) <$> bs))%nat.
Proof.
  induction bs as [|b bs IH]; [done|].
  rewrite !fmap_cons. cbn [sum_list_with id]. rewrite IH.
  cbn [count_occ]. destruct (Z.eq_dec x (Z.of_nat b)); lia.
Qed.

Lemma sum_basin_sizes (basins : list Z) (k : nat) :
  Forall (λ x, 0 ≤ x < Z.of_nat k) basins →
  sum_list (basin_sizes basins k) = length basins.
Proof.
  unfold basin_sizes, basin_size.
  induction 1 as [|x l Hx _ IH].
  { apply sum_count_nil. }
  rewrite sum_count_cons, IH, sum_indicator.
  rewrite bool_decide_eq_true_2 by done. done.
Qed.

(** A recorded cycle is closed under the successor. *)
Lemma recorded_closed trans s k c x :
  recorded trans s k c → x ∈ c → successor trans x ∈ c.
Proof.
  intros ((l & t & Hc & _ & Hhd) & Hch & _) Hx.
  assert (t ∈ c) as Ht.
  { rewrite Hc. apply elem_of_app. right. left. }
  destruct c as [|h r]; [by apply elem_of_nil in Hx|].
  destruct (rchain_successor trans h r x Hch Hx) as [Heq|?]; [|done].
  simpl in Hhd. by rewrite Heq, Hhd.
Qed.

(** C2. After the decomposition of a well-formed transitions array, the
    array [basins] has one cell per state, every cell holds an id in
    [0 .. k-1] where [k] is the number of recorded attractor cycles, every
    id of [0 .. k-1] occurs in the array, and the sizes of the basins
    [0 .. k-1] sum to [volume]. *)
Theorem basins_dense_partition trans :
  wf_trans trans →
  ∃ bas attrs,
    expound (Z.of_nat (length trans)) trans = Ok (bas, attrs)
    ∧ length bas = length trans
    ∧ (∀ i, in_range (length trans) i →
         ∃ b, bas !! Z.to_nat i = Some b ∧ 0 ≤ b < Z.of_nat (length attrs))
    ∧ (∀ b, b ∈ bas ↔ 0 ≤ b < Z.of_nat (length attrs))
    ∧ sum_list (basin_sizes bas (length attrs)) = length trans.
Proof.
  intros Hwf. destruct (expound_final trans Hwf) as (s & Hs & Hinv & Hall).
  exists (basins s), (attractors s). split; [done|].
  pose proof (inv_len_b trans s Hinv) as Hlen.
  assert (∀ i, in_range (length trans) i →
    ∃ b, basins s !! Z.to_nat i = Some b
         ∧ 0 ≤ b < Z.of_nat (length (attractors s))) as Hcell.
  { intros i Hi. destruct (Hall i Hi) as (b & c & _ & Hb & Hc & _).
    exists (Z.of_nat b). split; [done|].
    apply lookup_lt_Some in Hc. lia. }
  assert (Forall (λ x, 0 ≤ x < Z.of_nat (length (attractors s))) (basins s))
    as Hids.
  { apply Forall_lookup. intros j x Hj.
    pose proof (lookup_lt_Some _ _ _ Hj) as Hlt.
    destruct (Hcell (Z.of_nat j)) as (b & Hb & Hrange).
    { unfold in_range. lia. }
    rewrite Nat2Z.id in Hb. congruence. }
  split_and!; [done|done| |].
  - intros b. split.
    + intros Hb. rewrite Forall_forall in Hids. by apply Hids.
    + intros Hb.
      destruct (lookup_lt_is_Some_2 (attractors s) (Z.to_nat b)) as [c Hc]; [lia|].
      destruct (inv_attr trans s Hinv _ c Hc) as ((l & t & -> & _) & _ & _ & Hmem).
      destruct (Hmem t) as (_ & _ & Ht).
      { apply elem_of_app. right. left. }
      rewrite Z2Nat.id in Ht by lia.
      by eapply list_elem_of_lookup_2.
  - rewrite sum_basin_sizes by done. done.
Qed.

Lemma basins_dense_partition_witness :
  ∃ bas attrs,
    expound 4 [1; 3; 3; 3] = Ok (bas, attrs)
    ∧ length bas = 4%nat
    ∧ (∀ i, in_range 4 i →
         ∃ b, bas !! Z.to_nat i = Some b ∧ 0 ≤ b < Z.of_nat (length attrs))
    ∧ (∀ b, b ∈ bas ↔ 0 ≤ b < Z.of_nat (length attrs))
    ∧ sum_list (basin_sizes bas (length attrs)) = 4%nat.
Proof.
  apply (basins_dense_partition [1; 3; 3; 3]).
  unfold wf_trans, in_range. simpl. repeat constructor; lia.
Defined.

(** What an iteration that closes a new cycle records, as a statement
    about the variables [s] at the head of the outer loop: whenever the
    walk ends in front of a terminus without a basin, the iteration
    appends one cycle, which is [order] applied to the forward walk from
    the terminus. *)
Definition records_cycle (order : list Z → list Z) (trans : list Z)
    (s : expound_vars) : Prop :=
  ∀ vis state terminus stack,
    expound_walk trans s = Ok (vis, state, terminus, stack) →
    getitem (basins s) terminus = Ok (-1) →
    ∃ s', expound_body trans s = Ok s'
      ∧ basin_number s' = basin_number s + 1
      ∧ attractors s' = attractors s ++ [order (forward_cycle trans terminus)].

(** C3, as stated, fails: on the three-cycle 0 -> 1 -> 2 -> 0 the first
    iteration ends at terminus 0 and records [2; 1; 0], while the walk
    forward from the terminus is [0; 1; 2]. *)
Lemma recorded_cycle_not_forward :
  wf_trans [1; 2; 0]
  ∧ reachable [1; 2; 0] (expound_init 3)
  ∧ expound_body [1; 2; 0] (expound_init 3)
    = Ok (ExpoundVars [true; true; true] [0; 0; 0] 1 [[2; 1; 0]] 3)
  ∧ forward_cycle [1; 2; 0] 0 = [0; 1; 2]
  ∧ ¬ records_cycle (λ c, c) [1; 2; 0] (expound_init 3).
Proof.
  split_and!.
  - unfold wf_trans, in_range. simpl. repeat constructor; lia.
  - apply (reachable_init [1; 2; 0]).
  - vm_compute. reflexivity.
  - vm_compute. reflexivity.
  - intros H.
    destruct (H [true; true; true] 2 0 [1; 0]) as (s' & Hs' & _ & Hattr).
    + vm_compute. reflexivity.
    + vm_compute. reflexivity.
    + vm_compute in Hs'. injection Hs' as <-. vm_compute in Hattr. discriminate.
Qed.

(** C3, amended. At every point of the decomposition of a well-formed
    transitions array, an iteration whose walk ends in front of a visited
    terminus without a basin opens one new basin and records exactly one
    cycle: the states of the cycle through the terminus in the order in
    which they are popped from the path, which is the reverse of the walk
    forward from the terminus (it starts at the predecessor of the
    terminus and ends at the terminus). *)
Theorem new_cycle_is_reversed_forward_walk trans s :
  wf_trans trans → reachable trans s → records_cycle (@rev Z) trans s.
Proof.
  intros Hwf Hreach vis state terminus stack Hwalk Hbasin.
  pose proof (reachable_inv trans Hwf s Hreach) as Hinv.
  destruct (decide (initial_state s < Z.of_nat (length trans))) as [Hlt|Hge].
  2:{ unfold expound_walk, getitem, norm_index in Hwalk.
      pose proof (inv_i0 trans s Hinv).
      rewrite bool_decide_eq_false_2 in Hwalk by lia.
      rewrite bool_decide_eq_false_2 in Hwalk by lia. done. }
  destruct (expound_body_eq trans Hwf s Hinv Hlt)
    as (state0 & rest & b & i0' & Hw & Hfp & Hterm & Hb & Hsc & Hbody).
  rewrite Hwalk in Hw. injection Hw as -> -> -> ->.
  assert (b = -1) as ->.
  { assert (in_range (length (basins s)) (successor trans state0)) as Hr.
    { rewrite (inv_len_b trans s Hinv). apply successor_in_range; [done|].
      destruct Hfp as (_ & _ & Hr & _). rewrite Forall_forall in Hr.
      apply Hr. left. }
    rewrite (getitem_in_range _ _ b Hr Hb) in Hbasin. congruence. }
  eexists. split; [exact Hbody|].
  unfold close_path. simpl. split; [done|].
  do 2 f_equal.
  apply (new_cycle_forward trans s); [done|done|].
  by apply (terminus_on_path trans Hwf s).
Qed.

Lemma new_cycle_is_reversed_forward_walk_witness :
  records_cycle (@rev Z) [1; 2; 0] (expound_init 3).
Proof.
  apply (new_cycle_is_reversed_forward_walk [1; 2; 0]).
  - unfold wf_trans, in_range. simpl. repeat constructor; lia.
  - apply (reachable_init [1; 2; 0]).
Defined.

(** C4. On the transitions [1, 3, 3, 3] the decomposition yields the
    basins array [0, 0, 0, 0], one basin that holds all four states, and
    the single attractor cycle [3]. *)
Theorem scenario1_decomposition :
  expound 4 [1; 3; 3; 3] = Ok ([0; 0; 0; 0], [[3]])
  ∧ basin_sizes [0; 0; 0; 0] 1 = [4%nat].
Proof. split; vm_compute; reflexivity. Qed.

(* ================================================================= *)
(** ** Trajectories *)

(** The first [k] states of the orbit of [i]. *)
Definition orbit (trans : list Z) (i : Z) (k : nat) : list Z :=
  (λ j, Nat.iter j (successor trans) i) <$> seq 0 k.

Global Arguments orbit : simpl never.

Lemma orbit_S trans i k :
  orbit trans i (S k) = i :: orbit trans (successor trans i) k.
Proof.
  unfold orbit. rewrite <- cons_seq, fmap_cons. f_equal.
  rewrite <- fmap_S_seq, <- list_fmap_compose.
  apply list_fmap_ext. intros _ j _. unfold compose.
  by rewrite Nat.iter_succ_r.
Qed.

Lemma orbit_snoc trans i k :
  orbit trans i (S k) = orbit trans i k ++ [Nat.iter k (successor trans) i].
Proof. unfold orbit. by rewrite seq_S, fmap_app. Qed.

Lemma length_orbit trans i k : length (orbit trans i k) = k.
Proof. unfold orbit. by rewrite length_fmap, length_seq. Qed.

Lemma orbit_in_range trans i k :
  wf_trans trans → in_range (length trans) i →
  Forall (in_range (length trans)) (orbit trans i k).
Proof.
  intros Hwf Hi. apply Forall_fmap, Forall_forall. intros j _. simpl.
  by apply iter_in_range.
Qed.

(** Pairwise distinct indices of an array are at most as many as its
    cells. *)
Lemma NoDup_in_range_length n (l : list Z) :
  NoDup l → Forall (in_range n) l → (length l ≤ n)%nat.
Proof.
  intros Hnd Hr.
  assert (length (Z.to_nat <$> l) ≤ length (seq 0 n))%nat as Hle.
  { apply submseteq_length, NoDup_submseteq.
    - apply NoDup_fmap_2_strong; [|done].
      intros x y Hx Hy Heq. rewrite Forall_forall in Hr.
      destruct (Hr x Hx), (Hr y Hy). lia.
    - intros k Hk. apply list_elem_of_fmap in Hk as (x & -> & Hx).
      rewrite Forall_forall in Hr. destruct (Hr x Hx).
      apply elem_of_seq. lia. }
  by rewrite length_fmap, length_seq in Hle.
Qed.

Lemma until_repeat_spec trans fuel junk q state :
  wf_trans trans →
  Forall (λ x, ¬ in_range (length trans) x) junk →
  Forall (in_range (length trans)) q → NoDup q →
  in_range (length trans) state →
  (length trans < fuel + length q)%nat →
  ∃ ext,
    until_repeat fuel trans (junk ++ q) state = Ok (junk ++ q ++ ext)
    ∧ ext = orbit trans state (length ext)
    ∧ NoDup (q ++ ext)
    ∧ Nat.iter (length ext) (successor trans) state ∈ q ++ ext.
Proof.
  intros Hwf Hjunk. revert q state.
  induction fuel as [|fuel IH]; intros q state Hq Hnd Hst Hfuel.
  { pose proof (NoDup_in_range_length _ _ Hnd Hq). lia. }
  simpl. case_bool_decide as Hin.
  - exists []. rewrite !app_nil_r. split_and!; [done|done|done|].
    apply elem_of_app in Hin as [Hin|Hin]; [|done].
    rewrite Forall_forall in Hjunk. by destruct (Hjunk _ Hin).
  - rewrite getitem_trans by done. cbn [bind].
    destruct (IH (q ++ [state]) (successor trans state))
      as (ext & Hrun & Hext & Hnd' & Hstop).
    + apply Forall_app. split; [done|]. by apply Forall_singleton.
    + apply NoDup_app. split_and!; [done| |apply NoDup_singleton].
      intros x Hx Hx'. apply list_elem_of_singleton in Hx' as ->.
      apply Hin. apply elem_of_app. by right.
    + by apply successor_in_range.
    + rewrite length_app. simpl. lia.
    + exists (state :: ext). rewrite <- !app_assoc in *. simpl in *.
      split_and!; [done| |done|].
      * rewrite orbit_S. by f_equal.
      * change (successor trans (Nat.iter (length ext) (successor trans) state))
          with (Nat.iter (S (length ext)) (successor trans) state).
        by rewrite Nat.iter_succ_r.
Qed.

Lemma fill_path_spec trans init y d rem :
  wf_trans trans → getitem trans init = Ok y → in_range (length trans) y →
  fill_path trans (seq (S d) rem)
    ((init :: orbit trans y d) ++ replicate rem init)
  = Ok (init :: orbit trans y (d + rem)).
Proof.
  intros Hwf Hinit Hy. revert d.
  induction rem as [|rem IH]; intros d.
  { simpl. by rewrite app_nil_r, Nat.add_0_r. }
  cbn [seq fill_path].
  assert (∃ prev, ((init :: orbit trans y d) ++ replicate (S rem) init) !! d
                  = Some prev
            ∧ getitem trans prev = Ok (Nat.iter d (successor trans) y))
    as (prev & Hprev & Hnext).
  { destruct d as [|d].
    - exists init. done.
    - exists (Nat.iter d (successor trans) y). split.
      + rewrite orbit_snoc. simpl. rewrite <- app_assoc.
        rewrite lookup_app_r by (by rewrite length_orbit).
        by rewrite length_orbit, Nat.sub_diag.
      + rewrite getitem_trans; try done. by apply iter_in_range. }
  rewrite (getitem_in_range _ _ prev).
  2:{ unfold in_range. rewrite length_app, length_replicate. simpl.
      rewrite length_orbit. lia. }
  2:{ replace (Z.to_nat (Z.of_nat (S d) - 1)) with d by lia. done. }
  cbn [bind]. rewrite Hnext. cbn [bind].
  rewrite setitem_in_range.
  2:{ unfold in_range. rewrite length_app, length_replicate. simpl.
      rewrite length_orbit. lia. }
  cbn [bind]. rewrite Nat2Z.id.
  replace (<[S d:=Nat.iter d (successor trans) y]>
             ((init :: orbit trans y d) ++ replicate (S rem) init))
    with ((init :: orbit trans y (S d)) ++ replicate rem init).
  - rewrite IH. do 3 f_equal. lia.
  - rewrite orbit_snoc.
    rewrite insert_app_r_alt by (simpl; rewrite length_orbit; lia).
    cbn [length]. rewrite length_orbit.
    replace (S d - S d)%nat with 0%nat by lia.
    cbn [replicate].
    change (<[0%nat:=?x]> (?y :: ?l)) with (x :: l).
    by rewrite app_comm_cons, <- app_assoc.
Qed.

(** *** The state space *)

Lemma encode_digits_range bs v :
  in_bases bs v = true → 0 ≤ encode_digits bs v < foldr Z.mul 1 bs.
Proof.
  revert v. induction bs as [|b bs IH]; intros [|x v] Hv; simpl in *; try done.
  apply andb_prop in Hv as [Hx Hv]. apply andb_prop in Hx as [Hx0 Hxb].
  specialize (IH v Hv). nia.
Qed.

Lemma decode_encode_digits bs v :
  in_bases bs v = true → decode_digits bs (encode_digits bs v) = v.
Proof.
  revert v. induction bs as [|b bs IH]; intros [|x v] Hv; simpl in *; try done.
  apply andb_prop in Hv as [Hx Hv]. apply andb_prop in Hx as [Hx0 Hxb].
  replace (x + b * encode_digits bs v) with (x + encode_digits bs v * b) by lia.
  f_equal.
  - rewrite Z.mod_add by lia. apply Z.mod_small. lia.
  - rewrite Z.div_add by lia.
    rewrite (Z.div_small x b) by lia. by apply IH.
Qed.

Lemma decode_all_in_range sp path :
  Forall (λ i, 0 ≤ i < volume sp) path →
  decode_all sp path = Ok ((λ i, Decoded (decode_digits (bases sp) i)) <$> path).
Proof.
  induction 1 as [|i path Hi _ IH]; [done|].
  simpl. unfold StateSpace_decode.
  replace ((0 <=? i) && (i <? volume sp)) with true by lia.
  cbn [bind]. by rewrite IH.
Qed.

(** *** Landscapes whose table is what [__setup] builds *)

(** The transitions array has one cell per state and every cell holds the
    index of a state. *)
Definition wf_landscape (self : Landscape) : Prop :=
  volume (space self) = Z.of_nat (length (__transitions self))
  ∧ wf_trans (__transitions self).

(** Whether the result is made of indices: the value of [encode] after
    lines 578-587. *)
Definition encodes (init : pyinit) (encode : option bool) : bool :=
  match encode with
  | Some e => e
  | None => match init with InitInt _ => true | _ => false end
  end.

(** A state as [Landscape.trajectory] returns it. *)
Definition shown (self : Landscape) (encoded : bool) (i : Z) : pystate :=
  if encoded then Encoded i else Decoded (decode_digits (bases (space self)) i).

(** A valid initial state and the index it stands for: an index of the
    table, or a non-empty vector of the state space. *)
Inductive denotes (self : Landscape) : pyinit → Z → Prop :=
| denotes_int i :
    in_range (length (__transitions self)) i → denotes self (InitInt i) i
| denotes_list v :
    v ≠ [] → in_bases (bases (space self)) v = true →
    denotes self (InitList v) (encode_digits (bases (space self)) v)
| denotes_array v :
    in_bases (bases (space self)) v = true →
    denotes self (InitArray v) (encode_digits (bases (space self)) v).

Lemma denotes_in_range self init idx :
  wf_landscape self → denotes self init idx →
  in_range (length (__transitions self)) idx.
Proof.
  intros [Hvol _] Hd. destruct Hd as [i Hi|v _ Hv|v Hv]; [done| |].
  - unfold in_range. rewrite <- Hvol. by apply encode_digits_range.
  - unfold in_range. rewrite <- Hvol. by apply encode_digits_range.
Qed.

Lemma trajectory_denoted self init idx timesteps encode :
  denotes self init idx →
  Landscape_trajectory self init timesteps encode
  = let* path := trajectory_path (__transitions self) idx timesteps in
    if negb (encodes init encode) then decode_all (space self) path
    else Ok (Encoded <$> path).
Proof.
  intros Hd. unfold Landscape_trajectory, encodes.
  destruct Hd as [i Hi|v Hne Hv|v Hv]; simpl.
  - done.
  - destruct v; [done|]. simpl. unfold StateSpace_encode.
    rewrite Hv. cbn [bind]. by destruct encode.
  - unfold StateSpace_encode. rewrite Hv. cbn [bind]. by destruct encode.
Qed.

Lemma trajectory_shown self init idx timesteps encode path :
  wf_landscape self → denotes self init idx →
  trajectory_path (__transitions self) idx timesteps = Ok path →
  Forall (in_range (length (__transitions self))) path →
  Landscape_trajectory self init timesteps encode
  = Ok (shown self (encodes init encode) <$> path).
Proof.
  intros [Hvol _] Hd Hpath Hr.
  rewrite (trajectory_denoted self init idx) by done.
  rewrite Hpath. cbn [bind]. unfold shown.
  destruct (encodes init encode); simpl; [done|].
  apply decode_all_in_range. by rewrite Hvol.
Qed.

Lemma trajectory_path_until trans idx :
  wf_trans trans → in_range (length trans) idx →
  ∃ L, trajectory_path trans idx None = Ok (orbit trans idx L)
    ∧ (1 ≤ L ≤ length trans)%nat
    ∧ NoDup (orbit trans idx L)
    ∧ Nat.iter L (successor trans) idx ∈ orbit trans idx L.
Proof.
  intros Hwf Hi. unfold trajectory_path.
  rewrite getitem_trans by done. cbn [bind].
  destruct (until_repeat_spec trans (S (length trans)) [] [idx]
              (successor trans idx))
    as (ext & Hrun & Hext & Hnd & Hstop).
  { done. }
  { constructor. }
  { by apply Forall_singleton. }
  { apply NoDup_singleton. }
  { by apply successor_in_range. }
  { simpl. lia. }
  simpl in Hrun, Hnd, Hstop.
  assert (idx :: ext = orbit trans idx (S (length ext))) as Horb.
  { rewrite orbit_S. by f_equal. }
  exists (S (length ext)). rewrite <- Horb. split_and!; [done|lia| |done|].
  - assert (length (idx :: ext) ≤ length trans)%nat as Hle; [|simpl in Hle; lia].
    apply NoDup_in_range_length; [done|].
    rewrite Horb. by apply orbit_in_range.
  - by rewrite Nat.iter_succ_r.
Qed.

Lemma trajectory_path_fixed trans init y timesteps :
  wf_trans trans → getitem trans init = Ok y → in_range (length trans) y →
  1 ≤ timesteps →
  trajectory_path trans init (Some timesteps)
  = Ok (init :: orbit trans y (Z.to_nat timesteps)).
Proof.
  intros Hwf Hinit Hy Ht. unfold trajectory_path.
  replace (timesteps <? 1) with false by lia.
  rewrite length_replicate.
  replace (Z.to_nat (timesteps + 1)) with (S (Z.to_nat timesteps)) by lia.
  replace (S (Z.to_nat timesteps) - 1)%nat with (Z.to_nat timesteps) by lia.
  apply (fill_path_spec trans init y 0 (Z.to_nat timesteps)); done.
Qed.

Lemma orbit_lookup trans i k j :
  (j < k)%nat → orbit trans i k !! j = Some (Nat.iter j (successor trans) i).
Proof.
  intros Hj. unfold orbit. rewrite list_lookup_fmap, lookup_seq_lt by done.
  done.
Qed.

Lemma orbit_NoDup_first_repeat trans i L k :
  NoDup (orbit trans i L) → (k < L)%nat →
  Nat.iter k (successor trans) i ∉ orbit trans i k.
Proof.
  intros Hnd Hk Hin.
  apply list_elem_of_lookup in Hin as [j Hj].
  pose proof (lookup_lt_Some _ _ _ Hj) as Hjk. rewrite length_orbit in Hjk.
  rewrite orbit_lookup in Hj by done. injection Hj as Hj.
  assert (j = k); [|lia].
  eapply (NoDup_lookup _ _ _ _ Hnd).
  - rewrite orbit_lookup by lia. done.
  - rewrite orbit_lookup by lia. by rewrite Hj.
Qed.



(** The landscape of scenario 1: two Boolean nodes, the transitions
    0 -> 1, 1 -> 3, 2 -> 3, 3 -> 3. *)
Definition scenario1_net : Network :=
  MkNetwork true (λ _, MkStateSpace [2; 2])
    (λ v, decode_digits [2; 2]
            (default 0 ([1; 3; 3; 3] !! Z.to_nat (encode_digits [2; 2] v))))
    (λ v, if in_bases [2; 2] v then None
          else Some (ValueError "state is not in state space")).

Definition scenario1 : Landscape :=
  MkLandscape (MkStateSpace [2; 2]) scenario1_net false [1; 3; 3; 3] None None.

Example scenario1_constructed :
  (Landscape_init (PyNetwork scenario1_net) None).2 = Ok scenario1.
Proof. vm_compute. reflexivity. Qed.

Lemma scenario1_wf : wf_landscape scenario1.
Proof.
  split; [done|]. unfold wf_trans, in_range. simpl. repeat constructor; lia.
Qed.

(** C5. In until-repeat mode, from any valid initial state,
    [Landscape.trajectory] returns the first [L] states of the orbit of
    the initial state, for some [L] between 1 and [volume]; these states
    are pairwise distinct, so that no state of the orbit before the
    [L]-th is among the states produced before it; and the [L]-th state
    of the orbit is among the states returned (it is not appended again). The
    loop needs no more than the [volume + 1] tests of its condition the
    model allows. On the transitions [1, 3, 3, 3], from index 0, the
    result is [0, 1, 3]. *)
Theorem trajectory_until_repeat self init idx encode :
  wf_landscape self → denotes self init idx →
  (∃ L,
     Landscape_trajectory self init None encode
       = Ok (shown self (encodes init encode)
               <$> orbit (__transitions self) idx L)
     ∧ (1 ≤ L ≤ length (__transitions self))%nat
     ∧ NoDup (orbit (__transitions self) idx L)
     ∧ (∀ k, (k < L)%nat →
          Nat.iter k (successor (__transitions self)) idx
            ∉ orbit (__transitions self) idx k)
     ∧ Nat.iter L (successor (__transitions self)) idx
         ∈ orbit (__transitions self) idx L)
  ∧ Landscape_trajectory scenario1 (InitInt 0) None None
    = Ok [Encoded 0; Encoded 1; Encoded 3].
Proof.
  intros Hwf Hd. split; [|vm_compute; reflexivity].
  pose proof (denotes_in_range self init idx Hwf Hd) as Hidx.
  destruct (trajectory_path_until (__transitions self) idx)
    as (L & Hpath & HL & Hnd & Hstop); [apply Hwf|done|].
  exists L. split_and!; [|lia|lia|done| |done].
  - apply (trajectory_shown self init idx); [done|done|done|].
    apply orbit_in_range; [apply Hwf|done].
  - intros k Hk. by eapply orbit_NoDup_first_repeat.
Qed.

Lemma trajectory_until_repeat_witness :
  (∃ L,
     Landscape_trajectory scenario1 (InitInt 2) None None
       = Ok (shown scenario1 (encodes (InitInt 2) None)
               <$> orbit (__transitions scenario1) 2 L)
     ∧ (1 ≤ L ≤ length (__transitions scenario1))%nat
     ∧ NoDup (orbit (__transitions scenario1) 2 L)
     ∧ (∀ k, (k < L)%nat →
          Nat.iter k (successor (__transitions scenario1)) 2
            ∉ orbit (__transitions scenario1) 2 k)
     ∧ Nat.iter L (successor (__transitions scenario1)) 2
         ∈ orbit (__transitions scenario1) 2 L)
  ∧ Landscape_trajectory scenario1 (InitInt 0) None None
    = Ok [Encoded 0; Encoded 1; Encoded 3].
Proof.
  apply (trajectory_until_repeat scenario1 (InitInt 2) 2 None).
  - exact scenario1_wf.
  - apply denotes_int. unfold in_range. simpl. lia.
Defined.

(** The first entry of a trajectory: the initial state, as an index or as
    a vector. *)
Definition initial_item (init : pyinit) (sp : StateSpace) (encoded : bool)
    : pystate :=
  match init with
  | InitInt i => if encoded then Encoded i else Decoded (decode_digits (bases sp) i)
  | InitList v | InitArray v =>
      if encoded then Encoded (StateSpace_unsafe_encode sp v) else Decoded v
  end.

Lemma shown_initial self init idx encoded :
  denotes self init idx →
  shown self encoded idx = initial_item init (space self) encoded.
Proof.
  intros Hd. unfold shown, initial_item, StateSpace_unsafe_encode.
  destruct Hd as [i Hi|v _ Hv|v Hv]; [done| |].
  - by rewrite decode_encode_digits.
  - by rewrite decode_encode_digits.
Qed.

Lemma length_iterates k step st : length (iterates k step st) = k.
Proof. revert st. induction k as [|k IH]; intros st; simpl; [done|]. by rewrite IH. Qed.

(** C6. With a given step count, from a valid initial state,
    [Landscape.trajectory] raises [ValueError] if and only if the step
    count is below 1, and so does the free function [trajectory] for a
    network and a state the network accepts; otherwise both produce
    exactly [timesteps + 1] entries, the first of which is the initial
    state. *)
Theorem fixed_step_trajectory self init idx encode net state encode' timesteps :
  wf_landscape self → denotes self init idx → update_check net state = None →
  (is_ValueError (Landscape_trajectory self init (Some timesteps) encode)
     ↔ timesteps < 1)
  ∧ ((∃ msg, (trajectory (PyNetwork net) state timesteps encode').2
             = Some (ValueError msg))
     ↔ timesteps < 1)
  ∧ (1 ≤ timesteps →
       (∃ path,
          Landscape_trajectory self init (Some timesteps) encode = Ok path
          ∧ length path = Z.to_nat (timesteps + 1)
          ∧ head path
            = Some (initial_item init (space self) (encodes init encode)))
       ∧ (∃ items,
            trajectory (PyNetwork net) state timesteps encode' = (items, None)
            ∧ length items = Z.to_nat (timesteps + 1)
            ∧ head items
              = Some (initial_item (InitList state)
                        (trajectory_space net state) encode'))).
Proof.
  intros Hwf Hd Hcheck.
  pose proof (denotes_in_range self init idx Hwf Hd) as Hidx.
  destruct Hwf as [Hvol Hwft].
  assert (1 ≤ timesteps →
    Landscape_trajectory self init (Some timesteps) encode
    = Ok (shown self (encodes init encode)
            <$> idx :: orbit (__transitions self)
                         (successor (__transitions self) idx)
                         (Z.to_nat timesteps))) as Hok.
  { intros Ht. apply (trajectory_shown self init idx); [done|done| |].
    - apply trajectory_path_fixed; [done| |by apply successor_in_range|done].
      by apply getitem_trans.
    - constructor; [done|].
      apply orbit_in_range; [done|]. by apply successor_in_range. }
  assert (timesteps < 1 →
    Landscape_trajectory self init (Some timesteps) encode
    = Raise (ValueError "number of steps must be positive, non-zero")) as Hbad.
  { intros Ht. rewrite (trajectory_denoted self init idx) by done.
    unfold trajectory_path. replace (timesteps <? 1) with true by lia. done. }
  split_and!.
  - split.
    + intros [msg Hmsg]. destruct (decide (timesteps < 1)) as [|Hge]; [done|].
      rewrite Hok in Hmsg by lia. done.
    + intros Ht. eexists. by apply Hbad.
  - unfold trajectory. rewrite Hcheck.
    destruct (Z.ltb_spec timesteps 1) as [Hlt|Hge]; simpl.
    + split; [done|]. intros _. by eexists.
    + split; [|lia]. intros [msg Hmsg]. done.
  - intros Ht. split.
    + eexists. split; [by apply Hok|]. split.
      * rewrite length_fmap. simpl. rewrite length_orbit. lia.
      * simpl. f_equal. by apply shown_initial.
    + unfold trajectory. rewrite Hcheck.
      replace (timesteps <? 1) with false by lia.
      eexists. split; [done|]. split.
      * simpl. rewrite length_fmap, length_iterates. lia.
      * unfold trajectory_space. simpl. by destruct encode'.
Qed.

Lemma fixed_step_trajectory_witness :
  (is_ValueError (Landscape_trajectory scenario1 (InitList [0; 1]) (Some 3) None)
     ↔ 3 < 1)
  ∧ ((∃ msg, (trajectory (PyNetwork scenario1_net) [0; 1] 3 true).2
             = Some (ValueError msg))
     ↔ 3 < 1)
  ∧ (1 ≤ 3 →
       (∃ path,
          Landscape_trajectory scenario1 (InitList [0; 1]) (Some 3) None = Ok path
          ∧ length path = Z.to_nat (3 + 1)
          ∧ head path
            = Some (initial_item (InitList [0; 1]) (space scenario1)
                      (encodes (InitList [0; 1]) None)))
       ∧ (∃ items,
            trajectory (PyNetwork scenario1_net) [0; 1] 3 true = (items, None)
            ∧ length items = Z.to_nat (3 + 1)
            ∧ head items
              = Some (initial_item (InitList [0; 1])
                        (trajectory_space scenario1_net [0; 1]) true))).
Proof.
  apply (fixed_step_trajectory scenario1 (InitList [0; 1]) 2 None
           scenario1_net [0; 1] true 3).
  - exact scenario1_wf.
  - apply (denotes_list scenario1 [0; 1]); [discriminate|reflexivity].
  - reflexivity.
Defined.

Example fixed_step_scenario1 :
  Landscape_trajectory scenario1 (InitList [0; 1]) (Some 3) None
  = Ok [Decoded [0; 1]; Decoded [1; 1]; Decoded [1; 1]; Decoded [1; 1]]
  ∧ trajectory (PyNetwork scenario1_net) [0; 1] 3 true
    = ([Encoded 2; Encoded 3; Encoded 3; Encoded 3], None)
  ∧ trajectory (PyNetwork scenario1_net) [0; 1] 0 true
    = ([], Some (ValueError "number of steps must be positive, non-zero")).
Proof. vm_compute. done. Qed.

(** C9. On an empty initial state [Landscape.trajectory] raises
    [ValueError], whatever the step count, the [encode] flag and the
    transitions table of the landscape (so before any transition is
    looked up): an empty list is refused by the guard of line 581; an
    empty array passes that guard and is refused by the checked encoder of
    the state space, which has at least one dimension. *)
Theorem trajectory_empty_state self timesteps encode :
  ndim (space self) ≠ 0%nat →
  Landscape_trajectory self (InitList []) timesteps encode
    = Raise (ValueError "initial state cannot be empty")
  ∧ Landscape_trajectory self (InitArray []) timesteps encode
    = Raise (ValueError "state is not in state space")
  ∧ ∀ init, init = InitList [] ∨ init = InitArray [] →
      is_ValueError (Landscape_trajectory self init timesteps encode).
Proof.
  intros Hdim.
  assert (Landscape_trajectory self (InitArray []) timesteps encode
          = Raise (ValueError "state is not in state space")) as Harr.
  { unfold Landscape_trajectory, StateSpace_encode. unfold ndim in Hdim.
    simpl. destruct (bases (space self)); done. }
  split_and!; [done|done|].
  intros init [->| ->]; eexists; [done|exact Harr].
Qed.

Lemma trajectory_empty_state_witness :
  Landscape_trajectory scenario1 (InitList []) None None
    = Raise (ValueError "initial state cannot be empty")
  ∧ Landscape_trajectory scenario1 (InitArray []) None None
    = Raise (ValueError "state is not in state space")
  ∧ ∀ init, init = InitList [] ∨ init = InitArray [] →
      is_ValueError (Landscape_trajectory scenario1 init None None).
Proof.
  apply (trajectory_empty_state scenario1 None None). discriminate.
Defined.








Example trajectory_negative_index :
  Landscape_trajectory scenario1 (InitInt (-3)) None None
  = Ok [Encoded (-3); Encoded 3]
  ∧ Landscape_trajectory scenario1 (InitInt (-4)) (Some 2) None
    = Ok [Encoded (-4); Encoded 1; Encoded 3]
  ∧ Landscape_trajectory scenario1 (InitInt 4) None None = Raise IndexError
  ∧ Landscape_trajectory scenario1 (InitInt (-5)) None None = Raise IndexError.
Proof. vm_compute. done. Qed.

(* ================================================================= *)
(** ** Construction *)

(** A size is given for a fixed sized network, or none for a network that
    is not fixed sized. *)
Definition size_mismatch (net : Network) (size : option Z) : Prop :=
  (is_fixed_sized net = true ∧ size ≠ None)
  ∨ (is_fixed_sized net = false ∧ size = None).

(** C7. When a size is given for a fixed sized network, or none for a
    network that is not fixed sized, constructing a [Landscape] raises
    [ValueError] and draining the generator [transitions] ends in
    [ValueError]; in both cases nothing has happened before: no state
    space was iterated over, the network was not asked for any update, no
    landscape (hence no transitions table) exists and the generator has
    yielded no transition. *)
Theorem size_mismatch_rejected net size encode :
  size_mismatch net size →
  (∃ msg, Landscape_init (PyNetwork net) size = ([], Raise (ValueError msg)))
  ∧ (∃ msg, transitions (PyNetwork net) size encode
            = ([], [], Some (ValueError msg))).
Proof.
  unfold Landscape_init, transitions.
  intros [[-> Hsize]|[-> ->]].
  - destruct size as [sz|]; [|done]. split; by eexists.
  - split; by eexists.
Qed.

(** A network that is not fixed sized: the identity on [size] Boolean
    nodes. *)
Definition identity_net : Network :=
  MkNetwork false
    (λ size, MkStateSpace (replicate (Z.to_nat (default 0 size)) 2))
    (λ v, v) (λ _, None).

Lemma size_mismatch_rejected_witness :
  (∃ msg, Landscape_init (PyNetwork identity_net) None
          = ([], Raise (ValueError msg)))
  ∧ (∃ msg, transitions (PyNetwork identity_net) None true
            = ([], [], Some (ValueError msg))).
Proof.
  apply (size_mismatch_rejected identity_net None true).
  right. split; reflexivity.
Defined.

Example construction_scenario1 :
  Landscape_init (PyNetwork scenario1_net) None
  = ([Enumerate (MkStateSpace [2; 2]);
      Update [0; 0]; Update [1; 0]; Update [0; 1]; Update [1; 1]],
     Ok scenario1)
  ∧ Landscape_init (PyNetwork scenario1_net) (Some 2)
    = ([], Raise (ValueError "size must be None for fixed sized networks"))
  ∧ transitions (PyNetwork scenario1_net) None true
    = ([Enumerate (MkStateSpace [2; 2]);
        Update [0; 0]; Update [1; 0]; Update [0; 1]; Update [1; 1]],
       [Encoded 1; Encoded 3; Encoded 3; Encoded 3], None).
Proof. vm_compute. done. Qed.

(* ================================================================= *)
(** ** The lazily computed attributes *)

(** The properties of a landscape a caller can read. *)
Inductive access : Type :=
| GetTransitions
| GetAttractors
| GetBasins.

Definition get (a : access) (self : Landscape)
    : list event * result (pyvalue * Landscape) :=
  match a with
  | GetTransitions => Landscape_transitions self
  | GetAttractors => Landscape_attractors self
  | GetBasins => Landscape_basins self
  end.

(** Reading properties one after the other: the events, the values read
    and the landscape afterwards. *)
Fixpoint accesses (l : list access) (self : Landscape)
    : list event * result (list pyvalue * Landscape) :=
  match l with
  | [] => ([], Ok ([], self))
  | a :: l =>
      let '(events, r) := get a self in
      match r with
      | Ok (v, self) =>
          let '(events', r') := accesses l self in
          (events ++ events',
           let* (vs, self) := r' in Ok (v :: vs, self))
      | Raise e => (events, Raise e)
      | OutOfFuel => (events, OutOfFuel)
      end
  end.

(** Whether reading a property needs the decomposition. *)
Definition derived (a : access) : bool :=
  match a with GetTransitions => false | _ => true end.

(** The landscape once [__expound] has stored its results. *)
Definition expounded_with (self : Landscape) (bas : list Z)
    (attrs : list (list Z)) : Landscape :=
  MkLandscape (space self) (__net self) true (__transitions self)
    (Some bas) (Some attrs).

(** The value a property holds. *)
Definition value_of (self : Landscape) (bas : list Z) (attrs : list (list Z))
    (a : access) : pyvalue :=
  match a with
  | GetTransitions => Array (__transitions self)
  | GetAttractors => Cycles attrs
  | GetBasins => Array bas
  end.

Lemma accesses_expounded self bas attrs l :
  accesses l (expounded_with self bas attrs)
  = ([], Ok (value_of self bas attrs <$> l, expounded_with self bas attrs)).
Proof.
  induction l as [|a l IH]; [done|].
  cbn [accesses]. destruct a; simpl; rewrite IH; done.
Qed.

(** C8. For a landscape as its constructor leaves it ([__expounded] is
    false), with a well-formed table: the decomposition has one result
    [(bas, attrs)], and whatever properties are read, in whatever order,
    [__expound] runs once if [attractors] or [basins] is among them and
    not at all otherwise; every read of [transitions] gives the table,
    every read of [attractors] gives [attrs] and every read of [basins]
    gives [bas]; afterwards the landscape is unchanged but for the flag
    and the two cached attributes. *)
Theorem decomposition_runs_once self :
  wf_landscape self → __expounded self = false →
  ∃ bas attrs,
    expound (volume (space self)) (__transitions self) = Ok (bas, attrs)
    ∧ ∀ l,
        accesses l self
        = (if existsb derived l then [Expound] else [],
           Ok (value_of self bas attrs <$> l,
               if existsb derived l then expounded_with self bas attrs
               else self)).
Proof.
  intros [Hvol Hwf] Hfresh.
  destruct (expound_final _ Hwf) as (s & Hs & _).
  rewrite <- Hvol in Hs.
  exists (basins s), (attractors s). split; [done|].
  induction l as [|a l IH]; [done|].
  cbn [accesses existsb]. destruct a; cbn [get derived orb].
  - unfold Landscape_transitions. rewrite IH.
    destruct (existsb derived l); done.
  - unfold Landscape_attractors, Landscape_expound. rewrite Hfresh, Hs.
    cbn [negb bind getattr __attractors].
    fold (expounded_with self (basins s) (attractors s)).
    by rewrite accesses_expounded.
  - unfold Landscape_basins, Landscape_expound. rewrite Hfresh, Hs.
    cbn [negb bind getattr __basins].
    fold (expounded_with self (basins s) (attractors s)).
    by rewrite accesses_expounded.
Qed.

Lemma decomposition_runs_once_witness :
  ∃ bas attrs,
    expound (volume (space scenario1)) (__transitions scenario1) = Ok (bas, attrs)
    ∧ ∀ l,
        accesses l scenario1
        = (if existsb derived l then [Expound] else [],
           Ok (value_of scenario1 bas attrs <$> l,
               if existsb derived l then expounded_with scenario1 bas attrs
               else scenario1)).
Proof.
  apply (decomposition_runs_once scenario1).
  - exact scenario1_wf.
  - reflexivity.
Defined.

Example accesses_scenario1 :
  accesses [GetTransitions; GetBasins; GetAttractors; GetBasins] scenario1
  = ([Expound],
     Ok ([Array [1; 3; 3; 3]; Array [0; 0; 0; 0]; Cycles [[3]];
          Array [0; 0; 0; 0]],
         expounded_with scenario1 [0; 0; 0; 0] [[3]])).
Proof. vm_compute. done. Qed.

(** *** What the constructor establishes *)

Lemma volume_pos bs : Forall (λ b, 1 ≤ b) bs → 1 ≤ foldr Z.mul 1 bs.
Proof. induction 1 as [|b bs Hb _ IH]; simpl; [done|nia]. Qed.

Lemma decode_digits_in_bases bs i :
  Forall (λ b, 1 ≤ b) bs → 0 ≤ i < foldr Z.mul 1 bs →
  in_bases bs (decode_digits bs i) = true.
Proof.
  intros Hbs. revert i. induction Hbs as [|b bs Hb _ IH]; intros i Hi; [done|].
  simpl in *. pose proof (Z.mod_pos_bound i b ltac:(lia)).
  rewrite IH.
  - replace (0 <=? i `mod` b) with true by lia.
    replace (i `mod` b <? b) with true by lia. done.
  - split; [apply Z.div_pos; lia|].
    apply Z.div_lt_upper_bound; lia.
Qed.

(** A network whose update maps the states of a space to states of that
    space. *)
Definition closed_update (net : Network) (sp : StateSpace) : Prop :=
  ∀ v, in_bases (bases sp) v = true →
       in_bases (bases sp) (_unsafe_update net v) = true.

Lemma Landscape_setup_wf net sp :
  Forall (λ b, 1 ≤ b) (bases sp) → closed_update net sp →
  wf_landscape (MkLandscape sp net false (Landscape_setup net sp).2 None None).
Proof.
  intros Hbs Hclosed. pose proof (volume_pos _ Hbs) as Hvol.
  unfold wf_landscape, wf_trans, Landscape_setup, StateSpace_iter. simpl.
  rewrite !length_fmap, length_seq. split; [unfold volume; lia|].
  apply Forall_fmap, Forall_fmap, Forall_forall. intros i Hi. simpl.
  apply elem_of_seq in Hi. unfold in_range, StateSpace_unsafe_encode.
  rewrite Z2Nat.id by (unfold volume; lia).
  apply encode_digits_range, Hclosed, decode_digits_in_bases; [done|].
  unfold volume in Hi. lia.
Qed.

(** A landscape the constructor returns is not yet expounded, its table
    is well formed, and the network has been asked once for the successor
    of each state. *)
Lemma Landscape_init_wf net size events self :
  Landscape_init (PyNetwork net) size = (events, Ok self) →
  Forall (λ b, 1 ≤ b) (bases (space self)) →
  closed_update net (space self) →
  wf_landscape self ∧ __expounded self = false
  ∧ events = Enumerate (space self) :: (Update <$> StateSpace_iter (space self)).
Proof.
  unfold Landscape_init.
  destruct (is_fixed_sized net), size as [sz|]; intros [= <- <-]; simpl;
    intros Hbs Hclosed; (split; [by apply Landscape_setup_wf|done]).
Qed.

(* ================================================================= *)
(** ** Further properties of the decomposition *)

(** The variables the decomposition ends with are reachable. *)
Lemma expound_loop_reachable trans fuel s s' :
  reachable trans s → expound_loop fuel trans s = Ok s' →
  reachable trans s' ∧ Z.of_nat (length trans) ≤ initial_state s'.
Proof.
  revert s. induction fuel as [|fuel IH]; intros s Hreach Hloop; [done|].
  simpl in Hloop. case_bool_decide as Hlt.
  - destruct (expound_body trans s) as [s1| |] eqn:Hbody; [|done|done].
    cbn [bind] in Hloop. apply (IH s1); [|done].
    by eapply reachable_step.
  - injection Hloop as <-. split; [done|lia].
Qed.

Lemma expound_reachable trans bas attrs :
  expound (Z.of_nat (length trans)) trans = Ok (bas, attrs) →
  ∃ s, reachable trans s ∧ bas = basins s ∧ attrs = attractors s
       ∧ Z.of_nat (length trans) ≤ initial_state s.
Proof.
  unfold expound. intros Hrun.
  destruct (expound_loop _ trans _) as [s| |] eqn:Hloop; [|done|done].
  cbn [bind] in Hrun. injection Hrun as <- <-.
  destruct (expound_loop_reachable trans _ _ s (reachable_init trans) Hloop).
  by exists s.
Qed.

(** The form of the variables after one iteration, at any point of the
    decomposition. *)
Lemma reachable_step_form trans s s' :
  wf_trans trans → reachable trans s →
  initial_state s < Z.of_nat (length trans) →
  expound_body trans s = Ok s' →
  ∃ state rest b i0',
    fresh_path trans s (state :: rest)
    ∧ assign (state :: rest) true (visited s)
        !! Z.to_nat (successor trans state) = Some true
    ∧ basins s !! Z.to_nat (successor trans state) = Some b
    ∧ scanned trans s (assign (state :: rest) true (visited s)) i0'
    ∧ s' = close_path s (state :: rest) (successor trans state) b i0'.
Proof.
  intros Hwf Hreach Hlt Hbody.
  pose proof (reachable_inv trans Hwf s Hreach) as Hinv.
  destruct (expound_body_eq trans Hwf s Hinv Hlt)
    as (state & rest & b & i0' & _ & Hfp & Hterm & Hb & Hsc & Heq).
  exists state, rest, b, i0'. split_and!; try done. congruence.
Qed.

Lemma take_through_prefix t P : ∃ l2, P = take_through t P ++ l2.
Proof.
  induction P as [|x P [l2 IH]]; [by exists []|].
  simpl. destruct (t =? x).
  - by exists P.
  - exists l2. simpl. by rewrite <- IH.
Qed.

(** No recorded cycle holds a state twice. *)
Lemma reachable_cycles_NoDup trans s :
  wf_trans trans → reachable trans s →
  ∀ k c, attractors s !! k = Some c → NoDup c.
Proof.
  intros Hwf. induction 1 as [|s s' Hreach IH Hlt Hbody]; intros k c Hc.
  { unfold expound_init in Hc. proj_vars. by rewrite lookup_nil in Hc. }
  destruct (reachable_step_form trans s s' Hwf Hreach Hlt Hbody)
    as (state & rest & b & i0' & Hfp & _ & _ & _ & ->).
  unfold close_path in Hc. destruct (b =? -1); proj_vars; [|by eapply IH].
  apply lookup_app_Some in Hc as [Hc|[_ Hc]]; [by eapply IH|].
  apply list_lookup_singleton_Some in Hc as [_ <-].
  destruct Hfp as (_ & _ & _ & Hnd & _).
  destruct (take_through_prefix (successor trans state) (state :: rest))
    as [l2 Hl2].
  rewrite Hl2 in Hnd. by apply NoDup_app in Hnd as [? _].
Qed.

(** A path, read backwards, is an orbit. *)
Lemma rchain_orbit trans l x :
  rchain trans (l ++ [x]) → rev (l ++ [x]) = orbit trans x (S (length l)).
Proof.
  revert x. induction l as [|y l IH] using rev_ind; intros x Hch; [done|].
  assert (successor trans x = y) as Hxy.
  { rewrite <- app_assoc in Hch. apply rchain_app_r in Hch. by destruct Hch. }
  rewrite rev_unit, IH by (by apply rchain_app_l in Hch).
  rewrite (orbit_S trans x), Hxy, length_app. simpl.
  by rewrite Nat.add_1_r.
Qed.

Lemma iter_period trans (p j : nat) x :
  Nat.iter p (successor trans) x = x →
  Nat.iter p (successor trans) (Nat.iter j (successor trans) x)
  = Nat.iter j (successor trans) x.
Proof.
  intros Hp. rewrite <- Nat.iter_add, Nat.add_comm, Nat.iter_add. by rewrite Hp.
Qed.

(** What a recorded cycle is: read backwards it is the orbit of its last
    state, which returns to that state after as many steps as the cycle
    has states. *)
Lemma recorded_orbit trans s k c :
  recorded trans s k c →
  ∃ t, last c = Some t
       ∧ rev c = orbit trans t (length c)
       ∧ Nat.iter (length c) (successor trans) t = t.
Proof.
  intros ((l & t & -> & _ & Hhd) & Hch & _).
  exists t. rewrite last_snoc, length_app, Nat.add_1_r.
  pose proof (rchain_orbit trans l t Hch) as Horb.
  split_and!; [done|done|].
  assert (rev (l ++ [t]) !! length l = Some (hd t (l ++ [t]))) as Hlast.
  { assert (length (l ++ [t]) = S (length l)) as Hlen
      by (rewrite length_app; simpl; lia).
    destruct (l ++ [t]) as [|h r]; [done|]. simpl in *.
    apply list_lookup_middle. rewrite length_rev. lia. }
  rewrite Horb, orbit_lookup in Hlast by lia. injection Hlast as Hlast.
  simpl. by rewrite Hlast.
Qed.

Lemma iter_closed trans s k c x j :
  recorded trans s k c → x ∈ c → Nat.iter j (successor trans) x ∈ c.
Proof.
  intros Hrec Hx. induction j as [|j IH]; [done|].
  simpl. by eapply recorded_closed.
Qed.

Lemma iter_multiple trans (m k : nat) x :
  Nat.iter m (successor trans) x = x →
  Nat.iter (k * m) (successor trans) x = x.
Proof.
  intros Hm. induction k as [|k IH]; [done|].
  simpl. by rewrite Nat.iter_add, IH.
Qed.

(** The final variables of a decomposition that returned. *)
Lemma expound_result trans bas attrs :
  wf_trans trans →
  expound (Z.of_nat (length trans)) trans = Ok (bas, attrs) →
  ∃ s, bas = basins s ∧ attrs = attractors s ∧ inv trans s
       ∧ ∀ i, in_range (length trans) i → settled trans s i.
Proof.
  intros Hwf Hrun. destruct (expound_final trans Hwf) as (s & Hs & Hinv & Hall).
  rewrite Hs in Hrun. injection Hrun as <- <-. by exists s.
Qed.

(** A periodic state is a state of the attractor of its basin. *)
Lemma periodic_on_attractor trans s z (p : nat) :
  inv trans s → (∀ i, in_range (length trans) i → settled trans s i) →
  in_range (length trans) z → (0 < p)%nat →
  Nat.iter p (successor trans) z = z →
  ∃ (b : nat) c,
    basins s !! Z.to_nat z = Some (Z.of_nat b)
    ∧ attractors s !! b = Some c ∧ z ∈ c.
Proof.
  intros Hinv Hall Hz Hp Hper.
  destruct (Hall z Hz) as (b & c & steps & Hb & Hc & _ & Hit & _).
  exists b, c. split_and!; [done|done|].
  pose proof (inv_attr trans s Hinv b c Hc) as Hrec.
  rewrite <- (iter_multiple trans p steps z Hper).
  replace (steps * p)%nat with ((steps * p - steps) + steps)%nat by nia.
  rewrite Nat.iter_add. by eapply iter_closed.
Qed.

(** The final variables of the decomposition of a well-formed array:
    they are reachable, satisfy the invariant, and every state has its
    basin. *)
Lemma expound_final_reachable trans :
  wf_trans trans →
  ∃ s, expound (Z.of_nat (length trans)) trans = Ok (basins s, attractors s)
    ∧ reachable trans s
    ∧ inv trans s
    ∧ ∀ i, in_range (length trans) i → settled trans s i.
Proof.
  intros Hwf. destruct (expound_final trans Hwf) as (s0 & Hs & _).
  destruct (expound_reachable trans _ _ Hs) as (s & Hreach & Hb & Ha & Hi0).
  rewrite Hb, Ha in Hs.
  pose proof (reachable_inv trans Hwf s Hreach) as Hinv.
  exists s. split_and!; [done|done|done|].
  intros i Hi. apply (inv_vis trans s Hinv i Hi).
  apply (inv_below trans s Hinv). destruct Hi. lia.
Qed.

(** A recorded attractor is a simple cycle: it is not empty, holds no
    state twice, read backwards it is the orbit of its last state, and
    each of its states comes back to itself after exactly as many steps
    as the cycle has states and not before. *)
Lemma recorded_simple_cycle trans s k c :
  wf_trans trans → reachable trans s → attractors s !! k = Some c →
  c ≠ [] ∧ NoDup c
  ∧ (∃ t, last c = Some t ∧ rev c = orbit trans t (length c))
  ∧ (∀ x, x ∈ c → Nat.iter (length c) (successor trans) x = x)
  ∧ (∀ x j, x ∈ c → (0 < j < length c)%nat →
       Nat.iter j (successor trans) x ≠ x).
Proof.
  intros Hwf Hreach Hc.
  pose proof (reachable_inv trans Hwf s Hreach) as Hinv.
  pose proof (inv_attr trans s Hinv k c Hc) as Hrec.
  pose proof (reachable_cycles_NoDup trans s Hwf Hreach k c Hc) as Hnd.
  destruct (recorded_orbit trans s k c Hrec) as (t & Hlast & Horb & Hper).
  assert (∀ x, x ∈ c → ∃ a, (a < length c)%nat
            ∧ x = Nat.iter a (successor trans) t) as Hpos.
  { intros x Hx. rewrite <- elem_of_rev, Horb in Hx.
    apply list_elem_of_lookup in Hx as [a Ha].
    pose proof (lookup_lt_Some _ _ _ Ha) as Hlt. rewrite length_orbit in Hlt.
    rewrite orbit_lookup in Ha by done. exists a. split; [done|congruence]. }
  assert (NoDup (orbit trans t (length c))) as Hnd'.
  { rewrite <- Horb. apply NoDup_ListNoDup, NoDup_rev, NoDup_ListNoDup, Hnd. }
  split_and!.
  - intros ->. done.
  - done.
  - by exists t.
  - intros x Hx. destruct (Hpos x Hx) as (a & _ & ->). by apply iter_period.
  - intros x j Hx Hj Hback. destruct (Hpos x Hx) as (a & Ha & ->).
    rewrite <- Nat.iter_add in Hback.
    destruct (decide (j + a < length c)%nat) as [Hlt|Hge].
    + assert (j + a = a)%nat; [|lia].
      eapply (NoDup_lookup _ _ _ _ Hnd').
      * by apply orbit_lookup.
      * rewrite orbit_lookup by done. by rewrite Hback.
    + assert (Nat.iter (j + a - length c) (successor trans) t
              = Nat.iter a (successor trans) t) as Hwrap.
      { transitivity
          (Nat.iter ((j + a - length c) + length c) (successor trans) t).
        - by rewrite Nat.iter_add, Hper.
        - replace (j + a - length c + length c)%nat with (j + a)%nat by lia.
          exact Hback. }
      assert (j + a - length c = a)%nat; [|lia].
      eapply (NoDup_lookup _ _ _ _ Hnd').
      * apply orbit_lookup. lia.
      * rewrite orbit_lookup by done. by rewrite Hwrap.
Qed.

(** C1. For a well-formed transitions array the decomposition returns,
    and for every state [i] of [0 .. volume-1] the array [basins] holds at
    [i] the position [b] of a recorded attractor [c] that is the cycle
    reachable from [i]. The orbit of [i] enters [c] after at most [volume]
    applications of the transitions. [c] is a cycle: it holds no state
    twice, it is closed under the transitions, read backwards it is the
    orbit of its last state, and each of its states comes back to itself
    after exactly [length c] steps and not before. It is the only one:
    every state on the orbit of [i] that ever comes back to itself is a
    state of [c], and the orbit of [i] meets no attractor recorded at
    another position. *)
Theorem basin_identifies_reachable_cycle trans :
  wf_trans trans →
  ∃ bas attrs,
    expound (Z.of_nat (length trans)) trans = Ok (bas, attrs)
    ∧ ∀ i, in_range (length trans) i →
        ∃ (b : nat) (c : list Z) (steps : nat),
          bas !! Z.to_nat i = Some (Z.of_nat b)
          ∧ attrs !! b = Some c
          ∧ (steps ≤ length trans)%nat
          ∧ Nat.iter steps (successor trans) i ∈ c
          ∧ (∀ x, x ∈ c → successor trans x ∈ c)
          ∧ (∀ steps' b' c', attrs !! b' = Some c' →
               Nat.iter steps' (successor trans) i ∈ c' → b' = b)
          ∧ NoDup c
          ∧ (∃ t, last c = Some t ∧ rev c = orbit trans t (length c))
          ∧ (∀ x, x ∈ c → Nat.iter (length c) (successor trans) x = x)
          ∧ (∀ x j, x ∈ c → (0 < j < length c)%nat →
               Nat.iter j (successor trans) x ≠ x)
          ∧ (∀ steps' m, (0 < m)%nat →
               Nat.iter m (successor trans)
                 (Nat.iter steps' (successor trans) i)
               = Nat.iter steps' (successor trans) i →
               Nat.iter steps' (successor trans) i ∈ c).
Proof.
  intros Hwf.
  destruct (expound_final_reachable trans Hwf)
    as (s & Hs & Hreach & Hinv & Hall).
  exists (basins s), (attractors s). split; [done|].
  intros i Hi.
  destruct (Hall i Hi) as (b & c & steps & Hb & Hc & Hsteps & Hit & _).
  destruct (recorded_simple_cycle trans s b c Hwf Hreach Hc)
    as (_ & Hnd & Horb & Hper & Hmin).
  exists b, c, steps.
  split_and!; [done|done| |done| | |done|done|done|done|].
  - pose proof (nvisited_le (visited s)).
    rewrite (inv_len_v trans s Hinv) in *. lia.
  - intros x Hx. eapply recorded_closed; [|done].
    by apply (inv_attr trans s Hinv).
  - intros steps' b' c' Hc' Hit'.
    destruct (inv_attr trans s Hinv b' c' Hc') as (_ & _ & _ & Hmem).
    destruct (Hmem _ Hit') as (_ & _ & Hb').
    rewrite (settled_iter trans s i steps' Hwf Hall Hi) in Hb'.
    rewrite Hb in Hb'. injection Hb' as Hb'. lia.
  - intros steps' m Hm Hback.
    destruct (periodic_on_attractor trans s
                (Nat.iter steps' (successor trans) i) m Hinv Hall)
      as (b' & c' & Hb' & Hc' & Hin); [by apply iter_in_range|done|done|].
    rewrite (settled_iter trans s i steps' Hwf Hall Hi) in Hb'.
    rewrite Hb in Hb'. injection Hb' as Hb'.
    apply Nat2Z.inj in Hb'. subst b'. rewrite Hc in Hc'. by injection Hc' as <-.
Qed.

Lemma basin_identifies_reachable_cycle_witness :
  ∃ bas attrs,
    expound 4 [1; 3; 3; 3] = Ok (bas, attrs)
    ∧ ∀ i, in_range 4 i →
        ∃ (b : nat) (c : list Z) (steps : nat),
          bas !! Z.to_nat i = Some (Z.of_nat b)
          ∧ attrs !! b = Some c
          ∧ (steps ≤ 4)%nat
          ∧ Nat.iter steps (successor [1; 3; 3; 3]) i ∈ c
          ∧ (∀ x, x ∈ c → successor [1; 3; 3; 3] x ∈ c)
          ∧ (∀ steps' b' c', attrs !! b' = Some c' →
               Nat.iter steps' (successor [1; 3; 3; 3]) i ∈ c' → b' = b)
          ∧ NoDup c
          ∧ (∃ t, last c = Some t
                  ∧ rev c = orbit [1; 3; 3; 3] t (length c))
          ∧ (∀ x, x ∈ c →
               Nat.iter (length c) (successor [1; 3; 3; 3]) x = x)
          ∧ (∀ x j, x ∈ c → (0 < j < length c)%nat →
               Nat.iter j (successor [1; 3; 3; 3]) x ≠ x)
          ∧ (∀ steps' m, (0 < m)%nat →
               Nat.iter m (successor [1; 3; 3; 3])
                 (Nat.iter steps' (successor [1; 3; 3; 3]) i)
               = Nat.iter steps' (successor [1; 3; 3; 3]) i →
               Nat.iter steps' (successor [1; 3; 3; 3]) i ∈ c).
Proof.
  apply (basin_identifies_reachable_cycle [1; 3; 3; 3]).
  unfold wf_trans, in_range. simpl. repeat constructor; lia.
Defined.

(** X1. Every attractor the decomposition records is a simple cycle of
    the transitions: it is not empty, it holds no state twice, read
    backwards it is the orbit of its last state, every state of it comes
    back to itself after exactly as many steps as the cycle has states
    and not before; and two attractors recorded at different positions
    share no state. *)
Theorem attractors_are_simple_cycles trans bas attrs :
  wf_trans trans →
  expound (Z.of_nat (length trans)) trans = Ok (bas, attrs) →
  ∀ k c, attrs !! k = Some c →
    c ≠ [] ∧ NoDup c
    ∧ (∃ t, last c = Some t ∧ rev c = orbit trans t (length c))
    ∧ (∀ x, x ∈ c → Nat.iter (length c) (successor trans) x = x)
    ∧ (∀ x j, x ∈ c → (0 < j < length c)%nat →
         Nat.iter j (successor trans) x ≠ x)
    ∧ (∀ k' c' x, attrs !! k' = Some c' → x ∈ c → x ∈ c' → k' = k).
Proof.
  intros Hwf Hrun k c Hc.
  destruct (expound_reachable trans bas attrs Hrun) as (s & Hreach & -> & -> & _).
  pose proof (reachable_inv trans Hwf s Hreach) as Hinv.
  pose proof (inv_attr trans s Hinv k c Hc) as Hrec.
  destruct (recorded_simple_cycle trans s k c Hwf Hreach Hc)
    as (Hne & Hnd & Horb & Hper & Hmin).
  split_and!; [done|done|done|done|done|].
  intros k' c' x Hc' Hx Hx'.
  destruct Hrec as (_ & _ & _ & Hmem).
  destruct (inv_attr trans s Hinv k' c' Hc') as (_ & _ & _ & Hmem').
  destruct (Hmem x Hx) as (_ & _ & Hb). destruct (Hmem' x Hx') as (_ & _ & Hb').
  rewrite Hb in Hb'. injection Hb' as Hb'. lia.
Qed.

Lemma attractors_are_simple_cycles_witness :
  [2; 1; 0] ≠ [] ∧ NoDup [2; 1; 0]
  ∧ (∃ t, last [2; 1; 0] = Some t
          ∧ rev [2; 1; 0] = orbit [1; 2; 0; 3; 3] t (length [2; 1; 0]))
  ∧ (∀ x, x ∈ [2; 1; 0] →
       Nat.iter (length [2; 1; 0]) (successor [1; 2; 0; 3; 3]) x = x)
  ∧ (∀ x j, x ∈ [2; 1; 0] → (0 < j < length [2; 1; 0])%nat →
       Nat.iter j (successor [1; 2; 0; 3; 3]) x ≠ x)
  ∧ (∀ k' c' x, [[2; 1; 0]; [3]] !! k' = Some c' →
       x ∈ [2; 1; 0] → x ∈ c' → k' = 0%nat).
Proof.
  apply (attractors_are_simple_cycles [1; 2; 0; 3; 3] [0; 0; 0; 1; 1]
           [[2; 1; 0]; [3]]).
  - unfold wf_trans, in_range. simpl. repeat constructor; lia.
  - vm_compute. reflexivity.
  - reflexivity.
Defined.

(** X2. The attractors are exactly the periodic states: a state comes
    back to itself after some positive number of steps if and only if it
    is a state of a recorded attractor, which is then the attractor of
    its own basin. *)
Theorem attractors_are_the_periodic_states trans bas attrs :
  wf_trans trans →
  expound (Z.of_nat (length trans)) trans = Ok (bas, attrs) →
  ∀ x, in_range (length trans) x →
    (∃ m, (0 < m)%nat ∧ Nat.iter m (successor trans) x = x)
    ↔ (∃ (b : nat) c,
         bas !! Z.to_nat x = Some (Z.of_nat b) ∧ attrs !! b = Some c ∧ x ∈ c).
Proof.
  intros Hwf Hrun x Hx.
  destruct (expound_result trans bas attrs Hwf Hrun)
    as (s & -> & -> & Hinv & Hall).
  split.
  - intros (m & Hm & Hper).
    destruct (Hall x Hx) as (b & c & steps & Hb & Hc & _ & Hit & _).
    exists b, c. split_and!; [done|done|].
    pose proof (inv_attr trans s Hinv b c Hc) as Hrec.
    rewrite <- (iter_multiple trans m steps x Hper).
    replace (steps * m)%nat with ((steps * m - steps) + steps)%nat by nia.
    rewrite Nat.iter_add. by eapply iter_closed.
  - intros (b & c & _ & Hc & Hxc).
    pose proof (inv_attr trans s Hinv b c Hc) as Hrec.
    destruct (recorded_orbit trans s b c Hrec) as (t & Hlast & Horb & Hper).
    exists (length c). split.
    + destruct c; [by apply elem_of_nil in Hxc|simpl; lia].
    + rewrite <- elem_of_rev, Horb in Hxc.
      apply list_elem_of_lookup in Hxc as [a Ha].
      pose proof (lookup_lt_Some _ _ _ Ha) as Hlt. rewrite length_orbit in Hlt.
      rewrite orbit_lookup in Ha by done. injection Ha as <-.
      by apply iter_period.
Qed.

Lemma attractors_are_the_periodic_states_witness :
  (∃ m, (0 < m)%nat ∧ Nat.iter m (successor [1; 2; 0; 3; 3]) 4 = 4)
  ↔ (∃ (b : nat) c,
       [0; 0; 0; 1; 1] !! Z.to_nat 4 = Some (Z.of_nat b)
       ∧ [[2; 1; 0]; [3]] !! b = Some c ∧ 4 ∈ c).
Proof.
  apply (attractors_are_the_periodic_states [1; 2; 0; 3; 3]).
  - unfold wf_trans, in_range. simpl. repeat constructor; lia.
  - vm_compute. reflexivity.
  - unfold in_range. simpl. lia.
Defined.

(** The order in which basin ids are given out: every id below the
    counter is held by a state before [initial_state], and every state
    with an id is preceded by states holding each smaller id. *)
Definition ids_in_order (trans : list Z) (s : expound_vars) : Prop :=
  (∀ b', 0 ≤ b' < basin_number s →
     ∃ j, 0 ≤ j < initial_state s ∧ basins s !! Z.to_nat j = Some b')
  ∧ (∀ i b, in_range (length trans) i → basins s !! Z.to_nat i = Some b →
       ∀ b', 0 ≤ b' < b →
         ∃ j, 0 ≤ j < i ∧ basins s !! Z.to_nat j = Some b').

Lemma reachable_ids_in_order trans s :
  wf_trans trans → reachable trans s → ids_in_order trans s.
Proof.
  intros Hwf. induction 1 as [|s s' Hreach [HK HJ] Hlt Hbody].
  { split.
    - unfold expound_init. proj_vars. intros b' ?. lia.
    - unfold expound_init. proj_vars. intros i b [??] Hb b' Hb'.
      rewrite lookup_replicate_2 in Hb by lia. injection Hb as <-. lia. }
  pose proof (reachable_inv trans Hwf s Hreach) as Hinv.
  destruct (reachable_step_form trans s s' Hwf Hreach Hlt Hbody)
    as (state & rest & b & i0' & Hfp & Hterm & Hb & (Hi0' & Hsc1 & Hsc2) & ->).
  pose proof (inv_i0 trans s Hinv) as Hi0.
  pose proof Hfp as ((ext & HP) & _ & Hr & _ & Hfresh).
  rewrite Forall_forall in Hr.
  assert (∀ x, x ∈ state :: rest → initial_state s ≤ x) as Hafter.
  { intros x Hx. destruct (decide (initial_state s ≤ x)) as [|Hbefore]; [done|].
    destruct (Hr x Hx). pose proof (Hfresh x Hx) as Hf.
    rewrite (inv_below trans s Hinv x) in Hf by lia. done. }
  assert (initial_state s ∈ state :: rest) as Hstart.
  { rewrite HP. apply elem_of_app. right. left. }
  set (v := if b =? -1 then basin_number s else b).
  assert (∀ j, 0 ≤ j < initial_state s →
    assign (rev (state :: rest)) v (basins s) !! Z.to_nat j
    = basins s !! Z.to_nat j) as Hkeep.
  { intros j Hj. apply (fresh_path_basin_other trans s); [done|lia|].
    intros Hin. specialize (Hafter j Hin). lia. }
  assert (initial_state s < i0') as Hadvance.
  { destruct (decide (i0' = initial_state s)) as [Heq|]; [|lia].
    rewrite Heq in Hsc2. specialize (Hsc2 Hlt).
    rewrite (fresh_path_marked trans s _ _ Hinv Hfp Hstart) in Hsc2. done. }
  assert (0 ≤ v ≤ basin_number s
          ∧ (v = basin_number s → b = -1)) as Hv.
  { unfold v. destruct (Z.eqb_spec b (-1)) as [->|Hne].
    - rewrite (inv_k trans s Hinv). lia.
    - pose proof (terminus_off_path trans Hwf s state rest b Hinv Hfp Hb Hne)
        as Hold.
      destruct (inv_vis trans s Hinv (successor trans state))
        as (bn & c & _ & Hbn & Hc & _); [|done|].
      { apply successor_in_range; [done|]. apply Hr. left. }
      apply lookup_lt_Some in Hc. rewrite (inv_k trans s Hinv).
      rewrite Hb in Hbn. injection Hbn as ->. lia. }
  assert (basins (close_path s (state :: rest) (successor trans state) b i0')
          = assign (rev (state :: rest)) v (basins s)) as Hbas.
  { unfold close_path, v. by destruct (b =? -1). }
  assert (initial_state
            (close_path s (state :: rest) (successor trans state) b i0') = i0')
    as Hinit.
  { unfold close_path. by destruct (b =? -1). }
  assert (basin_number
            (close_path s (state :: rest) (successor trans state) b i0')
          = if b =? -1 then basin_number s + 1 else basin_number s) as Hnum.
  { unfold close_path. by destruct (b =? -1). }
  split; rewrite Hbas; [rewrite Hinit, Hnum|].
  - intros b' Hb'.
    destruct (decide (b' < basin_number s)) as [Hlow|Hnew].
    + destruct (HK b') as (j & Hj & Hbj); [lia|].
      exists j. split; [lia|]. by rewrite Hkeep.
    + destruct (Z.eqb_spec b (-1)) as [->|]; [|lia].
      exists (initial_state s). split; [lia|].
      replace b' with v by (unfold v; simpl; lia).
      by apply (fresh_path_basin trans s).
  - intros i bi Hi Hbi b' Hb'.
    destruct (decide (i ∈ state :: rest)) as [Hin|Hout].
    + rewrite (fresh_path_basin trans s _ _ _ Hinv Hfp Hin) in Hbi.
      injection Hbi as <-.
      destruct (HK b') as (j & Hj & Hbj); [lia|].
      exists j. specialize (Hafter i Hin). split; [lia|]. by rewrite Hkeep.
    + destruct Hi as [Hi1 Hi2].
      rewrite (fresh_path_basin_other trans s) in Hbi by done.
      destruct (HJ i bi (conj Hi1 Hi2) Hbi b' Hb') as (j & Hj & Hbj).
      exists j. split; [done|].
      rewrite (fresh_path_basin_other trans s); [done|done|lia|].
      intros Hjin. pose proof (Hfresh j Hjin) as Hf.
      rewrite (inv_unvis trans s Hinv j) in Hbj; [|apply Hr; done|done].
      injection Hbj as <-. lia.
Qed.

(** X3. Basin ids follow the order of discovery: in the [basins] array
    every id [b] is preceded, at smaller indices, by every id below [b];
    in particular state 0 is in basin 0, and the first state of basin
    [b + 1] comes after the first state of basin [b]. *)
Theorem basin_ids_in_discovery_order trans bas attrs :
  wf_trans trans →
  expound (Z.of_nat (length trans)) trans = Ok (bas, attrs) →
  (∀ i b, in_range (length trans) i → bas !! Z.to_nat i = Some b →
     ∀ b', 0 ≤ b' < b → ∃ j, 0 ≤ j < i ∧ bas !! Z.to_nat j = Some b')
  ∧ (trans ≠ [] → bas !! 0%nat = Some 0).
Proof.
  intros Hwf Hrun.
  destruct (expound_reachable trans bas attrs Hrun) as (s & Hreach & -> & -> & _).
  destruct (reachable_ids_in_order trans s Hwf Hreach) as [_ HJ].
  split; [done|]. intros Hne.
  destruct (expound_result trans _ _ Hwf Hrun) as (s' & Hb & _ & _ & Hall).
  assert (in_range (length trans) 0) as H0.
  { unfold in_range. destruct trans; [done|simpl; lia]. }
  destruct (Hall 0 H0) as (b & _ & _ & Hb0 & _).
  rewrite <- Hb in Hb0. change (Z.to_nat 0) with 0%nat in Hb0.
  rewrite Hb0. do 2 f_equal.
  destruct (decide (b = 0%nat)) as [->|Hpos]; [done|].
  destruct (HJ 0 (Z.of_nat b) H0 Hb0 0) as (j & ? & _); lia.
Qed.

Lemma basin_ids_in_discovery_order_witness :
  (∀ i b, in_range 5 i → [0; 0; 0; 1; 1] !! Z.to_nat i = Some b →
     ∀ b', 0 ≤ b' < b → ∃ j, 0 ≤ j < i ∧ [0; 0; 0; 1; 1] !! Z.to_nat j = Some b')
  ∧ ([1; 2; 0; 3; 3] ≠ [] → [0; 0; 0; 1; 1] !! 0%nat = Some 0).
Proof.
  apply (basin_ids_in_discovery_order [1; 2; 0; 3; 3] [0; 0; 0; 1; 1]
           [[2; 1; 0]; [3]]).
  - unfold wf_trans, in_range. simpl. repeat constructor; lia.
  - vm_compute. reflexivity.
Defined.

(* ================================================================= *)
(** ** Termination on arbitrary tables *)

(** A call that came back: it returned or raised [IndexError]. *)
Definition returns_or_IndexError {A : Type} (r : result A) : Prop :=
  (∃ a, r = Ok a) ∨ r = Raise IndexError.

Lemma getitem_cases {A : Type} (a : list A) i :
  (∃ k x, norm_index (length a) i = Some k ∧ a !! k = Some x
          ∧ getitem a i = Ok x)
  ∨ getitem a i = Raise IndexError.
Proof.
  unfold getitem. destruct (norm_index (length a) i) as [k|]; [|by right].
  destruct (a !! k) as [x|] eqn:Hx; [|by right].
  left. by exists k, x.
Qed.

Lemma setitem_cases {A : Type} (a : list A) i x :
  (∃ k, norm_index (length a) i = Some k ∧ setitem a i x = Ok (<[k:=x]> a))
  ∨ setitem a i x = Raise IndexError.
Proof.
  unfold setitem. destruct (norm_index (length a) i) as [k|]; [|by right].
  left. by exists k.
Qed.

Lemma walk_returns trans fuel vis state next stack :
  (length vis < fuel + nvisited vis)%nat →
  (∃ vis' state' next' stack',
     walk fuel trans vis state next stack = Ok (vis', state', next', stack')
     ∧ length vis' = length vis
     ∧ (nvisited vis ≤ nvisited vis')%nat)
  ∨ walk fuel trans vis state next stack = Raise IndexError.
Proof.
  revert vis state next stack.
  induction fuel as [|fuel IH]; intros vis state next stack Hfuel.
  { pose proof (nvisited_le vis). lia. }
  simpl.
  destruct (getitem_cases vis next) as [(k & b & Hk & Hb & ->)| ->];
    [|by right].
  cbn [bind]. destruct b.
  { left. by exists vis, state, next, stack. }
  destruct (getitem_cases trans next) as [(_ & y & _ & _ & ->)| ->];
    [|by right].
  cbn [bind]. unfold setitem. rewrite Hk. cbn [bind].
  destruct (IH (<[k:=true]> vis) next y (state :: stack))
    as [(vis' & state' & next' & stack' & -> & Hlen & Hnv)| ->]; [| |by right].
  { rewrite length_insert, nvisited_insert by done. lia. }
  left. exists vis', state', next', stack'.
  rewrite length_insert in Hlen. rewrite nvisited_insert in Hnv by done.
  split_and!; [done|done|lia].
Qed.

Lemma unwind_returns stack bas basin t in_cycle cycle :
  (∃ bas' cycle',
     unwind stack bas basin t in_cycle cycle = Ok (bas', cycle'))
  ∨ unwind stack bas basin t in_cycle cycle = Raise IndexError.
Proof.
  revert bas in_cycle cycle.
  induction stack as [|x stack IH]; intros bas in_cycle cycle; simpl.
  { left. by eexists _, _. }
  destruct (setitem_cases bas x basin) as [(k & _ & ->)| ->]; [|by right].
  cbn [bind]. destruct in_cycle; apply IH.
Qed.

(** What holds of [initial_state] at the head of the outer loop, whatever
    the table: it is not negative and, inside the array, not visited. *)
Definition at_unvisited (s : expound_vars) : Prop :=
  0 ≤ initial_state s
  ∧ (initial_state s < Z.of_nat (length (visited s)) →
     visited s !! Z.to_nat (initial_state s) = Some false).

Lemma expound_body_returns trans s :
  at_unvisited s →
  (∃ s', expound_body trans s = Ok s' ∧ at_unvisited s'
         ∧ length (visited s') = length (visited s)
         ∧ (nvisited (visited s) < nvisited (visited s'))%nat)
  ∨ expound_body trans s = Raise IndexError.
Proof.
  intros [Hi0 Hfresh]. unfold expound_body, expound_walk.
  destruct (getitem_cases trans (initial_state s))
    as [(_ & y & _ & _ & ->)| ->]; [|by right].
  cbn [bind].
  destruct (setitem_cases (visited s) (initial_state s) true)
    as [(k & Hk & ->)| ->]; [|by right].
  cbn [bind].
  assert (initial_state s < Z.of_nat (length (visited s))
          ∧ k = Z.to_nat (initial_state s)) as [Hin ->].
  { unfold norm_index in Hk. repeat case_bool_decide; simplify_eq; lia. }
  specialize (Hfresh Hin).
  destruct (walk_returns trans
              (length (<[Z.to_nat (initial_state s):=true]> (visited s)))
              (<[Z.to_nat (initial_state s):=true]> (visited s))
              (initial_state s) y [])
    as [(vis' & state' & next' & stack' & -> & Hlen & Hnv)| ->]; [| |by right].
  { rewrite nvisited_insert by done. lia. }
  rewrite length_insert in Hlen. rewrite nvisited_insert in Hnv by done.
  cbn [bind].
  destruct (getitem_cases (basins s) next') as [(_ & b & _ & _ & ->)| ->];
    [|by right].
  cbn [bind].
  destruct (scan_spec (S (length vis')) vis' (initial_state s))
    as (i0' & Hscan & Hi0' & _ & Hnext); [lia|lia|].
  destruct (b =? -1).
  - destruct (setitem_cases (basins s) state' (basin_number s))
      as [(k & _ & ->)| ->]; [|by right].
    cbn [bind].
    destruct (unwind_returns stack' (<[k:=basin_number s]> (basins s))
                (basin_number s) next' (negb (next' =? state')) [state'])
      as [(bas' & cycle' & ->)| ->]; [|by right].
    cbn [bind]. rewrite Hscan. cbn [bind]. left. eexists. split; [done|].
    unfold at_unvisited. proj_vars. split_and!; [lia|done|done|lia].
  - destruct (setitem_cases (basins s) state' b) as [(k & _ & ->)| ->];
      [|by right].
    cbn [bind].
    destruct (unwind_returns stack' (<[k:=b]> (basins s)) b next' false [])
      as [(bas' & cycle' & ->)| ->]; [|by right].
    cbn [bind]. rewrite Hscan. cbn [bind]. left. eexists. split; [done|].
    unfold at_unvisited. proj_vars. split_and!; [lia|done|done|lia].
Qed.

Lemma expound_loop_returns trans fuel s :
  at_unvisited s →
  (length (visited s) < fuel + nvisited (visited s))%nat →
  returns_or_IndexError (expound_loop fuel trans s).
Proof.
  revert s. induction fuel as [|fuel IH]; intros s Hs Hfuel.
  { pose proof (nvisited_le (visited s)). lia. }
  simpl. case_bool_decide; [|left; by eexists].
  destruct (expound_body_returns trans s Hs)
    as [(s' & -> & Hs' & Hlen & Hnv)| ->]; [|by right].
  cbn [bind]. apply IH; [done|]. rewrite Hlen. lia.
Qed.

(** X4. The decomposition terminates on every table and every volume
    that is not negative, also when the table is not well formed (entries
    that are negative or beyond the array, a volume that is not the
    length of the table): it returns, or it raises [IndexError]; the fuel
    the model gives its loops is never exhausted. *)
Theorem expound_terminates volume trans :
  0 ≤ volume →
  returns_or_IndexError (expound volume trans).
Proof.
  intros _. unfold expound.
  destruct (expound_loop_returns trans (S (Z.to_nat volume))
              (expound_init volume)) as [[s Hs]|Hs].
  - unfold at_unvisited, expound_init. proj_vars. split; [done|].
    rewrite length_replicate. intros ?. apply lookup_replicate_2. lia.
  - unfold expound_init. proj_vars. rewrite length_replicate. lia.
  - rewrite Hs. left. by eexists.
  - rewrite Hs. by right.
Qed.

Lemma expound_terminates_witness :
  returns_or_IndexError (expound 3 [1; -1; 7]).
Proof. apply (expound_terminates 3 [1; -1; 7]). lia. Defined.

Example expound_ill_formed :
  expound 3 [1; -1; 7] = Raise IndexError
  ∧ expound 3 [-2; -1; 0] = Ok ([0; 0; 0], [[-1; -2; 0]])
  ∧ expound 2 [1; 0; 0] = Raise IndexError.
Proof. vm_compute. done. Qed.

Lemma bind_terminates {A B : Type} (m : result A) (k : A → result B) :
  m ≠ OutOfFuel → (∀ a, k a ≠ OutOfFuel) → bind m k ≠ OutOfFuel.
Proof. intros Hm Hk. destruct m; simpl; [apply Hk|done|done]. Qed.

Lemma getitem_terminates {A : Type} (a : list A) i : getitem a i ≠ OutOfFuel.
Proof. unfold getitem. by repeat case_match. Qed.

Lemma setitem_terminates {A : Type} (a : list A) i x :
  setitem a i x ≠ OutOfFuel.
Proof. unfold setitem. by repeat case_match. Qed.

Lemma getitem_elem_of {A : Type} (a : list A) i x :
  getitem a i = Ok x → x ∈ a.
Proof.
  destruct (getitem_cases a i) as [(k & y & _ & Hy & ->)| ->]; [|done].
  intros [= <-]. by eapply list_elem_of_lookup_2.
Qed.

Lemma fill_path_terminates trans indices path :
  fill_path trans indices path ≠ OutOfFuel.
Proof.
  revert path. induction indices as [|i indices IH]; intros path; [done|].
  simpl. apply bind_terminates; [apply getitem_terminates|]. intros prev.
  apply bind_terminates; [apply getitem_terminates|]. intros next.
  apply bind_terminates; [apply setitem_terminates|]. intros path'. apply IH.
Qed.

(** The states appended by the until-repeat loop are pairwise distinct
    entries of the table, so the loop ends before its fuel does. *)
Lemma until_repeat_terminates trans fuel junk q state :
  NoDup q → (∀ x, x ∈ q → x ∈ trans) → state ∈ trans →
  (length trans < fuel + length q)%nat →
  until_repeat fuel trans (junk ++ q) state ≠ OutOfFuel.
Proof.
  revert q state. induction fuel as [|fuel IH]; intros q state Hnd Hq Hst Hfuel.
  { assert (length q ≤ length trans)%nat; [|lia].
    by apply submseteq_length, NoDup_submseteq. }
  simpl. case_bool_decide as Hin; [done|].
  destruct (getitem trans state) as [y| |] eqn:Hy; [|done|].
  2:{ by apply getitem_terminates in Hy. }
  cbn [bind]. rewrite <- app_assoc. apply IH.
  - apply NoDup_app. split_and!; [done| |apply NoDup_singleton].
    intros x Hx Hx'. apply list_elem_of_singleton in Hx' as ->.
    apply Hin. apply elem_of_app. by right.
  - intros x Hx. apply elem_of_app in Hx as [Hx|Hx]; [by apply Hq|].
    by apply list_elem_of_singleton in Hx as ->.
  - by eapply getitem_elem_of.
  - rewrite length_app. simpl. lia.
Qed.

Lemma decode_all_terminates sp path : decode_all sp path ≠ OutOfFuel.
Proof.
  induction path as [|i path IH]; [done|]. simpl.
  apply bind_terminates.
  - unfold StateSpace_decode. by case_match.
  - intros v. apply bind_terminates; [done|]. done.
Qed.

(** X5. [Landscape.trajectory] terminates on every input, whatever the
    table, the initial state, the step count and the flag: it returns or
    raises, and in until-repeat mode the loop ends within the
    [len(transitions) + 1] tests of its condition the model allows. *)
Theorem trajectory_terminates self init timesteps encode :
  Landscape_trajectory self init timesteps encode ≠ OutOfFuel.
Proof.
  unfold Landscape_trajectory. apply bind_terminates.
  - destruct init as [v|v|i]; [| |done].
    + destruct (eq_empty_list (InitList v)); [done|].
      apply bind_terminates; [|done].
      unfold StateSpace_encode. by case_match.
    + destruct (eq_empty_list (InitArray v)); [done|].
      apply bind_terminates; [|done].
      unfold StateSpace_encode. by case_match.
  - intros [idx enc]. apply bind_terminates.
    + unfold trajectory_path. destruct timesteps as [t|].
      * case_match; [done|]. apply fill_path_terminates.
      * destruct (getitem (__transitions self) idx) as [y| |] eqn:Hy; [|done|].
        2:{ by apply getitem_terminates in Hy. }
        cbn [bind].
        apply (until_repeat_terminates (__transitions self) _ [idx] [] y).
        -- constructor.
        -- intros x Hx. by apply elem_of_nil in Hx.
        -- by eapply getitem_elem_of.
        -- simpl. lia.
    + intros path. destruct (negb enc); [apply decode_all_terminates|done].
Qed.

(* ================================================================= *)
(** ** Trajectories and attractors *)

(** X6. With a step count of at least 1 and a valid initial state, entry
    [j] of the fixed-step trajectory is the state reached after [j]
    applications of the transitions, for every [j] up to [timesteps]; so
    a trajectory with fewer steps is the beginning of one with more. *)
Theorem trajectory_fixed_is_orbit self init idx encode timesteps :
  wf_landscape self → denotes self init idx → 1 ≤ timesteps →
  Landscape_trajectory self init (Some timesteps) encode
  = Ok (shown self (encodes init encode)
          <$> orbit (__transitions self) idx (S (Z.to_nat timesteps)))
  ∧ ∀ timesteps' path path',
      timesteps ≤ timesteps' →
      Landscape_trajectory self init (Some timesteps) encode = Ok path →
      Landscape_trajectory self init (Some timesteps') encode = Ok path' →
      path = take (S (Z.to_nat timesteps)) path'.
Proof.
  intros Hwf Hd Ht.
  pose proof (denotes_in_range self init idx Hwf Hd) as Hidx.
  assert (∀ t, 1 ≤ t →
    Landscape_trajectory self init (Some t) encode
    = Ok (shown self (encodes init encode)
            <$> orbit (__transitions self) idx (S (Z.to_nat t)))) as Hall.
  { intros t Ht1. destruct Hwf as [Hvol Hwft].
    apply (trajectory_shown self init idx); [done|done| |].
    - rewrite orbit_S.
      apply trajectory_path_fixed; [done| |by apply successor_in_range|done].
      by apply getitem_trans.
    - by apply orbit_in_range. }
  split; [by apply Hall|].
  intros t' path path' Hle Hpath Hpath'.
  rewrite Hall in Hpath, Hpath' by lia.
  assert (path = shown self (encodes init encode)
                   <$> orbit (__transitions self) idx (S (Z.to_nat timesteps)))
    as -> by congruence.
  assert (path' = shown self (encodes init encode)
                    <$> orbit (__transitions self) idx (S (Z.to_nat t')))
    as -> by congruence.
  rewrite <- fmap_take. f_equal. unfold orbit.
  rewrite <- fmap_take, take_seq. do 2 f_equal. lia.
Qed.

Lemma trajectory_fixed_is_orbit_witness :
  Landscape_trajectory scenario1 (InitInt 0) (Some 2) None
  = Ok (shown scenario1 (encodes (InitInt 0) None)
          <$> orbit (__transitions scenario1) 0 (S (Z.to_nat 2)))
  ∧ ∀ timesteps' path path',
      2 ≤ timesteps' →
      Landscape_trajectory scenario1 (InitInt 0) (Some 2) None = Ok path →
      Landscape_trajectory scenario1 (InitInt 0) (Some timesteps') None
        = Ok path' →
      path = take (S (Z.to_nat 2)) path'.
Proof.
  apply (trajectory_fixed_is_orbit scenario1 (InitInt 0) 0 None 2).
  - exact scenario1_wf.
  - apply denotes_int. unfold in_range. simpl. lia.
  - lia.
Defined.

Lemma iter_mod trans (p d : nat) z :
  (0 < p)%nat → Nat.iter p (successor trans) z = z →
  Nat.iter d (successor trans) z = Nat.iter (d mod p) (successor trans) z.
Proof.
  intros Hp Hper.
  transitivity (Nat.iter (d mod p + (d / p) * p) (successor trans) z).
  - f_equal. pose proof (Nat.div_mod_eq d p). nia.
  - by rewrite Nat.iter_add, iter_multiple.
Qed.

(** Two states of one recorded cycle: each is reached from the other. *)
Lemma cycle_connected trans s k c z x :
  recorded trans s k c → z ∈ c → x ∈ c →
  ∃ d, Nat.iter d (successor trans) z = x.
Proof.
  intros Hrec Hz Hx.
  destruct (recorded_orbit trans s k c Hrec) as (t & _ & Horb & Hper).
  assert (∀ y, y ∈ c → ∃ a, (a < length c)%nat
            ∧ y = Nat.iter a (successor trans) t) as Hpos.
  { intros y Hy. rewrite <- elem_of_rev, Horb in Hy.
    apply list_elem_of_lookup in Hy as [a Ha].
    pose proof (lookup_lt_Some _ _ _ Ha) as Hlt. rewrite length_orbit in Hlt.
    rewrite orbit_lookup in Ha by done. exists a. split; [done|congruence]. }
  destruct (Hpos z Hz) as (a & Ha & ->). destruct (Hpos x Hx) as (a' & Ha' & ->).
  exists (a' + length c - a)%nat. rewrite <- Nat.iter_add.
  replace (a' + length c - a + a)%nat with (a' + length c)%nat by lia.
  by rewrite Nat.iter_add, Hper.
Qed.

(** X7. The until-repeat trajectory of a valid initial state ends on the
    attractor of the basin of that state and goes once around it: its
    last entry is a state of [attractors[basins[init]]], and every state
    of that attractor is an entry of the trajectory. *)
Theorem trajectory_ends_on_attractor self init idx encode :
  wf_landscape self → denotes self init idx →
  ∃ (L : nat) bas attrs (b : nat) c,
    Landscape_trajectory self init None encode
      = Ok (shown self (encodes init encode)
              <$> orbit (__transitions self) idx L)
    ∧ expound (volume (space self)) (__transitions self) = Ok (bas, attrs)
    ∧ bas !! Z.to_nat idx = Some (Z.of_nat b)
    ∧ attrs !! b = Some c
    ∧ (1 ≤ L)%nat
    ∧ Nat.iter (L - 1) (successor (__transitions self)) idx ∈ c
    ∧ ∀ x, x ∈ c → x ∈ orbit (__transitions self) idx L.
Proof.
  intros Hwf Hd.
  pose proof (denotes_in_range self init idx Hwf Hd) as Hidx.
  pose proof Hwf as [Hvol Hwft].
  destruct (trajectory_path_until (__transitions self) idx Hwft Hidx)
    as (L & Hpath & HL & Hnd & Hstop).
  destruct (expound_final _ Hwft) as (s & Hs & Hinv & Hall).
  rewrite <- Hvol in Hs.
  apply list_elem_of_lookup in Hstop as [j Hj].
  pose proof (lookup_lt_Some _ _ _ Hj) as Hjl. rewrite length_orbit in Hjl.
  rewrite orbit_lookup in Hj by done. injection Hj as Hj.
  set (z := Nat.iter j (successor (__transitions self)) idx) in *.
  assert (in_range (length (__transitions self)) z) as Hz
    by by apply iter_in_range.
  assert (Nat.iter (L - j) (successor (__transitions self)) z = z) as Hper.
  { unfold z at 1. rewrite <- Nat.iter_add.
    replace (L - j + j)%nat with L by lia. done. }
  destruct (periodic_on_attractor _ s z (L - j) Hinv Hall Hz ltac:(lia) Hper)
    as (b & c & Hb & Hc & Hzc).
  pose proof (inv_attr _ s Hinv b c Hc) as Hrec.
  unfold z in Hb. rewrite settled_iter in Hb by done.
  exists L, (basins s), (attractors s), b, c.
  split_and!; [|done|done|done|lia| |].
  - apply (trajectory_shown self init idx); [done|done|done|].
    by apply orbit_in_range.
  - replace (L - 1)%nat with ((L - 1 - j) + j)%nat by lia.
    rewrite Nat.iter_add. by eapply iter_closed.
  - intros x Hx. destruct (cycle_connected _ s b c z x Hrec Hzc Hx) as [d <-].
    rewrite (iter_mod _ (L - j) d z) by (done || lia).
    unfold z. rewrite <- Nat.iter_add.
    apply list_elem_of_lookup. exists ((d mod (L - j)) + j)%nat.
    apply orbit_lookup.
    pose proof (Nat.mod_upper_bound d (L - j)). lia.
Qed.

Lemma trajectory_ends_on_attractor_witness :
  ∃ (L : nat) bas attrs (b : nat) c,
    Landscape_trajectory scenario1 (InitInt 0) None None
      = Ok (shown scenario1 (encodes (InitInt 0) None)
              <$> orbit (__transitions scenario1) 0 L)
    ∧ expound (volume (space scenario1)) (__transitions scenario1)
      = Ok (bas, attrs)
    ∧ bas !! Z.to_nat 0 = Some (Z.of_nat b)
    ∧ attrs !! b = Some c
    ∧ (1 ≤ L)%nat
    ∧ Nat.iter (L - 1) (successor (__transitions scenario1)) 0 ∈ c
    ∧ ∀ x, x ∈ c → x ∈ orbit (__transitions scenario1) 0 L.
Proof.
  apply (trajectory_ends_on_attractor scenario1 (InitInt 0) 0 None).
  - exact scenario1_wf.
  - apply denotes_int. unfold in_range. simpl. lia.
Defined.

(* ================================================================= *)
(** ** The free function [attractors] and the landscape *)

(** The two decompositions use different marks for a state without basin
    ([-1] in [Landscape.__expound], [0] in the free function) and
    different basin numbers; their [basins] arrays agree on which states
    have a basin. *)
Definition same_marks (bas basl : list Z) : Prop :=
  length basl = length bas
  ∧ ∀ j, bas !! j = Some (-1) ↔ basl !! j = Some 0.

(** The variables of the two decompositions, run side by side. *)
Definition side_by_side (s sl : expound_vars) : Prop :=
  visited sl = visited s
  ∧ initial_state sl = initial_state s
  ∧ same_marks (basins s) (basins sl)
  ∧ 0 ≤ basin_number s
  ∧ basin_number sl = 1.

Lemma norm_index_lt len i k : norm_index len i = Some k → (k < len)%nat.
Proof.
  unfold norm_index. repeat case_bool_decide; intros [= <-]; lia.
Qed.

Lemma setitem_same_marks bas basl i basin basinl bas' :
  same_marks bas basl → basin ≠ -1 → basinl ≠ 0 →
  setitem bas i basin = Ok bas' →
  ∃ basl', setitem basl i basinl = Ok basl' ∧ same_marks bas' basl'.
Proof.
  intros [Hlen Hmarks] Hb Hbl. unfold setitem. rewrite Hlen.
  destruct (norm_index (length bas) i) as [k|] eqn:Hk; [|done].
  intros [= <-]. eexists. split; [done|].
  apply norm_index_lt in Hk. split.
  - by rewrite !length_insert.
  - intros j. destruct (decide (j = k)) as [->|Hne].
    + rewrite !list_lookup_insert_eq by lia. split; intros [=]; done.
    + rewrite !list_lookup_insert_ne by done. apply Hmarks.
Qed.

Lemma unwind_same_marks stack bas basl basin basinl t in_cycle cycle bas' cycle' :
  same_marks bas basl → basin ≠ -1 → basinl ≠ 0 →
  unwind stack bas basin t in_cycle cycle = Ok (bas', cycle') →
  ∃ basl', unwind stack basl basinl t in_cycle cycle = Ok (basl', cycle')
           ∧ same_marks bas' basl'.
Proof.
  intros Hm Hb Hbl. revert bas basl in_cycle cycle Hm.
  induction stack as [|x stack IH]; intros bas basl in_cycle cycle Hm; simpl.
  { intros [= <- <-]. by exists basl. }
  destruct (setitem bas x basin) as [bas1| |] eqn:Hset; [|done|done].
  destruct (setitem_same_marks bas basl x basin basinl bas1 Hm Hb Hbl Hset)
    as (basl1 & -> & Hm1).
  cbn [bind]. destruct in_cycle; by apply IH.
Qed.

Lemma getitem_same_marks bas basl i b :
  same_marks bas basl → getitem bas i = Ok b →
  ∃ bl, getitem basl i = Ok bl ∧ (b = -1 ↔ bl = 0).
Proof.
  intros [Hlen Hmarks].
  destruct (getitem_cases bas i) as [(k & x & Hk & Hx & ->)| ->]; [|done].
  intros [= <-]. unfold getitem. rewrite Hlen, Hk.
  destruct (basl !! k) as [bl|] eqn:Hbl.
  - exists bl. split; [done|]. split.
    + intros ->. apply Hmarks in Hx. congruence.
    + intros ->. apply Hmarks in Hbl. congruence.
  - apply lookup_ge_None in Hbl. apply norm_index_lt in Hk. lia.
Qed.

(** One iteration of [Landscape.__expound] and one iteration of the free
    function do the same, and the cycle the free function yields is the
    one the method appends. *)
Lemma attractors_body_simulates trans s sl s' :
  side_by_side s sl → expound_body trans s = Ok s' →
  ∃ sl' cycle,
    attractors_body trans sl = Ok (sl', cycle)
    ∧ side_by_side s' sl'
    ∧ attractors s'
      = attractors s
        ++ (if bool_decide (length cycle ≠ 0%nat) then [cycle] else []).
Proof.
  intros (Hvis & Hi0 & Hm & Hnum & Hnuml).
  unfold expound_body, attractors_body, expound_walk.
  rewrite Hvis, Hi0.
  destruct (let* next_state := getitem trans (initial_state s) in _)
    as [[[[vis' state'] next'] stack']| |]; [|done|done].
  cbn [bind].
  destruct (getitem (basins s) next') as [b| |] eqn:Hb; [|done|done].
  destruct (getitem_same_marks _ _ _ _ Hm Hb) as (bl & -> & Hbbl).
  cbn [bind].
  destruct (Z.eqb_spec b (-1)) as [->|Hne].
  - replace (bl =? 0) with true by lia.
    assert (basin_number s ≠ -1) as Hnew by lia.
    assert (basin_number sl ≠ 0) as Hnewl by lia.
    destruct (setitem (basins s) state' (basin_number s))
      as [bas1| |] eqn:Hset; [|done|done].
    destruct (setitem_same_marks _ _ _ _ (basin_number sl) _ Hm
                Hnew Hnewl Hset) as (basl1 & -> & Hm1).
    cbn [bind].
    destruct (unwind stack' bas1 (basin_number s) next' _ [state'])
      as [[bas2 cyc]| |] eqn:Hun; [|done|done].
    destruct (unwind_same_marks _ _ _ _ (basin_number sl) _ _ _ _ _ Hm1
                Hnew Hnewl Hun) as (basl2 & -> & Hm2).
    cbn [bind].
    destruct (scan (S (length vis')) vis' (initial_state s)) as [i0'| |];
      [|done|done].
    cbn [bind]. intros [= <-]. eexists _, _. split; [done|].
    split; [|proj_vars; case_bool_decide; by rewrite ?app_nil_r].
    unfold side_by_side. proj_vars.
    split_and!; [done|done|done|lia|done].
  - replace (bl =? 0) with false by lia.
    assert (bl ≠ 0) as Hnel by lia.
    destruct (setitem (basins s) state' b) as [bas1| |] eqn:Hset; [|done|done].
    destruct (setitem_same_marks _ _ _ _ bl _ Hm Hne Hnel Hset)
      as (basl1 & -> & Hm1).
    cbn [bind].
    destruct (unwind stack' bas1 b next' false [])
      as [[bas2 cyc]| |] eqn:Hun; [|done|done].
    destruct (unwind_same_marks _ _ _ _ bl _ _ _ _ _ Hm1 Hne Hnel Hun)
      as (basl2 & -> & Hm2).
    cbn [bind].
    destruct (scan (S (length vis')) vis' (initial_state s)) as [i0'| |];
      [|done|done].
    cbn [bind]. intros [= <-]. eexists _, _. split; [done|].
    split; [|proj_vars; case_bool_decide; by rewrite ?app_nil_r].
    unfold side_by_side. proj_vars.
    split_and!; done.
Qed.

Lemma attractors_loop_simulates trans fuel s sl s' :
  side_by_side s sl → expound_loop fuel trans s = Ok s' →
  ∃ cycles,
    attractors_loop fuel trans sl = (cycles, Ok ())
    ∧ attractors s' = attractors s ++ cycles.
Proof.
  revert s sl. induction fuel as [|fuel IH]; intros s sl Hside Hloop; [done|].
  simpl in *. destruct Hside as (Hvis & Hi0 & Hrest). rewrite Hi0.
  case_bool_decide.
  - destruct (expound_body trans s) as [s1| |] eqn:Hbody; [|done|done].
    cbn [bind] in Hloop.
    destruct (attractors_body_simulates trans s sl s1) as
      (sl1 & cycle & -> & Hside1 & Hattr); [done|done|].
    destruct (IH s1 sl1 Hside1 Hloop) as (cycles & -> & Hattr').
    eexists. split; [done|]. by rewrite Hattr', Hattr, <- app_assoc.
  - injection Hloop as <-. exists []. by rewrite app_nil_r.
Qed.

Lemma indices_encoded l : indices (Encoded <$> l) = l.
Proof.
  induction l as [|x l IH]; [done|]. unfold indices in *. cbn. f_equal. exact IH.
Qed.

Lemma vectors_decoded l : vectors (Decoded <$> l) = l.
Proof.
  induction l as [|x l IH]; [done|]. unfold vectors in *. cbn. f_equal. exact IH.
Qed.

(** What the generator [transitions] yields for a network and a fitting
    size: the events and the table of the landscape of that network. *)
Lemma transitions_constructed net size events self encode :
  Landscape_init (PyNetwork net) size = (events, Ok self) →
  transitions (PyNetwork net) size encode
  = (events,
     (λ state, if encode
               then Encoded (StateSpace_unsafe_encode (space self)
                               (_unsafe_update net state))
               else Decoded (_unsafe_update net state))
       <$> StateSpace_iter (space self),
     None)
  ∧ __transitions self
    = (λ state, StateSpace_unsafe_encode (space self) (_unsafe_update net state))
        <$> StateSpace_iter (space self)
  ∧ (is_fixed_sized net = true ∧ size = None
     ∨ is_fixed_sized net = false ∧ size ≠ None)
  ∧ space self = state_space net size.
Proof.
  unfold Landscape_init, transitions, Landscape_setup.
  destruct (is_fixed_sized net), size as [sz|]; intros [= <- <-]; simpl;
    (split_and!; [done|done| |done]); [left|right]; done.
Qed.

(** X8. The free generator [attractors] and the landscape agree: for a
    network and a fitting size, whenever the property [attractors] of the
    landscape of that network returns, draining the free generator yields
    exactly the same cycles, in the same order, and ends normally, having
    asked the network for the same updates as the constructor. *)
Theorem free_attractors_agree net size events self events' cycles self' :
  Landscape_init (PyNetwork net) size = (events, Ok self) →
  0 ≤ volume (space self) →
  Landscape_attractors self = (events', Ok (Cycles cycles, self')) →
  synchronous_attractors (PyNetwork net) size = (events, cycles, Ok ()).
Proof.
  intros Hinit Hvol Hattr.
  destruct (transitions_constructed net size events self true Hinit)
    as (Htrans & Htable & Hsize & _).
  assert (volume (space self) = Z.of_nat (length (__transitions self))) as Hlen.
  { rewrite Htable. unfold StateSpace_iter.
    rewrite !length_fmap, length_seq. lia. }
  assert (__expounded self = false) as Hfresh.
  { revert Hinit. unfold Landscape_init, Landscape_setup.
    destruct (is_fixed_sized net), size; intros [= <- <-]; done. }
  assert (∃ bas, expound (Z.of_nat (length (__transitions self)))
                   (__transitions self) = Ok (bas, cycles)) as [bas Hrun].
  { revert Hattr. unfold Landscape_attractors, Landscape_expound.
    rewrite Hfresh, Hlen. cbn [negb].
    destruct (expound _ _) as [[bas attrs]| |]; [|done|done].
    cbn [bind getattr __attractors]. intros [= <- <- <-]. by exists bas. }
  unfold synchronous_attractors.
  replace (is_fixed_sized net && bool_decide (size ≠ None)) with false.
  2:{ destruct Hsize as [[-> ->]|[-> ?]]; [done|]. done. }
  replace (negb (is_fixed_sized net) && bool_decide (size = None)) with false.
  2:{ destruct Hsize as [[-> ->]|[-> ?]]; [done|].
      simpl. by rewrite bool_decide_eq_false_2. }
  rewrite Htrans.
  replace ((λ state, Encoded (StateSpace_unsafe_encode (space self)
                                (_unsafe_update net state)))
             <$> StateSpace_iter (space self))
    with (Encoded <$> __transitions self)
    by (by rewrite Htable, <- list_fmap_compose).
  rewrite indices_encoded.
  unfold expound in Hrun. rewrite Nat2Z.id in Hrun.
  destruct (expound_loop _ _ _) as [s| |] eqn:Hloop; [|done|done].
  cbn [bind] in Hrun. injection Hrun as <- <-.
  destruct (attractors_loop_simulates (__transitions self)
              (S (length (__transitions self)))
              (expound_init (Z.of_nat (length (__transitions self))))
              (attractors_init (__transitions self)) s) as (cyc & -> & Hcyc);
    [|done|].
  { unfold side_by_side, same_marks, expound_init, attractors_init. proj_vars.
    rewrite Nat2Z.id. split_and!; [done|done| | |done|done].
    - by rewrite !length_replicate.
    - intros j. rewrite !lookup_replicate. tauto. }
  unfold expound_init in Hcyc. proj_vars. by rewrite Hcyc.
Qed.

Lemma free_attractors_agree_witness :
  synchronous_attractors (PyNetwork scenario1_net) None
  = ([Enumerate (MkStateSpace [2; 2]);
      Update [0; 0]; Update [1; 0]; Update [0; 1]; Update [1; 1]],
     [[3]], Ok ()).
Proof.
  apply (free_attractors_agree scenario1_net None _ scenario1 [Expound] [[3]]
           (expounded_with scenario1 [0; 0; 0; 0] [[3]])).
  - vm_compute. reflexivity.
  - vm_compute. discriminate.
  - vm_compute. reflexivity.
Defined.

(* ================================================================= *)
(** ** The table and the dynamics of the network *)

Lemma in_bases_length bs v : in_bases bs v = true → length v = length bs.
Proof.
  revert v. induction bs as [|b bs IH]; intros [|x v] Hv; simpl in *; try done.
  apply andb_prop in Hv as [_ Hv]. by rewrite (IH v).
Qed.

Lemma StateSpace_iter_lookup sp (i : nat) :
  (i < Z.to_nat (volume sp))%nat →
  StateSpace_iter sp !! i = Some (decode_digits (bases sp) (Z.of_nat i)).
Proof.
  intros Hi. unfold StateSpace_iter.
  by rewrite list_lookup_fmap, lookup_seq_lt.
Qed.

Lemma closed_update_iter net sp v j :
  closed_update net sp → in_bases (bases sp) v = true →
  in_bases (bases sp) (Nat.iter j (_unsafe_update net) v) = true.
Proof.
  intros Hclosed Hv. induction j as [|j IH]; [done|]. simpl. by apply Hclosed.
Qed.

Lemma iterates_iter k step st :
  st :: iterates k step st = (λ j, Nat.iter j step st) <$> seq 0 (S k).
Proof.
  revert st. induction k as [|k IH]; intros st; [done|].
  rewrite <- cons_seq, fmap_cons. cbn [Nat.iter iterates nat_rect]. f_equal.
  rewrite IH, <- fmap_S_seq, <- list_fmap_compose.
  apply list_fmap_ext. intros _ j _. unfold compose.
  by rewrite Nat.iter_succ_r.
Qed.

(** X9. What the constructor builds, for a network whose update keeps the
    states inside the state space (all bases at least 1): a landscape that
    is not yet expounded, whose table has one cell per state, cell [i]
    holding the index, below [volume], of the update of the [i]-th state;
    the network has been asked for exactly one update per state, in the
    order of the states. *)
Theorem constructor_builds_table net size events self :
  Landscape_init (PyNetwork net) size = (events, Ok self) →
  Forall (λ b, 1 ≤ b) (bases (space self)) →
  closed_update net (space self) →
  space self = state_space net size
  ∧ __expounded self = false
  ∧ Z.of_nat (length (__transitions self)) = volume (space self)
  ∧ (∀ i, 0 ≤ i < volume (space self) →
       __transitions self !! Z.to_nat i
       = Some (StateSpace_unsafe_encode (space self)
                 (_unsafe_update net (decode_digits (bases (space self)) i)))
       ∧ 0 ≤ StateSpace_unsafe_encode (space self)
               (_unsafe_update net (decode_digits (bases (space self)) i))
           < volume (space self))
  ∧ events
    = Enumerate (space self)
      :: ((λ i : nat, Update (decode_digits (bases (space self)) (Z.of_nat i)))
            <$> seq 0 (Z.to_nat (volume (space self)))).
Proof.
  intros Hinit Hbs Hclosed.
  destruct (transitions_constructed net size events self true Hinit)
    as (_ & Htable & _ & Hspace).
  pose proof (volume_pos _ Hbs) as Hvol. fold (volume (space self)) in Hvol.
  split_and!.
  - done.
  - revert Hinit. unfold Landscape_init, Landscape_setup.
    destruct (is_fixed_sized net), size; intros [= <- <-]; done.
  - rewrite Htable. unfold StateSpace_iter.
    rewrite !length_fmap, length_seq. lia.
  - intros i Hi. split.
    + rewrite Htable, list_lookup_fmap, StateSpace_iter_lookup by lia.
      simpl. by rewrite Z2Nat.id by lia.
    + apply encode_digits_range, Hclosed, decode_digits_in_bases; done.
  - revert Hinit. unfold Landscape_init, Landscape_setup, StateSpace_iter.
    destruct (is_fixed_sized net), size; intros [= <- <-]; simpl;
      by rewrite <- list_fmap_compose.
Qed.

Lemma constructor_builds_table_witness :
  space scenario1 = state_space scenario1_net None
  ∧ __expounded scenario1 = false
  ∧ Z.of_nat (length (__transitions scenario1)) = volume (space scenario1)
  ∧ (∀ i, 0 ≤ i < volume (space scenario1) →
       __transitions scenario1 !! Z.to_nat i
       = Some (StateSpace_unsafe_encode (space scenario1)
                 (_unsafe_update scenario1_net
                    (decode_digits (bases (space scenario1)) i)))
       ∧ 0 ≤ StateSpace_unsafe_encode (space scenario1)
               (_unsafe_update scenario1_net
                  (decode_digits (bases (space scenario1)) i))
           < volume (space scenario1))
  ∧ [Enumerate (MkStateSpace [2; 2]);
     Update [0; 0]; Update [1; 0]; Update [0; 1]; Update [1; 1]]
    = Enumerate (space scenario1)
      :: ((λ i : nat, Update (decode_digits (bases (space scenario1)) (Z.of_nat i)))
            <$> seq 0 (Z.to_nat (volume (space scenario1)))).
Proof.
  apply (constructor_builds_table scenario1_net None).
  - vm_compute. reflexivity.
  - simpl. repeat constructor; lia.
  - intros v Hv. simpl in *.
    destruct v as [|x [|y [|z v]]]; try done.
    + by rewrite andb_false_r in Hv.
    + apply andb_prop in Hv as [Hx Hy]. apply andb_prop in Hy as [Hy _].
      assert ((x = 0 ∨ x = 1) ∧ (y = 0 ∨ y = 1)) as [[-> | ->] [-> | ->]]
        by lia; reflexivity.
    + by rewrite !andb_false_r in Hv.
Defined.

(* ================================================================= *)
(** ** The time series *)

Section timeseries_rows.
Variable net : Network.
Variable sp : StateSpace.
Hypothesis Hbases : Forall (λ b, 1 ≤ b) (bases sp).
Hypothesis Hclosed : closed_update net sp.

Lemma column_state v :
  in_bases (bases sp) v = true → column (ndim sp) v = Ok v.
Proof.
  intros Hv. unfold column, ndim.
  by rewrite bool_decide_eq_true_2 by by apply in_bases_length.
Qed.

Lemma timeseries_row_iterates times k :
  0 ≤ k < volume sp →
  timeseries_row (ndim sp)
    (_unsafe_update net <$> StateSpace_iter sp)
    (StateSpace_unsafe_encode sp <$> (_unsafe_update net <$> StateSpace_iter sp))
    times k
  = Ok ((λ t, Nat.iter (S t) (_unsafe_update net) (decode_digits (bases sp) k))
          <$> seq 0 times).
Proof.
  revert k. induction times as [|times IH]; intros k Hk; [done|].
  assert (in_bases (bases sp) (decode_digits (bases sp) k) = true) as Hin
    by by apply decode_digits_in_bases.
  pose proof (Hclosed _ Hin) as Hin'.
  cbn [timeseries_row].
  rewrite (getitem_in_range _ k
             (_unsafe_update net (decode_digits (bases sp) k))); cycle 1.
  { unfold in_range, StateSpace_iter. rewrite !length_fmap, length_seq. lia. }
  { rewrite list_lookup_fmap, StateSpace_iter_lookup by lia.
    simpl. by rewrite Z2Nat.id by lia. }
  cbn [bind]. rewrite column_state by done. cbn [bind].
  rewrite (getitem_in_range _ k
             (StateSpace_unsafe_encode sp
                (_unsafe_update net (decode_digits (bases sp) k)))); cycle 1.
  { unfold in_range, StateSpace_iter. rewrite !length_fmap, length_seq. lia. }
  { rewrite !list_lookup_fmap, StateSpace_iter_lookup by lia.
    simpl. by rewrite Z2Nat.id by lia. }
  cbn [bind]. rewrite IH by by apply encode_digits_range.
  cbn [bind]. unfold StateSpace_unsafe_encode.
  rewrite decode_encode_digits by done.
  rewrite <- cons_seq, fmap_cons, <- fmap_S_seq, <- list_fmap_compose.
  do 2 f_equal. apply list_fmap_ext. intros _ t _. unfold compose.
  by rewrite <- !Nat.iter_succ_r.
Qed.

Lemma timeseries_rows_iterates times a n :
  (a + n ≤ Z.to_nat (volume sp))%nat →
  timeseries_rows (ndim sp)
    (_unsafe_update net <$> StateSpace_iter sp)
    (StateSpace_unsafe_encode sp <$> (_unsafe_update net <$> StateSpace_iter sp))
    times
    ((λ i : nat, (i, decode_digits (bases sp) (Z.of_nat i))) <$> seq a n)
  = Ok ((λ i : nat,
           (λ t, Nat.iter t (_unsafe_update net)
                   (decode_digits (bases sp) (Z.of_nat i)))
             <$> seq 0 (S times))
          <$> seq a n).
Proof.
  revert a. induction n as [|n IH]; intros a Ha; [done|].
  rewrite <- cons_seq, !fmap_cons. cbn [timeseries_rows].
  rewrite column_state
    by (apply decode_digits_in_bases; [done|]; unfold volume in Ha; lia).
  cbn [bind]. rewrite timeseries_row_iterates by lia.
  cbn [bind]. rewrite IH by lia. cbn [bind].
  do 3 f_equal.
  change (seq 0 (S times)) with (0%nat :: seq 1 times).
  by rewrite fmap_cons, <- fmap_S_seq, <- list_fmap_compose.
Qed.

End timeseries_rows.

Lemma enumerate_StateSpace_iter sp :
  imap (λ index init, (index, init)) (StateSpace_iter sp)
  = (λ i : nat, (i, decode_digits (bases sp) (Z.of_nat i)))
      <$> seq 0 (Z.to_nat (volume sp)).
Proof.
  apply list_eq. intros i. unfold StateSpace_iter.
  rewrite list_lookup_imap, !list_lookup_fmap.
  destruct (decide (i < Z.to_nat (volume sp))%nat).
  - by rewrite lookup_seq_lt.
  - by rewrite lookup_seq_ge by lia.
Qed.

(** X10. For a size that fits the network, at least one time step, and a
    network whose update keeps the states inside the state space (all
    bases at least 1), [timeseries] returns, for each state of the space in
    the order of the states, the state followed by its images under 1, 2,
    ..., [timesteps] updates: the entry for state number [index] and time
    [t] is the [t]-fold update of that state. *)
Theorem timeseries_iterates_update net size timesteps :
  ¬ size_mismatch net size → 1 ≤ timesteps →
  Forall (λ b, 1 ≤ b) (bases (state_space net size)) →
  closed_update net (state_space net size) →
  timeseries (PyNetwork net) timesteps size
  = Ok ((λ init,
           (λ t, Nat.iter t (_unsafe_update net) init)
             <$> seq 0 (S (Z.to_nat timesteps)))
          <$> StateSpace_iter (state_space net size)).
Proof.
  intros Hsize Ht Hbs Hclosed.
  assert (timeseries (PyNetwork net) timesteps size
          = timeseries_rows (ndim (state_space net size))
              (_unsafe_update net <$> StateSpace_iter (state_space net size))
              (StateSpace_unsafe_encode (state_space net size)
                 <$> (_unsafe_update net <$> StateSpace_iter (state_space net size)))
              (Z.to_nat timesteps)
              (imap (λ index init, (index, init))
                 (StateSpace_iter (state_space net size)))) as ->.
  { unfold timeseries, transitions, size_mismatch in *.
    replace (timesteps <? 1) with false by lia.
    destruct (is_fixed_sized net), size as [sz|]; simpl;
      try (exfalso; apply Hsize; by auto);
      change (λ state : list Z, Decoded (_unsafe_update net state))
        with (Decoded ∘ _unsafe_update net);
      by rewrite list_fmap_compose, vectors_decoded. }
  rewrite enumerate_StateSpace_iter.
  rewrite timeseries_rows_iterates by (done || lia).
  unfold StateSpace_iter. by rewrite <- list_fmap_compose.
Qed.

Lemma timeseries_iterates_update_witness :
  timeseries (PyNetwork scenario1_net) 2 None
  = Ok ((λ init,
           (λ t, Nat.iter t (_unsafe_update scenario1_net) init)
             <$> seq 0 (S (Z.to_nat 2)))
          <$> StateSpace_iter (state_space scenario1_net None)).
Proof.
  apply (timeseries_iterates_update scenario1_net None 2).
  - intros [[_ H]|[H _]]; [by apply H|discriminate H].
  - lia.
  - simpl. repeat constructor; lia.
  - intros v Hv. simpl in *.
    destruct v as [|x [|y [|z v]]]; try done.
    + by rewrite andb_false_r in Hv.
    + apply andb_prop in Hv as [Hx Hy]. apply andb_prop in Hy as [Hy _].
      assert ((x = 0 ∨ x = 1) ∧ (y = 0 ∨ y = 1)) as [[-> | ->] [-> | ->]]
        by lia; reflexivity.
    + by rewrite !andb_false_r in Hv.
Defined.

(* ================================================================= *)
(** ** The landscape and the free generator [trajectory] *)

(** Along the table the constructor builds, the orbit of the index of a
    state is made of the indices of the iterated updates of the state. *)
Lemma iter_successor_update net size events self v j :
  Landscape_init (PyNetwork net) size = (events, Ok self) →
  Forall (λ b, 1 ≤ b) (bases (space self)) →
  closed_update net (space self) →
  in_bases (bases (space self)) v = true →
  Nat.iter j (successor (__transitions self)) (encode_digits (bases (space self)) v)
  = encode_digits (bases (space self)) (Nat.iter j (_unsafe_update net) v).
Proof.
  intros Hinit Hbs Hclosed Hv.
  destruct (transitions_constructed net size events self true Hinit)
    as (_ & Htable & _ & _).
  induction j as [|j IH]; [done|].
  rewrite !Nat.iter_succ, IH.
  pose proof (closed_update_iter net (space self) v j Hclosed Hv) as Hj.
  pose proof (encode_digits_range _ _ Hj) as Hr. fold (volume (space self)) in Hr.
  unfold successor. rewrite Htable, list_lookup_fmap.
  rewrite StateSpace_iter_lookup by lia. simpl.
  rewrite Z2Nat.id by lia. by rewrite decode_encode_digits.
Qed.

(** X11. The landscape and the free generator [trajectory] agree: for a
    landscape constructed from a network whose update keeps the states
    inside the state space (all bases at least 1), a non-empty state of the
    space that the network accepts, and at least one time step,
    [Landscape.trajectory] with that step count returns exactly the items
    the free generator yields before it ends normally, as vectors or as
    indices (for indices, provided the free function encodes with the
    state space of the landscape). *)
Theorem landscape_trajectory_agrees net size events self state timesteps encode :
  Landscape_init (PyNetwork net) size = (events, Ok self) →
  Forall (λ b, 1 ≤ b) (bases (space self)) →
  closed_update net (space self) →
  state ≠ [] → in_bases (bases (space self)) state = true →
  update_check net state = None →
  (encode = true → trajectory_space net state = space self) →
  1 ≤ timesteps →
  trajectory (PyNetwork net) state timesteps encode
  = ((λ j, if encode
           then Encoded (encode_digits (bases (space self))
                           (Nat.iter j (_unsafe_update net) state))
           else Decoded (Nat.iter j (_unsafe_update net) state))
       <$> seq 0 (S (Z.to_nat timesteps)),
     None)
  ∧ Landscape_trajectory self (InitList state) (Some timesteps) (Some encode)
    = Ok (trajectory (PyNetwork net) state timesteps encode).1.
Proof.
  intros Hinit Hbs Hclosed Hne Hstate Hcheck Hspace Ht.
  destruct (Landscape_init_wf net size events self Hinit Hbs Hclosed)
    as (Hwf & _ & _).
  assert (trajectory (PyNetwork net) state timesteps encode
          = ((λ j, if encode
                   then Encoded (encode_digits (bases (space self))
                                   (Nat.iter j (_unsafe_update net) state))
                   else Decoded (Nat.iter j (_unsafe_update net) state))
               <$> seq 0 (S (Z.to_nat timesteps)),
             None)) as Hfree.
  { unfold trajectory. replace (timesteps <? 1) with false by lia.
    rewrite Hcheck. f_equal.
    replace (S (Z.to_nat timesteps)) with (S (S (Z.to_nat (timesteps - 1))))
      by lia.
    transitivity
      ((λ st, if encode
              then Encoded (StateSpace_unsafe_encode
                              (trajectory_space net state) st)
              else Decoded st)
         <$> (state :: iterates (S (Z.to_nat (timesteps - 1)))
                         (_unsafe_update net) state)); [done|].
    rewrite iterates_iter, <- list_fmap_compose.
    apply list_fmap_ext. intros _ j _. unfold compose.
    destruct encode; [|done].
    unfold StateSpace_unsafe_encode. by rewrite Hspace. }
  split; [done|]. rewrite Hfree. cbn [fst].
  pose proof (denotes_list self state Hne Hstate) as Hd.
  pose proof (denotes_in_range self _ _ Hwf Hd) as Hidx.
  destruct Hwf as [Hvol Hwft].
  rewrite (trajectory_shown self (InitList state)
             (encode_digits (bases (space self)) state) (Some timesteps)
             (Some encode)
             (orbit (__transitions self)
                (encode_digits (bases (space self)) state)
                (S (Z.to_nat timesteps)))); [|done|done| |].
  - f_equal. unfold orbit. rewrite <- list_fmap_compose.
    apply list_fmap_ext. intros _ j _. unfold compose, shown, encodes.
    rewrite (iter_successor_update net size events self) by done.
    destruct encode; [done|].
    by rewrite decode_encode_digits by by apply closed_update_iter.
  - rewrite orbit_S.
    apply trajectory_path_fixed; [done| |by apply successor_in_range|done].
    by apply getitem_trans.
  - by apply orbit_in_range.
Qed.

Lemma landscape_trajectory_agrees_witness :
  trajectory (PyNetwork scenario1_net) [0; 0] 2 true
  = ((λ j, if true
           then Encoded (encode_digits (bases (space scenario1))
                           (Nat.iter j (_unsafe_update scenario1_net) [0; 0]))
           else Decoded (Nat.iter j (_unsafe_update scenario1_net) [0; 0]))
       <$> seq 0 (S (Z.to_nat 2)),
     None)
  ∧ Landscape_trajectory scenario1 (InitList [0; 0]) (Some 2) (Some true)
    = Ok (trajectory (PyNetwork scenario1_net) [0; 0] 2 true).1.
Proof.
  apply (landscape_trajectory_agrees scenario1_net None
           [Enumerate (MkStateSpace [2; 2]);
            Update [0; 0]; Update [1; 0]; Update [0; 1]; Update [1; 1]]
           scenario1 [0; 0] 2 true).
  - vm_compute. reflexivity.
  - simpl. repeat constructor; lia.
  - intros v Hv. simpl in *.
    destruct v as [|x [|y [|z v]]]; try done.
    + by rewrite andb_false_r in Hv.
    + apply andb_prop in Hv as [Hx Hy]. apply andb_prop in Hy as [Hy _].
      assert ((x = 0 ∨ x = 1) ∧ (y = 0 ∨ y = 1)) as [[-> | ->] [-> | ->]]
        by lia; reflexivity.
    + by rewrite !andb_false_r in Hv.
  - discriminate.
  - reflexivity.
  - reflexivity.
  - reflexivity.
  - lia.
Defined.

(* ================================================================= *)
(** ** The states with one node fixed *)

Lemma pos_bits_testbit p (i : nat) :
  Z.testbit (Z.pos p) (Z.of_nat i) = default false (pos_bits p !! i).
Proof.
  revert i. induction p as [p IH|p IH|]; intros [|i]; simpl pos_bits.
  - done.
  - rewrite Nat2Z.inj_succ, Pos2Z.inj_xI, Z.testbit_odd_succ by lia. apply IH.
  - done.
  - change (Z.pos p~0) with (2 * Z.pos p).
    rewrite Nat2Z.inj_succ, Z.testbit_even_succ by lia. apply IH.
  - done.
  - rewrite Nat2Z.inj_succ. simpl. by destruct (Z.succ (Z.of_nat i)) eqn:E; try lia.
Qed.

Lemma pos_bits_length p :
  2 ^ (Z.of_nat (length (pos_bits p)) - 1) ≤ Z.pos p
  < 2 ^ Z.of_nat (length (pos_bits p)).
Proof.
  induction p as [p IH|p IH|]; simpl pos_bits; cbn [length];
    [rewrite Pos2Z.inj_xI|change (Z.pos p~0) with (2 * Z.pos p)|done];
    rewrite Nat2Z.inj_succ;
    replace (Z.succ (Z.of_nat (length (pos_bits p))) - 1)
      with (Z.succ (Z.of_nat (length (pos_bits p)) - 1)) by lia;
    assert (1 ≤ Z.of_nat (length (pos_bits p)))
      by (destruct p; cbn [pos_bits length]; lia);
    rewrite !Z.pow_succ_r by lia; lia.
Qed.

(** Within the width, the formatted index shows its bits, the most
    significant first. *)
Lemma format_binary_bits idx (k : nat) :
  (1 ≤ k)%nat → 0 ≤ idx < 2 ^ Z.of_nat k →
  format_binary idx (Z.of_nat k)
  = (λ j : nat, digit (Z.testbit idx (Z.of_nat (k - 1 - j)))) <$> seq 0 k.
Proof.
  intros Hk Hidx. destruct idx as [|p|p]; [| |lia]; unfold format_binary.
  - rewrite Nat2Z.id.
    replace ([("0")%char]) with (replicate 1 ("0")%char) by done.
    rewrite <- replicate_add. replace (k - 1 + 1)%nat with k by lia.
    apply list_eq. intros j. rewrite list_lookup_fmap.
    destruct (decide (j < k)%nat).
    + rewrite lookup_replicate_2, lookup_seq_lt by done. simpl.
      by rewrite Z.testbit_0_l.
    + rewrite lookup_seq_ge by lia.
      apply lookup_ge_None_2. rewrite length_replicate. lia.
  - pose proof (pos_bits_length p) as [Hlow _].
    assert (length (pos_bits p) ≤ k)%nat as Hlen.
    { assert (Z.of_nat (length (pos_bits p)) - 1 < Z.of_nat k); [|lia].
      apply (Z.pow_lt_mono_r_iff 2); lia. }
    assert (1 ≤ length (pos_bits p))%nat as Hpos
      by (destruct p; cbn [pos_bits length]; lia).
    cbn zeta. rewrite length_fmap, length_rev, Nat2Z.id.
    apply list_eq. intros j. rewrite list_lookup_fmap.
    destruct (decide (j < k)%nat) as [Hj|Hj].
    + rewrite lookup_seq_lt by done. simpl.
      rewrite pos_bits_testbit.
      destruct (decide (j < k - length (pos_bits p))%nat) as [Hpad|Hpad].
      * rewrite lookup_app_l by (rewrite length_replicate; lia).
        rewrite lookup_replicate_2 by done.
        by rewrite lookup_ge_None_2 by lia.
      * rewrite lookup_app_r by (rewrite length_replicate; lia).
        rewrite length_replicate, list_lookup_fmap.
        replace (rev (pos_bits p)) with (reverse (pos_bits p))
          by (unfold reverse; by rewrite <- rev_alt).
        rewrite reverse_lookup by lia.
        replace (length (pos_bits p) - S (j - (k - length (pos_bits p))))%nat
          with (k - 1 - j)%nat by lia.
        destruct (lookup_lt_is_Some_2 (pos_bits p) (k - 1 - j)) as [b ->];
          [lia|done].
    + rewrite lookup_seq_ge by lia.
      apply lookup_ge_None_2.
      rewrite length_app, length_replicate, length_fmap, length_rev. lia.
Qed.

Lemma format_binary_getitem idx (k : nat) fixed_index :
  (1 ≤ k)%nat → 0 ≤ idx < 2 ^ Z.of_nat k →
  - Z.of_nat k ≤ fixed_index < Z.of_nat k →
  getitem (format_binary idx (Z.of_nat k)) fixed_index
  = Ok (digit (Z.testbit idx (Z.of_nat k - 1 - fixed_index `mod` Z.of_nat k))).
Proof.
  intros Hk Hidx Hfi. rewrite format_binary_bits by done.
  unfold getitem, norm_index. rewrite length_fmap, length_seq.
  destruct (decide (0 ≤ fixed_index)) as [Hpos|Hneg].
  - rewrite bool_decide_eq_true_2 by lia.
    rewrite list_lookup_fmap, lookup_seq_lt by lia. simpl.
    rewrite Z.mod_small by lia. do 3 f_equal. lia.
  - rewrite bool_decide_eq_false_2 by lia.
    rewrite bool_decide_eq_true_2 by lia.
    rewrite list_lookup_fmap, lookup_seq_lt by lia. simpl.
    replace (fixed_index `mod` Z.of_nat k) with (Z.of_nat k + fixed_index).
    + do 3 f_equal. lia.
    + apply (Z.mod_unique _ _ (-1)); lia.
Qed.

Lemma str_inj v w : str v = str w → v = w.
Proof.
  assert (∀ z, Z.to_int z ≠ Decimal.Pos Decimal.Nil
               ∧ Z.to_int z ≠ Decimal.Neg Decimal.Nil) as Hnil.
  { intros z. split; intros H; pose proof (f_equal Z.of_int H) as H';
      rewrite DecimalZ.of_to in H'; subst z; discriminate H. }
  unfold str. intros H. apply DecimalZ.to_int_inj.
  apply (f_equal NilZero.int_of_string) in H.
  rewrite !NilZero.isi in H by apply Hnil. congruence.
Qed.

(** The test of line 137 keeps the indices whose digit is the numeral of
    [fixed_value]. *)
Lemma digit_eqb_str b v :
  String.eqb (String (digit b) EmptyString) (str v)
  = bool_decide ((v = 0 ∧ b = false) ∨ (v = 1 ∧ b = true)).
Proof.
  destruct (String.eqb_spec (String (digit b) EmptyString) (str v)) as [He|He].
  - symmetry. apply bool_decide_eq_true_2. destruct b.
    + right. split; [|done]. apply str_inj. by rewrite <- He.
    + left. split; [|done]. apply str_inj. by rewrite <- He.
  - symmetry. apply bool_decide_eq_false_2.
    intros [[-> ->]|[-> ->]]; by apply He.
Qed.

Lemma fixed_states_filter (k : nat) fixed_index fixed_value range :
  (1 ≤ k)%nat → - Z.of_nat k ≤ fixed_index < Z.of_nat k →
  Forall (λ idx, 0 ≤ idx < 2 ^ Z.of_nat k) range →
  fixed_states (Z.of_nat k) fixed_index fixed_value range
  = Ok (filter
          (λ idx,
             (fixed_value = 0
              ∧ Z.testbit idx (Z.of_nat k - 1 - fixed_index `mod` Z.of_nat k)
                = false)
             ∨ (fixed_value = 1
                ∧ Z.testbit idx (Z.of_nat k - 1 - fixed_index `mod` Z.of_nat k)
                  = true))
          range).
Proof.
  intros Hk Hfi. induction 1 as [|idx range Hidx _ IH]; [done|].
  cbn [fixed_states]. rewrite format_binary_getitem by done.
  cbn [bind]. rewrite IH. cbn [bind]. rewrite digit_eqb_str, filter_cons.
  case_bool_decide; by destruct (decide _).
Qed.

Lemma length_filter_ext {A : Type} (P Q : A → Prop)
    `{∀ x, Decision (P x)} `{∀ x, Decision (Q x)} (l : list A) :
  (∀ x, x ∈ l → P x ↔ Q x) → length (filter P l) = length (filter Q l).
Proof.
  induction l as [|x l IH]; intros Hext; [done|].
  rewrite !filter_cons.
  assert (P x ↔ Q x) as Hx by (apply Hext; left).
  assert (length (filter P l) = length (filter Q l)) as Hl
    by (apply IH; intros y Hy; apply Hext; by right).
  destruct (decide (P x)), (decide (Q x)); simpl; tauto || lia.
Qed.

Lemma length_filter_all {A : Type} (P : A → Prop) `{∀ x, Decision (P x)}
    (l : list A) :
  (∀ x, x ∈ l → P x) → length (filter P l) = length l.
Proof.
  induction l as [|x l IH]; intros Hall; [done|].
  rewrite filter_cons_True by (apply Hall; left).
  simpl. rewrite IH; [done|]. intros y Hy. apply Hall. by right.
Qed.

Lemma length_filter_none {A : Type} (P : A → Prop) `{∀ x, Decision (P x)}
    (l : list A) :
  (∀ x, x ∈ l → ¬ P x) → length (filter P l) = 0%nat.
Proof.
  induction l as [|x l IH]; intros Hnone; [done|].
  rewrite filter_cons_False by (apply Hnone; left).
  apply IH. intros y Hy. apply Hnone. by right.
Qed.

Lemma length_filter_fmap {A B : Type} (f : A → B) (P : B → Prop)
    `{∀ x, Decision (P x)} (l : list A) :
  length (filter P (f <$> l)) = length (filter (λ x, P (f x)) l).
Proof.
  induction l as [|x l IH]; [done|].
  rewrite fmap_cons, !filter_cons.
  destruct (decide (P (f x))); simpl; by rewrite IH.
Qed.

(** Among the numbers below [2^k], half have a given bit set. *)
Lemma count_bit (k m : nat) (v : bool) :
  (m < k)%nat →
  length (filter (λ i : nat, Z.testbit (Z.of_nat i) (Z.of_nat m) = v)
            (seq 0 (2 ^ k)))
  = (2 ^ (k - 1))%nat.
Proof.
  induction k as [|k IH]; intros Hm; [lia|].
  replace (2 ^ S k)%nat with (2 ^ k + 2 ^ k)%nat by (simpl; lia).
  rewrite seq_app, filter_app, length_app.
  replace (seq (0 + 2 ^ k) (2 ^ k)) with (Nat.add (2 ^ k) <$> seq 0 (2 ^ k))
    by (rewrite fmap_add_seq; f_equal; lia).
  rewrite length_filter_fmap.
  replace (S k - 1)%nat with k by lia.
  assert (0 < 2 ^ Z.of_nat k) as Hpow by (apply Z.pow_pos_nonneg; lia).
  assert (∀ i : nat, i ∈ seq 0 (2 ^ k) → 0 ≤ Z.of_nat i < 2 ^ Z.of_nat k)
    as Hrange.
  { intros i Hi. apply elem_of_seq in Hi.
    change 2 with (Z.of_nat 2). rewrite <- Nat2Z.inj_pow. lia. }
  assert (∀ i : nat, Z.of_nat (2 ^ k + i) = Z.of_nat i + 1 * 2 ^ Z.of_nat k)
    as Hshift.
  { intros i. rewrite Nat2Z.inj_add, Nat2Z.inj_pow. simpl (Z.of_nat 2). lia. }
  destruct (decide (m < k)%nat) as [Hlt|Hge].
  - rewrite IH by done.
    rewrite (length_filter_ext _
               (λ i : nat, Z.testbit (Z.of_nat i) (Z.of_nat m) = v)).
    + rewrite IH by done.
      destruct k as [|k']; [lia|]. simpl. replace (k' - 0)%nat with k' by lia.
      lia.
    + intros i Hi. rewrite Hshift.
      rewrite <- (Z.mod_pow2_bits_low (_ + _) (Z.of_nat k)) by lia.
      rewrite Z.mod_add by lia.
      rewrite Z.mod_pow2_bits_low by lia. done.
  - assert (m = k) as -> by lia.
    assert (∀ i : nat, i ∈ seq 0 (2 ^ k) →
              Z.testbit (Z.of_nat i) (Z.of_nat k) = false) as Hlow.
    { intros i Hi. apply Z.testbit_false; [lia|].
      rewrite Z.div_small by by apply Hrange. done. }
    assert (∀ i : nat, i ∈ seq 0 (2 ^ k) →
              Z.testbit (Z.of_nat (2 ^ k + i)) (Z.of_nat k) = true) as Hhigh.
    { intros i Hi. apply Z.testbit_true; [lia|].
      rewrite Hshift, Z.div_add by lia.
      rewrite Z.div_small by by apply Hrange. done. }
    destruct v.
    + rewrite length_filter_none, length_filter_all, length_seq; [lia| |].
      * intros i Hi. by apply Hhigh.
      * intros i Hi. by rewrite Hlow.
    + rewrite length_filter_all, length_filter_none, length_seq; [lia| |].
      * intros i Hi. by rewrite Hhigh.
      * intros i Hi. by apply Hlow.
Qed.

Lemma all_states_filter k fixed_index fixed_value max_k :
  1 ≤ k ≤ max_k → - k ≤ fixed_index < k →
  _all_states_with_one_node_fixed k fixed_index fixed_value max_k
  = Proceeds
      (Ok (filter
             (λ idx,
                (fixed_value = 0
                 ∧ Z.testbit idx (k - 1 - fixed_index `mod` k) = false)
                ∨ (fixed_value = 1
                   ∧ Z.testbit idx (k - 1 - fixed_index `mod` k) = true))
             (Z.of_nat <$> seq 0 (2 ^ Z.to_nat k)))).
Proof.
  intros Hk Hfi. unfold _all_states_with_one_node_fixed.
  replace (max_k <? k) with false by lia.
  replace (k <? 0) with false by lia.
  assert (Z.to_nat (2 ^ k) = (2 ^ Z.to_nat k)%nat) as ->.
  { rewrite <- (Z2Nat.id k) at 1 by lia.
    change 2 with (Z.of_nat 2) at 1.
    by rewrite <- Nat2Z.inj_pow, Nat2Z.id. }
  rewrite <- (Z2Nat.id k) by lia. rewrite Nat2Z.id.
  rewrite fixed_states_filter; [done|lia|lia|].
  apply Forall_fmap, Forall_forall. intros i Hi. apply elem_of_seq in Hi.
  simpl. change 2 with (Z.of_nat 2). rewrite <- Nat2Z.inj_pow. lia.
Qed.

(** X12. For [1 <= k <= max_k], a position [fixed_index] inside the
    [k]-character binary numeral (counted from the end when negative) and
    [fixed_value] 0 or 1, [_all_states_with_one_node_fixed] returns,
    without repetition, exactly the numbers below [2**k] whose binary
    digit at that position is [fixed_value], that is whose bit
    [k - 1 - fixed_index % k] has that value; there are [2**(k-1)] of
    them, as its docstring expects. *)
Theorem one_node_fixed_is_half k fixed_index fixed_value max_k :
  1 ≤ k ≤ max_k → - k ≤ fixed_index < k →
  fixed_value = 0 ∨ fixed_value = 1 →
  ∃ states,
    _all_states_with_one_node_fixed k fixed_index fixed_value max_k
    = Proceeds (Ok states)
    ∧ Z.of_nat (length states) = 2 ^ (k - 1)
    ∧ NoDup states
    ∧ ∀ idx, idx ∈ states
             ↔ 0 ≤ idx < 2 ^ k
               ∧ Z.testbit idx (k - 1 - fixed_index `mod` k)
                 = bool_decide (fixed_value = 1).
Proof.
  intros Hk Hfi Hfv. eexists. split; [by apply all_states_filter|].
  assert (0 ≤ fixed_index `mod` k < k) as Hm by (apply Z.mod_pos_bound; lia).
  split_and!.
  - rewrite length_filter_fmap.
    rewrite (length_filter_ext _
               (λ i : nat,
                  Z.testbit (Z.of_nat i)
                    (Z.of_nat (Z.to_nat (k - 1 - fixed_index `mod` k)))
                  = bool_decide (fixed_value = 1))).
    + rewrite count_bit by lia.
      rewrite Nat2Z.inj_pow. simpl (Z.of_nat 2). f_equal. lia.
    + intros i _. rewrite Z2Nat.id by lia.
      destruct Hfv as [-> | ->].
      * rewrite bool_decide_eq_false_2 by lia. intuition lia.
      * rewrite bool_decide_eq_true_2 by lia. intuition lia.
  - apply NoDup_filter, NoDup_fmap; [apply Nat2Z.inj'|apply NoDup_seq].
  - intros idx. rewrite list_elem_of_filter, list_elem_of_fmap.
    assert ((∃ i : nat, idx = Z.of_nat i ∧ i ∈ seq 0 (2 ^ Z.to_nat k))
            ↔ 0 ≤ idx < 2 ^ k) as ->.
    { assert (2 ^ k = Z.of_nat (2 ^ Z.to_nat k)) as ->.
      { rewrite Nat2Z.inj_pow, Z2Nat.id by lia. done. }
      split.
      - intros (i & -> & Hi). apply elem_of_seq in Hi. lia.
      - intros Hidx. exists (Z.to_nat idx). split; [lia|].
        apply elem_of_seq. lia. }
    destruct Hfv as [-> | ->].
    + rewrite bool_decide_eq_false_2 by lia. intuition lia.
    + rewrite bool_decide_eq_true_2 by lia. intuition lia.
Qed.

Lemma one_node_fixed_is_half_witness :
  ∃ states,
    _all_states_with_one_node_fixed 3 (-1) 0 20 = Proceeds (Ok states)
    ∧ Z.of_nat (length states) = 2 ^ (3 - 1)
    ∧ NoDup states
    ∧ ∀ idx, idx ∈ states
             ↔ 0 ≤ idx < 2 ^ 3
               ∧ Z.testbit idx (3 - 1 - (-1) `mod` 3) = bool_decide (0 = 1).
Proof.
  apply (one_node_fixed_is_half 3 (-1) 0 20); [lia|lia|].
  left. reflexivity.
Defined.

(** X13. For [1 <= k <= max_k] and a position inside the numeral, a
    [fixed_value] other than 0 and 1 selects nothing: the function returns
    the empty list instead of raising. *)
Theorem one_node_fixed_other_value k fixed_index fixed_value max_k :
  1 ≤ k ≤ max_k → - k ≤ fixed_index < k →
  fixed_value ≠ 0 → fixed_value ≠ 1 →
  _all_states_with_one_node_fixed k fixed_index fixed_value max_k
  = Proceeds (Ok []).
Proof.
  intros Hk Hfi H0 H1. rewrite all_states_filter by done. do 2 f_equal.
  apply length_zero_iff_nil, length_filter_none.
  intros idx _ [[? _]|[? _]]; done.
Qed.

Lemma one_node_fixed_other_value_witness :
  _all_states_with_one_node_fixed 3 0 2 20 = Proceeds (Ok []).
Proof.
  apply (one_node_fixed_other_value 3 0 2 20); lia.
Defined.

(** X14. For [0 <= k <= max_k], a position outside the binary numeral,
    which has [k] characters and one for [k = 0], makes the function raise
    [IndexError]; a [k] above [max_k] makes it raise the plain [Exception]
    whatever the other arguments. *)
Theorem one_node_fixed_rejects k fixed_index fixed_value max_k :
  k ≤ max_k → 0 ≤ k →
  ¬ (- Z.max k 1 ≤ fixed_index < Z.max k 1) →
  _all_states_with_one_node_fixed k fixed_index fixed_value max_k
  = Proceeds (Raise IndexError)
  ∧ ∀ k' fixed_index' fixed_value',
      max_k < k' →
      _all_states_with_one_node_fixed k' fixed_index' fixed_value' max_k
      = Exception "k > max_k".
Proof.
  intros Hmax Hk Hfi. split.
  - unfold _all_states_with_one_node_fixed.
    replace (max_k <? k) with false by lia.
    replace (k <? 0) with false by lia.
    assert (0 < 2 ^ k) as Hpow by (apply Z.pow_pos_nonneg; lia).
    destruct (Z.to_nat (2 ^ k)) as [|n] eqn:Hn; [lia|].
    rewrite <- cons_seq, fmap_cons. cbn [fixed_states].
    change (Z.of_nat 0) with 0.
    assert (getitem (format_binary 0 k) fixed_index = Raise IndexError) as ->;
      [|done].
    unfold getitem, norm_index, format_binary.
    rewrite length_app, length_replicate. cbn [length].
    rewrite bool_decide_eq_false_2 by lia.
    by rewrite bool_decide_eq_false_2 by lia.
  - intros k' fixed_index' fixed_value' Hk'.
    unfold _all_states_with_one_node_fixed.
    by replace (max_k <? k') with true by lia.
Qed.

Lemma one_node_fixed_rejects_witness :
  _all_states_with_one_node_fixed 3 3 0 20 = Proceeds (Raise IndexError)
  ∧ ∀ k' fixed_index' fixed_value',
      20 < k' →
      _all_states_with_one_node_fixed k' fixed_index' fixed_value' 20
      = Exception "k > max_k".
Proof.
  apply (one_node_fixed_rejects 3 3 0 20); lia.
Defined.

(* ================================================================= *)
(** ** The table and the free generator [transitions] *)

(** X15. The table of a landscape is what the free generator
    [transitions] yields for the same network and size: as indices the
    items are the cells of the table, and, when the update keeps the
    states inside the state space (all bases at least 1), as vectors they
    are the cells decoded; in both cases the generator ends normally and
    asks the network for the same updates as the constructor did. *)
Theorem table_is_free_transitions net size events self :
  Landscape_init (PyNetwork net) size = (events, Ok self) →
  Forall (λ b, 1 ≤ b) (bases (space self)) →
  closed_update net (space self) →
  transitions (PyNetwork net) size true
  = (events, Encoded <$> __transitions self, None)
  ∧ transitions (PyNetwork net) size false
    = (events,
       (λ i, Decoded (decode_digits (bases (space self)) i))
         <$> __transitions self,
       None).
Proof.
  intros Hinit Hbs Hclosed.
  destruct (transitions_constructed net size events self true Hinit)
    as (Htrue & Htable & _ & _).
  destruct (transitions_constructed net size events self false Hinit)
    as (Hfalse & _ & _ & _).
  rewrite Htrue, Hfalse, Htable, <- !list_fmap_compose. split; [done|].
  do 2 f_equal. apply list_fmap_ext. intros i state Hstate.
  unfold compose, StateSpace_unsafe_encode. f_equal.
  rewrite decode_encode_digits; [done|].
  apply Hclosed.
  unfold StateSpace_iter in Hstate.
  rewrite list_lookup_fmap in Hstate.
  destruct (seq 0 (Z.to_nat (volume (space self))) !! i) as [j|] eqn:Hj;
    [|done].
  apply lookup_seq in Hj as [-> Hj]. injection Hstate as <-.
  apply decode_digits_in_bases; [done|]. unfold volume in Hj. lia.
Qed.

Lemma table_is_free_transitions_witness :
  transitions (PyNetwork scenario1_net) None true
  = ([Enumerate (MkStateSpace [2; 2]);
      Update [0; 0]; Update [1; 0]; Update [0; 1]; Update [1; 1]],
     Encoded <$> __transitions scenario1, None)
  ∧ transitions (PyNetwork scenario1_net) None false
    = ([Enumerate (MkStateSpace [2; 2]);
        Update [0; 0]; Update [1; 0]; Update [0; 1]; Update [1; 1]],
       (λ i, Decoded (decode_digits (bases (space scenario1)) i))
         <$> __transitions scenario1,
       None).
Proof.
  apply (table_is_free_transitions scenario1_net None).
  - vm_compute. reflexivity.
  - simpl. repeat constructor; lia.
  - intros v Hv. simpl in *.
    destruct v as [|x [|y [|z v]]]; try done.
    + by rewrite andb_false_r in Hv.
    + apply andb_prop in Hv as [Hx Hy]. apply andb_prop in Hy as [Hy _].
      assert ((x = 0 ∨ x = 1) ∧ (y = 0 ∨ y = 1)) as [[-> | ->] [-> | ->]]
        by lia; reflexivity.
    + by rewrite !andb_false_r in Hv.
Defined.
